(** * GEMi (ARMv9.py): bit-field codec, field-space enumerator, alias
    resolver, text assembler and register emulator.

    Shallow embedding of the functions of [src/ARMv9.py] and proofs of the
    properties stated for them.

    Conventions of the embedding.
    - Python [int] is [Z]; [&], [|], [^], [<<], [>>] are [Z.land], [Z.lor],
      [Z.lxor], [Z.shiftl], [Z.shiftr] (two's complement on negatives, as in
      Python).  Python raises on a negative shift count; statements that
      shift by a field offset or width assume them non-negative.
    - Python [str] is [string], read as ASCII text: [upper], [strip], the
      regular-expression classes [\s] and [\d] and [int()] are modelled on
      the ASCII range (bytes above 127 are left alone by [upper] and belong
      to no class).  [int()] skips only TAB..CR and SPACE around a
      literal, where [str.strip] and [\s] also take the separators
      FS..US; it is modelled without the interpreter's optional limit on
      the number of decimal digits.
    - A Python [dict] whose iteration order is observable ([fields], a
      combination map) is an association list with insert-or-update; a dict
      used only through membership and lookup ([locks], the register file)
      is a [gmap string Z].
    - Code that can raise returns an [outcome]; [print]ed diagnostics are
      returned as a list next to the value.
    - The disassembler (capstone) is outside the embedding: the ['asm'] text
      of a conversion result and the decoded text of an exploration line
      are not modelled. *)

From Stdlib Require Import ZArith Ascii String List Bool Lia HexString DecimalString.
From stdpp Require Import base gmap strings list.

Local Open Scope Z_scope.

(* ================================================================== *)
(** * Python string primitives (ASCII) *)
(* ================================================================== *)

Module PyStr.

Definition code (c : ascii) : N := N_of_ascii c.

(** [str.isspace] on one ASCII character: TAB..CR, FS..US and SPACE. *)
Definition isspace (c : ascii) : bool :=
  let n := code c in
  (((9 <=? n) && (n <=? 13)) || ((28 <=? n) && (n <=? 32)))%N.

(** [\d] / [str.isdigit] on ASCII. *)
Definition isdigit (c : ascii) : bool :=
  let n := code c in ((48 <=? n) && (n <=? 57))%N.

(** The class [[0-9A-F]] of the assembler's patterns. *)
Definition ishexupper (c : ascii) : bool :=
  let n := code c in
  (((48 <=? n) && (n <=? 57)) || ((65 <=? n) && (n <=? 70)))%N.

Definition upper_char (c : ascii) : ascii :=
  let n := code c in
  if ((97 <=? n) && (n <=? 122))%N then ascii_of_N (n - 32) else c.

(** [s.upper()] *)
Fixpoint upper (s : string) : string :=
  match s with
  | EmptyString => EmptyString
  | String c r => String (upper_char c) (upper r)
  end.

Fixpoint lstrip (s : string) : string :=
  match s with
  | EmptyString => EmptyString
  | String c r => if isspace c then lstrip r else s
  end.

Fixpoint rstrip (s : string) : string :=
  match s with
  | EmptyString => EmptyString
  | String c r =>
      match rstrip r with
      | EmptyString => if isspace c then EmptyString else String c EmptyString
      | r' => String c r'
      end
  end.

(** [s.strip()] *)
Definition strip (s : string) : string := rstrip (lstrip s).

(** The blanks [int()] skips around a literal: TAB..CR and SPACE only (the
    separators FS..US, which [str.strip] removes, make [int()] fail). *)
Definition is_blank (c : ascii) : bool :=
  let n := code c in (((9 <=? n) && (n <=? 13)) || (n =? 32))%N.

Fixpoint skip_blanks (s : string) : string :=
  match s with
  | EmptyString => EmptyString
  | String c r => if is_blank c then skip_blanks r else s
  end.

(** [s.split(sep)] for a one-character separator: never empty. *)
Fixpoint split (sep : ascii) (s : string) : list string :=
  match s with
  | EmptyString => [EmptyString]
  | String c r =>
      if Ascii.eqb c sep then EmptyString :: split sep r
      else match split sep r with
           | h :: t => String c h :: t
           | [] => [String c EmptyString]
           end
  end.

(** [ch in s] *)
Fixpoint contains (ch : ascii) (s : string) : bool :=
  match s with
  | EmptyString => false
  | String c r => Ascii.eqb c ch || contains ch r
  end.

(** [s.replace(ch, '')] *)
Fixpoint remove (ch : ascii) (s : string) : string :=
  match s with
  | EmptyString => EmptyString
  | String c r => if Ascii.eqb c ch then remove ch r else String c (remove ch r)
  end.

(** [s.startswith(p)] *)
Definition startswith (p s : string) : bool := String.prefix p s.

(** [s[1:]] *)
Definition tail (s : string) : string :=
  match s with EmptyString => EmptyString | String _ r => r end.

(** Longest prefix of [s] whose characters satisfy [p], and the rest. *)
Fixpoint span (p : ascii -> bool) (s : string) : string * string :=
  match s with
  | EmptyString => (EmptyString, EmptyString)
  | String c r =>
      if p c then let '(a, b) := span p r in (String c a, b)
      else (EmptyString, s)
  end.

(** Value of a character as a digit in bases up to 36 ([int()]'s table). *)
Definition digit_val (c : ascii) : option Z :=
  let n := code c in
  if ((48 <=? n) && (n <=? 57))%N then Some (Z.of_N n - 48)
  else if ((97 <=? n) && (n <=? 122))%N then Some (Z.of_N n - 87)
  else if ((65 <=? n) && (n <=? 90))%N then Some (Z.of_N n - 55)
  else None.

(** The digit loop of [int()]: digits of [base] with single underscores
    between them.  Returns the value, whether a digit was read, and the
    unread rest; [None] on a doubled or trailing underscore. *)
Fixpoint scan_digits (base : Z) (s : string) (prev_us : bool) (acc : Z)
    (seen : bool) : option (Z * bool * string) :=
  let stop := if prev_us then None else Some (acc, seen, s) in
  match s with
  | EmptyString => stop
  | String c r =>
      if Ascii.eqb c "_" then
        if prev_us then None else scan_digits base r true acc seen
      else match digit_val c with
           | Some d =>
               if d <? base then scan_digits base r false (acc * base + d) true
               else stop
           | None => stop
           end
  end.

Definition is_one_of (cs : string) (c : ascii) : bool := contains c cs.

(** [int(s, 0)] when [auto_base] is true, [int(s)] (base 10) otherwise;
    [None] stands for [ValueError]. *)
Definition py_int (auto_base : bool) (s : string) : option Z :=
  let s1 := skip_blanks s in
  let '(neg, s2) :=
    match s1 with
    | String "+" r => (false, r)
    | String "-" r => (true, r)
    | _ => (false, s1)
    end in
  (* base detection; [nz_err]: a decimal literal with a leading zero must
     be zero *)
  let '(base, nz_err, s3) :=
    if auto_base then
      match s2 with
      | String "0" (String c r) =>
          let after := match r with String "_" r' => r' | _ => r end in
          if is_one_of "xX" c then (16, false, after)
          else if is_one_of "oO" c then (8, false, after)
          else if is_one_of "bB" c then (2, false, after)
          else (10, true, s2)
      | String "0" EmptyString => (10, true, s2)
      | _ => (10, false, s2)
      end
    else (10, false, s2) in
  match s3 with
  | String "_" _ => None
  | _ =>
      match scan_digits base s3 false 0 false with
      | Some (v, true, rest) =>
          if nz_err && negb (v =? 0) then None
          else match skip_blanks rest with
               | EmptyString => Some (if neg then - v else v)
               | _ => None
               end
      | _ => None
      end
  end.

(** [f"{n:#x}"] *)
Definition fmt_hex (n : Z) : string := HexString.of_Z n.

(** Upper-case hexadecimal digits of a non-negative integer ([f"{n:X}"]). *)
Definition hex_digits_upper (n : Z) : string :=
  match n with
  | Zpos p => upper (HexString.Raw.of_pos p EmptyString)
  | _ => "0"
  end.

Fixpoint zeros (k : nat) : string :=
  match k with O => EmptyString | S k' => String "0" (zeros k') end.

(** [f"{n:08X}"] for [n >= 0]: zero-padded on the left to 8 characters. *)
Definition fmt_08X (n : Z) : string :=
  let d := hex_digits_upper n in
  zeros (8 - String.length d) +:+ d.

End PyStr.

(* ================================================================== *)
(** * Exceptions and ordered dictionaries *)
(* ================================================================== *)

(** The exceptions the modelled code can raise. *)
Inductive exn : Type :=
  | ValueError      (* int() on a bad literal, unpacking a wrong arity,
                       range() with step 0, an invalid register *)
  | OverflowError.  (* int.to_bytes on a value that does not fit *)

Inductive outcome (A : Type) : Type :=
  | Ret (a : A)
  | Raise (e : exn).
Arguments Ret {A} a.
Arguments Raise {A} e.

#[global] Instance outcome_ret : MRet outcome := fun A a => Ret a.
#[global] Instance outcome_bind : MBind outcome := fun A B k m =>
  match m with Ret a => k a | Raise e => Raise e end.

(** [int(s, 0)] / [int(s)] as a raising computation. *)
Definition int0 (s : string) : outcome Z :=
  match PyStr.py_int true s with Some z => Ret z | None => Raise ValueError end.
Definition int10 (s : string) : outcome Z :=
  match PyStr.py_int false s with Some z => Ret z | None => Raise ValueError end.

(** Insertion-ordered dictionary with string keys. *)
Section Dict.
Context {V : Type}.

Fixpoint dict_get (k : string) (d : list (string * V)) : option V :=
  match d with
  | [] => None
  | (k', v) :: r => if String.eqb k k' then Some v else dict_get k r
  end.

Definition dict_mem (k : string) (d : list (string * V)) : bool :=
  match dict_get k d with Some _ => true | None => false end.

(** [d[k] = v]: update in place, or append a new key at the end. *)
Fixpoint dict_set (k : string) (v : V) (d : list (string * V))
    : list (string * V) :=
  match d with
  | [] => [(k, v)]
  | (k', v') :: r =>
      if String.eqb k k' then (k, v) :: r else (k', v') :: dict_set k v r
  end.
End Dict.

(* ================================================================== *)
(** * Opcode catalog *)
(* ================================================================== *)

(** One entry of [ISA_GROUPS]; a field is [(start, width)]. *)
Record opspec : Type := {
  name   : string;
  base   : Z;
  mask   : Z;
  form   : string;
  desc   : string;
  fields : list (string * (Z * Z))
}.

(** The group "DataProcReg": the eight three-register entries share one
    field layout and one mask. *)
Definition dataproc_reg_fields : list (string * (Z * Z)) :=
  [("Rd", (0, 5)); ("Rn", (5, 5)); ("Rm", (16, 5));
   ("imm6", (10, 6)); ("shift", (22, 2)); ("sf", (31, 1))].

Definition dataproc_reg (n : string) (b : Z) (d : string) : opspec :=
  {| name := n; base := b; mask := 0x7FE00000; form := "register";
     desc := d; fields := dataproc_reg_fields |}.

Definition spec_ADD  := dataproc_reg "ADD"  0x0B000000
  "ADD (register): Rd = Rn + Rm [+ optional shift]".
Definition spec_ADDS := dataproc_reg "ADDS" 0x2B000000
  "ADDS (register, set flags): Rd = Rn + Rm, update PSTATE".
Definition spec_SUB  := dataproc_reg "SUB"  0x4B000000
  "SUB (register): Rd = Rn - Rm [+ optional shift]".
Definition spec_SUBS := dataproc_reg "SUBS" 0x6B000000
  "SUBS (register, set flags): Rd = Rn - Rm, update PSTATE".
Definition spec_AND  := dataproc_reg "AND"  0x0A000000
  "AND (register): Rd = Rn & Rm".
Definition spec_ORR  := dataproc_reg "ORR"  0x2A000000
  "ORR (register): Rd = Rn | Rm".
Definition spec_EOR  := dataproc_reg "EOR"  0x4A000000
  "EOR (register): Rd = Rn ^ Rm".
Definition spec_ANDS := dataproc_reg "ANDS" 0x6A000000
  "ANDS (register, set flags): Rd = Rn & Rm, update PSTATE".

(** The four shift entries of "DataProcReg". *)
Definition spec_LSL : opspec :=
  {| name := "LSL"; base := 0x1AC02000; mask := 0x7FE0FC00;
     form := "register";
     desc := "LSL (register): Rd = Rn << Rm";
     fields := [("Rd", (0, 5)); ("Rn", (5, 5)); ("Rm", (16, 5));
                ("sf", (31, 1))] |}.

Definition spec_LSR : opspec :=
  {| name := "LSR"; base := 0x1AC02400; mask := 0x7FE0FC00;
     form := "register";
     desc := "LSR (register): Rd = Rn >> Rm";
     fields := [("Rd", (0, 5)); ("Rn", (5, 5)); ("Rm", (16, 5));
                ("sf", (31, 1))] |}.

Definition spec_ASR : opspec :=
  {| name := "ASR"; base := 0x1AC02800; mask := 0x7FE0FC00;
     form := "register";
     desc := "ASR (register): Rd = Rn >> Rm (arithmetic)";
     fields := [("Rd", (0, 5)); ("Rn", (5, 5)); ("Rm", (16, 5));
                ("sf", (31, 1))] |}.

Definition spec_ROR : opspec :=
  {| name := "ROR"; base := 0x1AC02C00; mask := 0x7FE0FC00;
     form := "register";
     desc := "ROR (register): Rd = ROR(Rn, Rm)";
     fields := [("Rd", (0, 5)); ("Rn", (5, 5)); ("Rm", (16, 5));
                ("sf", (31, 1))] |}.

(** The group "DataProcImm". *)
Definition addsub_imm_fields : list (string * (Z * Z)) :=
  [("Rd", (0, 5)); ("Rn", (5, 5)); ("imm12", (10, 12));
   ("shift", (22, 1)); ("sf", (31, 1))].

Definition spec_ADDI : opspec :=
  {| name := "ADDI"; base := 0x11000000; mask := 0x7F800000;
     form := "immediate";
     desc := "ADD (immediate): Rd = Rn + imm12";
     fields := addsub_imm_fields |}.

Definition spec_SUBI : opspec :=
  {| name := "SUBI"; base := 0x51000000; mask := 0x7F800000;
     form := "immediate";
     desc := "SUB (immediate): Rd = Rn - imm12";
     fields := addsub_imm_fields |}.

Definition spec_ANDI : opspec :=
  {| name := "ANDI"; base := 0x12000000; mask := 0x7F800000;
     form := "immediate_logical";
     desc := "AND (immediate): Rd = Rn & imm (bitmask immediate)";
     fields := [("Rd", (0, 5)); ("Rn", (5, 5)); ("immr", (16, 6));
                ("imms", (10, 6)); ("N", (22, 1)); ("sf", (31, 1))] |}.

Definition spec_ORRI : opspec :=
  {| name := "ORRI"; base := 0x32000000; mask := 0x7F800000;
     form := "immediate_logical";
     desc := "ORR (immediate): Rd = Rn | imm (bitmask immediate)";
     fields := [("Rd", (0, 5)); ("Rn", (5, 5)); ("immr", (16, 6));
                ("imms", (10, 6)); ("N", (22, 1)); ("sf", (31, 1))] |}.

Definition spec_EORI : opspec :=
  {| name := "EORI"; base := 0x52000000; mask := 0x7F800000;
     form := "immediate_logical";
     desc := "EOR (immediate): Rd = Rn ^ imm (bitmask immediate)";
     fields := [("Rd", (0, 5)); ("Rn", (5, 5)); ("immr", (16, 6));
                ("imms", (10, 6)); ("N", (22, 1)); ("sf", (31, 1))] |}.

Definition spec_MOVZ : opspec :=
  {| name := "MOVZ"; base := 0x52800000; mask := 0x7F800000;
     form := "immediate_wide";
     desc := "MOVZ: Rd = imm16 << (hw*16), zero elsewhere";
     fields := [("Rd", (0, 5)); ("imm16", (5, 16)); ("hw", (21, 2));
                ("sf", (31, 1))] |}.

Definition spec_MOVK : opspec :=
  {| name := "MOVK"; base := 0x72800000; mask := 0x7F800000;
     form := "immediate_wide";
     desc := "MOVK: Rd = Rd with imm16 << (hw*16) inserted";
     fields := [("Rd", (0, 5)); ("imm16", (5, 16)); ("hw", (21, 2));
                ("sf", (31, 1))] |}.

Definition spec_ADRP : opspec :=
  {| name := "ADRP"; base := 0x90000000; mask := 0x9F000000;
     form := "pc_rel";
     desc := "ADRP: Rd = PC page base + sign_extend(immhi:immlo:Zeros(12))";
     fields := [("Rd", (0, 5)); ("immlo", (29, 2)); ("immhi", (5, 19))] |}.

(** The group "LoadStore". *)
Definition spec_LDR : opspec :=
  {| name := "LDR"; base := 0xB9400000; mask := 0xFFC00000;
     form := "loadstore_imm_unsigned";
     desc := "LDR (unsigned offset): Rt = [Rn + imm12<<scale]";
     fields := [("Rt", (0, 5)); ("Rn", (5, 5)); ("imm12", (10, 12));
                ("size", (30, 2))] |}.

Definition spec_STR : opspec :=
  {| name := "STR"; base := 0xB9000000; mask := 0xFFC00000;
     form := "loadstore_imm_unsigned";
     desc := "STR (unsigned offset): [Rn + imm12<<scale] = Rt";
     fields := [("Rt", (0, 5)); ("Rn", (5, 5)); ("imm12", (10, 12));
                ("size", (30, 2))] |}.

Definition spec_LDRB : opspec :=
  {| name := "LDRB"; base := 0x39400000; mask := 0xFFC00000;
     form := "loadstore_imm_unsigned";
     desc := "LDRB: Load byte (zero extended)";
     fields := [("Rt", (0, 5)); ("Rn", (5, 5)); ("imm12", (10, 12))] |}.

Definition spec_STRB : opspec :=
  {| name := "STRB"; base := 0x39000000; mask := 0xFFC00000;
     form := "loadstore_imm_unsigned";
     desc := "STRB: Store byte";
     fields := [("Rt", (0, 5)); ("Rn", (5, 5)); ("imm12", (10, 12))] |}.

Definition spec_LDRH : opspec :=
  {| name := "LDRH"; base := 0x79400000; mask := 0xFFC00000;
     form := "loadstore_imm_unsigned";
     desc := "LDRH: Load halfword (zero extended)";
     fields := [("Rt", (0, 5)); ("Rn", (5, 5)); ("imm12", (10, 12))] |}.

Definition spec_STRH : opspec :=
  {| name := "STRH"; base := 0x79000000; mask := 0xFFC00000;
     form := "loadstore_imm_unsigned";
     desc := "STRH: Store halfword";
     fields := [("Rt", (0, 5)); ("Rn", (5, 5)); ("imm12", (10, 12))] |}.

Definition spec_LDP : opspec :=
  {| name := "LDP"; base := 0xA9400000; mask := 0x7F800000;
     form := "loadstore_pair_offset";
     desc := "LDP: Load pair (Rt,Rt2) from [Rn + imm7<<scale]";
     fields := [("Rt", (0, 5)); ("Rn", (5, 5)); ("Rt2", (10, 5));
                ("imm7", (15, 7)); ("L", (22, 1)); ("V", (26, 1))] |}.

Definition spec_STP : opspec :=
  {| name := "STP"; base := 0xA9000000; mask := 0x7F800000;
     form := "loadstore_pair_offset";
     desc := "STP: Store pair (Rt,Rt2) to [Rn + imm7<<scale]";
     fields := [("Rt", (0, 5)); ("Rn", (5, 5)); ("Rt2", (10, 5));
                ("imm7", (15, 7)); ("L", (22, 1)); ("V", (26, 1))] |}.

Definition spec_LDUR : opspec :=
  {| name := "LDUR"; base := 0xB8400000; mask := 0xFFE00C00;
     form := "loadstore_imm_unscaled";
     desc := "LDUR: Load with unscaled offset";
     fields := [("Rt", (0, 5)); ("Rn", (5, 5)); ("imm9", (12, 9));
                ("size", (30, 2))] |}.

Definition spec_STUR : opspec :=
  {| name := "STUR"; base := 0xB8000000; mask := 0xFFE00C00;
     form := "loadstore_imm_unscaled";
     desc := "STUR: Store with unscaled offset";
     fields := [("Rt", (0, 5)); ("Rn", (5, 5)); ("imm9", (12, 9));
                ("size", (30, 2))] |}.

(** The group "Branch". *)
Definition spec_B : opspec :=
  {| name := "B"; base := 0x14000000; mask := 0xFC000000;
     form := "branch_imm";
     desc := "B: Unconditional branch (PC-relative)";
     fields := [("imm26", (0, 26))] |}.

Definition spec_BL : opspec :=
  {| name := "BL"; base := 0x94000000; mask := 0xFC000000;
     form := "branch_imm";
     desc := "BL: Branch with link (call)";
     fields := [("imm26", (0, 26))] |}.

Definition spec_B_COND : opspec :=
  {| name := "B.COND"; base := 0x54000000; mask := 0xFF000010;
     form := "branch_cond";
     desc := "B.cond: conditional branch to signed imm19 if cond holds";
     fields := [("cond", (0, 4)); ("imm19", (5, 19))] |}.

Definition spec_BR : opspec :=
  {| name := "BR"; base := 0xD61F0000; mask := 0xFFFFFC1F;
     form := "branch_reg";
     desc := "BR: Branch to register";
     fields := [("Rn", (5, 5))] |}.

Definition spec_BLR : opspec :=
  {| name := "BLR"; base := 0xD63F0000; mask := 0xFFFFFC1F;
     form := "branch_reg";
     desc := "BLR: Branch with link to register";
     fields := [("Rn", (5, 5))] |}.

Definition spec_RET : opspec :=
  {| name := "RET"; base := 0xD65F0000; mask := 0xFFFFFC1F;
     form := "branch_reg";
     desc := "RET: Return from subroutine";
     fields := [("Rn", (5, 5))] |}.

Definition spec_CBZ : opspec :=
  {| name := "CBZ"; base := 0x34000000; mask := 0x7F000000;
     form := "cmp_branch";
     desc := "CBZ: if Rt == 0 then branch (PC-relative imm19)";
     fields := [("Rt", (0, 5)); ("imm19", (5, 19)); ("sf", (31, 1))] |}.

Definition spec_CBNZ : opspec :=
  {| name := "CBNZ"; base := 0x35000000; mask := 0x7F000000;
     form := "cmp_branch";
     desc := "CBNZ: if Rt != 0 then branch";
     fields := [("Rt", (0, 5)); ("imm19", (5, 19)); ("sf", (31, 1))] |}.

(** The group "System". *)
Definition spec_NOP : opspec :=
  {| name := "NOP"; base := 0xD503201F; mask := 0xFFFFFFFF;
     form := "hint";
     desc := "NOP: architectural no-op / hint";
     fields := [] |}.

Definition spec_SVC : opspec :=
  {| name := "SVC"; base := 0xD4000001; mask := 0xFFE0001F;
     form := "exception";
     desc := "SVC #imm16: supervisor call (trap into kernel)";
     fields := [("imm16", (5, 16))] |}.

Definition spec_MRS : opspec :=
  {| name := "MRS"; base := 0xD5300000; mask := 0xFFF00000;
     form := "system";
     desc := "MRS: Move system register to general-purpose";
     fields := [("Rt", (0, 5)); ("op1", (16, 3)); ("CRn", (12, 4));
                ("CRm", (8, 4)); ("op2", (5, 3))] |}.

Definition spec_MSR : opspec :=
  {| name := "MSR"; base := 0xD5100000; mask := 0xFFF00000;
     form := "system";
     desc := "MSR: Move general-purpose to system register or PSTATE field";
     fields := [("Rt", (0, 5)); ("op1", (16, 3)); ("CRn", (12, 4));
                ("CRm", (8, 4)); ("op2", (5, 3))] |}.

(** The group "ARMv8.3_PAC". *)
Definition spec_PACIA : opspec :=
  {| name := "PACIA"; base := 0xDAC10800; mask := 0xFFFFE400;
     form := "pac";
     desc :=
       "PACIA: Pointer Authentication Code for Instruction Address (A key)";
     fields := [("Rd", (0, 5)); ("Rn", (5, 5)); ("Z", (10, 1))] |}.

Definition spec_AUTIA : opspec :=
  {| name := "AUTIA"; base := 0xDAC10C00; mask := 0xFFFFE400;
     form := "pac";
     desc := "AUTIA: Authenticate Instruction Address (A key)";
     fields := [("Rd", (0, 5)); ("Rn", (5, 5)); ("Z", (10, 1))] |}.

Definition spec_PACIB : opspec :=
  {| name := "PACIB"; base := 0xDAC10C00; mask := 0xFFFFE400;
     form := "pac";
     desc :=
       "PACIB: Pointer Authentication Code for Instruction Address (B key)";
     fields := [("Rd", (0, 5)); ("Rn", (5, 5)); ("Z", (10, 1))] |}.

Definition spec_AUTIB : opspec :=
  {| name := "AUTIB"; base := 0xDAC11A00; mask := 0xFFFFE400;
     form := "pac";
     desc := "AUTIB: Authenticate Instruction Address (B key)";
     fields := [("Rd", (0, 5)); ("Rn", (5, 5)); ("Z", (10, 1))] |}.

(** The group "ARMv8.5_MTE". *)
Definition spec_LDG : opspec :=
  {| name := "LDG"; base := 0xD9600000; mask := 0xFFE00C00;
     form := "mte_load";
     desc := "LDG: Load Allocation Tag from [Rn + imm9]";
     fields := [("Xt", (0, 5)); ("Rn", (5, 5)); ("imm9", (12, 9))] |}.

Definition spec_STG : opspec :=
  {| name := "STG"; base := 0xD9200000; mask := 0xFFE00C00;
     form := "mte_store";
     desc := "STG: Store Allocation Tag to [Rn + imm9]";
     fields := [("Xt", (0, 5)); ("Rn", (5, 5)); ("imm9", (12, 9))] |}.

Definition spec_STZG : opspec :=
  {| name := "STZG"; base := 0xD9210000; mask := 0xFFE00C00;
     form := "mte_store";
     desc :=
       "STZG: Store Allocation Tag and Zero data granule at [Rn + imm9]";
     fields := [("Xt", (0, 5)); ("Rn", (5, 5)); ("imm9", (12, 9))] |}.

(** [ISA_GROUPS]: the groups in the order of the source, each with its
    entries in order. *)
Definition ISA_GROUPS : list (string * list opspec) :=
  [("DataProcReg",
     [spec_ADD; spec_ADDS; spec_SUB; spec_SUBS; spec_AND; spec_ORR;
      spec_EOR; spec_ANDS; spec_LSL; spec_LSR; spec_ASR; spec_ROR]);
   ("DataProcImm",
     [spec_ADDI; spec_SUBI; spec_ANDI; spec_ORRI; spec_EORI; spec_MOVZ;
      spec_MOVK; spec_ADRP]);
   ("LoadStore",
     [spec_LDR; spec_STR; spec_LDRB; spec_STRB; spec_LDRH; spec_STRH;
      spec_LDP; spec_STP; spec_LDUR; spec_STUR]);
   ("Branch",
     [spec_B; spec_BL; spec_B_COND; spec_BR; spec_BLR; spec_RET; spec_CBZ;
      spec_CBNZ]);
   ("System",
     [spec_NOP; spec_SVC; spec_MRS; spec_MSR]);
   ("ARMv8.3_PAC",
     [spec_PACIA; spec_AUTIA; spec_PACIB; spec_AUTIB]);
   ("ARMv8.5_MTE",
     [spec_LDG; spec_STG; spec_STZG])].

(** All entries, in the order in which the comprehensions of the source
    visit them. *)
Definition catalog : list opspec := flat_map snd ISA_GROUPS.

(** [OPCODE_MAP]: entries keyed by name. *)
Definition OPCODE_MAP : list (string * opspec) :=
  fold_left (fun m e => dict_set (name e) e m) catalog [].

(** [GROUP_MAP]: the group of each entry name. *)
Definition GROUP_MAP : list (string * string) :=
  fold_left
    (fun m '(group_name, entries) =>
       fold_left (fun m e => dict_set (name e) group_name m) entries m)
    ISA_GROUPS [].

(** One entry of [INSTRUCTION_ALIASES]. *)
Record alias : Type := {
  base_op       : string;
  locked_fields : list (string * Z)
}.

Definition INSTRUCTION_ALIASES : list (string * alias) :=
  [("CMP", {| base_op := "SUBS"; locked_fields := [("Rd", 31)] |});
   ("CMN", {| base_op := "ADDS"; locked_fields := [("Rd", 31)] |});
   ("TST", {| base_op := "ANDS"; locked_fields := [("Rd", 31)] |})].

(** Every field window of a descriptor starts at a non-negative bit and has
    a non-negative width (so that no shift count is negative). *)
Definition wf_fields (fs : list (string * (Z * Z))) : Prop :=
  Forall (fun '(_, (start, width)) => 0 <= start /\ 0 <= width) fs.

(* ================================================================== *)
(** * Bit-field codec *)
(* ================================================================== *)

(** Printed warnings and notices. *)
Inductive diag : Type :=
  | WarnLockExceedsRange (fname : string) (locked_val width : Z)
      (* iterate_field_space: "Field .. lock value .. exceeds ..-bit range.
         Clamping." *)
  | WarnLockExceedsWidth (fname : string) (lock_val : Z)
      (* assemble_value: "Lock for field .. (..) exceeds width. Clamping." *)
  | NoteNoValidFields
      (* iterate_field_space: "No valid fields to iterate over." *)
  | WarnInvalidVary (opname : string)
      (* explore_opcode: "Ignoring invalid --vary fields for .." *)
  | WarnNothingToVary (opname : string)
      (* explore_opcode: "No valid fields specified to vary for .." *)
  | NoteNoVariations.
      (* explore_opcode: "No variations generated with current settings." *)

(** The two statements
      [val &= ~(mask << start)]  [val |= (value & mask) << start]
    with [mask = (1 << width) - 1]. *)
Definition write_field (val start width value : Z) : Z :=
  let mask := Z.shiftl 1 width - 1 in
  Z.lor (Z.land val (Z.lnot (Z.shiftl mask start)))
        (Z.shiftl (Z.land value mask) start).

(** First loop of [assemble_value]: the varied values. *)
Definition apply_combo (fields : list (string * (Z * Z)))
    (combo_map : list (string * Z)) (val : Z) : Z :=
  fold_left
    (fun val '(fname, value) =>
       match dict_get fname fields with
       | Some (start, width) => write_field val start width value
       | None => val
       end)
    combo_map val.

(** Second loop of [assemble_value]: locks of the fields not varied. *)
Definition apply_locks (fields : list (string * (Z * Z)))
    (combo_map : list (string * Z)) (locks : gmap string Z)
    (st : list diag * Z) : list diag * Z :=
  fold_left
    (fun '(out, val) '(fname, (start, width)) =>
       if dict_mem fname combo_map then (out, val)
       else match locks !! fname with
            | Some lock_val =>
                let out' :=
                  if lock_val >=? Z.shiftl 1 width
                  then out ++ [WarnLockExceedsWidth fname lock_val]
                  else out in
                (out', write_field val start width lock_val)
            | None => (out, val)
            end)
    fields st.

(** [assemble_value(spec, combo_map, locks)]: the warnings printed and the
    value returned. *)
Definition assemble_value (spec : opspec) (combo_map : list (string * Z))
    (locks : gmap string Z) : list diag * Z :=
  let val := apply_combo (fields spec) combo_map (base spec) in
  apply_locks (fields spec) combo_map locks ([], val).

(** [(v >> i) & 1] *)
Definition bit (v i : Z) : Z := Z.land (Z.shiftr v i) 1.

(** How [colorize_bits] prints one bit: plain, bold yellow or bold red. *)
Inductive color : Type :=
  | Normal   (* the bit equals the base bit: a match *)
  | Yellow   (* differs from base at a position the mask leaves free:
                a legal variation *)
  | Red.     (* differs from base at a position the mask fixes:
                a violation *)

(** Body of the loop of [colorize_bits] at bit [i]. *)
Definition colorize_bit (base mask val i : Z) : color * Z :=
  let vbit := bit val i in
  let bbit := bit base i in
  let fixed := bit mask i in
  if negb (fixed =? 0) && negb (vbit =? bbit) then (Red, vbit)
  else if (fixed =? 0) && negb (vbit =? bbit) then (Yellow, vbit)
  else (Normal, vbit).

(** [range(31, -1, -1)] *)
Definition bit_indices : list Z := map (fun k => 31 - Z.of_nat k) (seq 0 32).

Definition colorize_tokens (base mask val : Z) : list (color * Z) :=
  map (colorize_bit base mask val) bit_indices.

Definition esc : string := String (ascii_of_N 27) EmptyString.

Definition render_bit (t : color * Z) : string :=
  let d := if snd t =? 0 then "0" else "1" in
  match fst t with
  | Red => esc +:+ "[1;31m" +:+ d +:+ esc +:+ "[0m"
  | Yellow => esc +:+ "[1;33m" +:+ d +:+ esc +:+ "[0m"
  | Normal => d
  end.

(** [colorize_bits(base, mask, val)] *)
Definition colorize_bits (base mask val : Z) : string :=
  fold_right String.append EmptyString
    (map render_bit (colorize_tokens base mask val)).

(* ================================================================== *)
(** * Field-space enumerator *)
(* ================================================================== *)

(** [range(0, stop, step)] as a list; [range] raises on a zero step. *)
Definition py_range0 (stop step : Z) : outcome (list Z) :=
  if step =? 0 then Raise ValueError
  else
    let n := if 0 <? step then (stop + step - 1) / step
             else (stop + step + 1) / step in
    Ret (map (fun k => Z.of_nat k * step) (seq 0 (Z.to_nat n))).

(** [itertools.product] applied to the domains: the rightmost domain advances fastest. *)
Fixpoint product (domains : list (list Z)) : list (list Z) :=
  match domains with
  | [] => [[]]
  | d :: ds => flat_map (fun x => map (cons x) (product ds)) d
  end.

(** [{fname: combo[i] for i, fname in enumerate(order)}] *)
Definition make_combo_map (order : list string) (combo : list Z)
    : list (string * Z) :=
  fold_left (fun m '(fname, v) => dict_set fname v m) (combine order combo) [].

(** The loop of [iterate_field_space] that builds [domains] and [order]. *)
Fixpoint build_domains (fields : list (string * (Z * Z)))
    (vary_fields : list string) (locks : gmap string Z) (step : Z)
    : outcome (list diag * list (list Z) * list string) :=
  match vary_fields with
  | [] => Ret ([], [], [])
  | fname :: rest =>
      match dict_get fname fields with
      | Some (start, width) =>
          let max_val := Z.shiftl 1 width in
          '(out, dom) ←
            match locks !! fname with
            | Some locked_val =>
                Ret (if locked_val >=? max_val
                     then [WarnLockExceedsRange fname locked_val width]
                     else [],
                     [Z.land locked_val (max_val - 1)])
            | None =>
                let small := width <=? 2 in
                let stride := if small then 1 else step in
                let actual_step :=
                  if max_val >? 0 then Z.min stride max_val else 1 in
                r ← py_range0 max_val actual_step;
                Ret ([], r)
            end;
          '(outs, doms, order) ← build_domains fields rest locks step;
          Ret (out ++ outs, dom :: doms, fname :: order)
      | None => build_domains fields rest locks step
      end
  end.

Definition is_empty_map (m : gmap string Z) : bool := bool_decide (m = ∅).

Definition is_nil {A} (l : list A) : bool :=
  match l with [] => true | _ => false end.

(** [iterate_field_space(fields, vary_fields, locks, step)]: the warnings
    printed and the sequence of maps the generator yields.  The generator
    is consumed lazily by its caller; the list is its complete run. *)
Definition iterate_field_space (fields : list (string * (Z * Z)))
    (vary_fields : list string) (locks : gmap string Z) (step : Z)
    : outcome (list diag * list (list (string * Z))) :=
  '(out, domains, order) ← build_domains fields vary_fields locks step;
  if is_nil vary_fields && negb (is_empty_map locks) then
    Ret (out, [[]])
  else if is_nil domains && negb (is_nil vary_fields) then
    Ret (out ++ [NoteNoValidFields], [])
  else if is_nil domains && is_nil vary_fields && negb (is_nil fields) then
    Ret (out, [[]])
  else
    Ret (out, map (make_combo_map order) (product domains)).

(** The [for] loop of [explore_opcode] over the yielded maps, from a given
    [count]: one line is printed per map, then [count] is incremented and
    compared with [limit].  Returns the warnings and the values printed. *)
Fixpoint explore_loop (spec : opspec) (locks : gmap string Z)
    (combos : list (list (string * Z))) (count limit : Z)
    : list diag * list Z :=
  match combos with
  | [] => ([], [])
  | combo_map :: rest =>
      let '(w, val) := assemble_value spec combo_map locks in
      let count := count + 1 in
      if count >=? limit then (w, [val])
      else
        let '(ws, vals) := explore_loop spec locks rest count limit in
        (w ++ ws, val :: vals)
  end.

(** [explore_opcode(opname, spec, cs, limit, step, vary_fields, locks,
    emulator)]: the warnings printed and the assembled values printed, one
    per output line, in order.  [vary_fields] is [[]] for a missing
    [--vary].  The decoded text and the emulator's narrative on each line
    come from the disassembler and do not influence what is counted. *)
Definition explore_opcode (opname : string) (spec : opspec) (limit step : Z)
    (vary_fields : list string) (locks : gmap string Z)
    : outcome (list diag * list Z) :=
  let fields := fields spec in
  let '(out0, vary_fields, limit) :=
    if is_nil vary_fields then ([], map fst fields, limit)
    else
      let valid_vary_fields :=
        filter (fun f => dict_mem f fields = true) vary_fields in
      let out :=
        if bool_decide (length valid_vary_fields ≠ length vary_fields)
        then [WarnInvalidVary opname] else [] in
      if is_nil valid_vary_fields && negb (is_nil fields)
      then (out ++ [WarnNothingToVary opname], valid_vary_fields, 1)
      else (out, valid_vary_fields, limit) in
  if is_nil fields then
    Ret (out0, [base spec])
  else if is_nil vary_fields && (limit >? 0) then
    let '(w, val) := assemble_value spec [] locks in
    Ret (out0 ++ w, [val])
  else
    '(w, combos) ← iterate_field_space fields vary_fields locks step;
    let '(ws, vals) := explore_loop spec locks combos 0 limit in
    let tail_note :=
      if is_nil vals && (limit >? 0) && negb (is_nil fields)
      then [NoteNoVariations] else [] in
    Ret (out0 ++ w ++ ws ++ tail_note, vals).

(* ================================================================== *)
(** * Alias resolution (in [main]) *)
(* ================================================================== *)

(** [for field, value in alias_spec['locked_fields'].items():
       if field not in locks: locks[field] = value] *)
Definition merge_alias_locks (locked : list (string * Z))
    (locks : gmap string Z) : gmap string Z :=
  fold_left
    (fun locks '(field, value) =>
       match locks !! field with
       | Some _ => locks
       | None => <[field := value]> locks
       end)
    locked locks.

(** The alias step of [main]: [opname = args.opcode.upper()], then the
    rewrite to the base opcode with the alias locks merged in. *)
Definition resolve_alias (opcode : string) (locks : gmap string Z)
    : string * gmap string Z :=
  let opname := PyStr.upper opcode in
  match dict_get opname INSTRUCTION_ALIASES with
  | Some alias_spec =>
      (base_op alias_spec,
       merge_alias_locks (locked_fields alias_spec) locks)
  | None => (opname, locks)
  end.

(* ================================================================== *)
(** * Emulator *)
(* ================================================================== *)

Definition MASK64 : Z := 0xFFFFFFFFFFFFFFFF.
Definition MASK32 : Z := 0xFFFFFFFF.

(** [str(i)] for a natural number. *)
Definition str_of_nat (i : nat) : string :=
  DecimalString.NilZero.string_of_uint (Nat.to_uint i).

(** [Emulator.__init__]: [X0]..[X30] and [SP], all zero. *)
Definition init_regs : gmap string Z :=
  <["SP" := 0]>
    (list_to_map (map (fun i => ("X" +:+ str_of_nat i, 0)) (seq 0 31))).

(** [self.regs.get(k, 0)] *)
Definition regs_get (regs : gmap string Z) (k : string) : Z :=
  default 0 (regs !! k).

(** [Emulator.get_reg] *)
Definition get_reg (regs : gmap string Z) (reg_name : string) : Z :=
  let reg_name := PyStr.upper reg_name in
  if String.eqb reg_name "XZR" then 0
  else if String.eqb reg_name "WZR" then 0
  else if PyStr.startswith "X" reg_name then regs_get regs reg_name
  else if PyStr.startswith "W" reg_name then
    let reg_num := PyStr.tail reg_name in
    let x_reg := "X" +:+ reg_num in
    Z.land (regs_get regs x_reg) MASK32
  else if String.eqb reg_name "SP" then regs_get regs "SP"
  else 0.

(** [Emulator.set_reg]: returns the register file after the call. *)
Definition set_reg (regs : gmap string Z) (reg_name : string) (value : Z)
    : gmap string Z :=
  let reg_name := PyStr.upper reg_name in
  let value := Z.land value MASK64 in
  if String.eqb reg_name "XZR" || String.eqb reg_name "WZR" then regs
  else if PyStr.startswith "X" reg_name then <[reg_name := value]> regs
  else if PyStr.startswith "W" reg_name then
    let reg_num := PyStr.tail reg_name in
    let x_reg := "X" +:+ reg_num in
    <[x_reg := Z.land value MASK32]> regs
  else if String.eqb reg_name "SP" then <["SP" := value]> regs
  else regs.

(** [a, b = parts] and [a, b, c = parts] *)
Definition unpack2 (parts : list string) : outcome (string * string) :=
  match parts with [a; b] => Ret (a, b) | _ => Raise ValueError end.
Definition unpack3 (parts : list string)
    : outcome (string * string * string) :=
  match parts with [a; b; c] => Ret (a, b, c) | _ => Raise ValueError end.

(** [[p.strip() for p in op_str.split(',')]] *)
Definition op_parts (op_str : string) : list string :=
  map PyStr.strip (PyStr.split "," op_str).

(** The narrative of a three-operand instruction,
    [f"; {rd} = {rn} {sym} {c} = {a:#x} {sym} {b:#x} = {result:#x}"]. *)
Definition narrate3 (rd rn sym c : string) (a b result : Z) : string :=
  "; " +:+ rd +:+ " = " +:+ rn +:+ " " +:+ sym +:+ " " +:+ c +:+ " = "
  +:+ PyStr.fmt_hex a +:+ " " +:+ sym +:+ " " +:+ PyStr.fmt_hex b
  +:+ " = " +:+ PyStr.fmt_hex result.

(** The body of the [try] block of [Emulator.execute]: the register file
    and the narrative it reaches, or the exception it raises.  Every
    exception is raised before the register file is written. *)
Definition execute_body (regs : gmap string Z) (mnemonic op_str : string)
    : outcome (gmap string Z * string) :=
  let mnemonic := PyStr.upper mnemonic in
  let op_str_parts := op_parts op_str in
  let hash := PyStr.contains "#" op_str in
  let n := length op_str_parts in
  if String.eqb mnemonic "ADD" && hash then
    '(rd, rn, imm_str) ← unpack3 op_str_parts;
    imm_val ← int0 (PyStr.remove "#" imm_str);
    let rn_val := get_reg regs rn in
    let result := Z.land (rn_val + imm_val) MASK64 in
    Ret (set_reg regs rd result,
         narrate3 rd rn "+" imm_str rn_val imm_val result)
  else if String.eqb mnemonic "ADD" && Nat.eqb n 3 then
    '(rd, rn, rm) ← unpack3 op_str_parts;
    let rn_val := get_reg regs rn in
    let rm_val := get_reg regs rm in
    let result := Z.land (rn_val + rm_val) MASK64 in
    Ret (set_reg regs rd result,
         narrate3 rd rn "+" rm rn_val rm_val result)
  else if String.eqb mnemonic "SUB" && hash then
    '(rd, rn, imm_str) ← unpack3 op_str_parts;
    imm_val ← int0 (PyStr.remove "#" imm_str);
    let rn_val := get_reg regs rn in
    let result := Z.land (rn_val - imm_val) MASK64 in
    Ret (set_reg regs rd result,
         narrate3 rd rn "-" imm_str rn_val imm_val result)
  else if String.eqb mnemonic "SUB" && Nat.eqb n 3 then
    '(rd, rn, rm) ← unpack3 op_str_parts;
    let rn_val := get_reg regs rn in
    let rm_val := get_reg regs rm in
    let result := Z.land (rn_val - rm_val) MASK64 in
    Ret (set_reg regs rd result,
         narrate3 rd rn "-" rm rn_val rm_val result)
  else if String.eqb mnemonic "MOV" && hash then
    '(rd, imm_str) ← unpack2 op_str_parts;
    imm_val ← int0 (PyStr.remove "#" imm_str);
    if (0 <=? imm_val) && (imm_val <=? 0xFFFF) then
      Ret (set_reg regs rd imm_val,
           "; " +:+ rd +:+ " = " +:+ PyStr.fmt_hex imm_val)
    else
      Ret (regs,
           "; " +:+ rd +:+ " = " +:+ PyStr.fmt_hex imm_val
           +:+ " (complex immediate)")
  else if String.eqb mnemonic "MOV" && Nat.eqb n 2 then
    '(rd, rn) ← unpack2 op_str_parts;
    let rn_val := get_reg regs rn in
    Ret (set_reg regs rd rn_val,
         "; " +:+ rd +:+ " = " +:+ rn +:+ " = " +:+ PyStr.fmt_hex rn_val)
  else if String.eqb mnemonic "AND" && negb hash then
    '(rd, rn, rm) ← unpack3 op_str_parts;
    let rn_val := get_reg regs rn in
    let rm_val := get_reg regs rm in
    let result := Z.land rn_val rm_val in
    Ret (set_reg regs rd result,
         narrate3 rd rn "&" rm rn_val rm_val result)
  else if String.eqb mnemonic "ORR" && negb hash then
    '(rd, rn, rm) ← unpack3 op_str_parts;
    let rn_val := get_reg regs rn in
    let rm_val := get_reg regs rm in
    let result := Z.lor rn_val rm_val in
    Ret (set_reg regs rd result,
         narrate3 rd rn "|" rm rn_val rm_val result)
  else if String.eqb mnemonic "EOR" && negb hash then
    '(rd, rn, rm) ← unpack3 op_str_parts;
    let rn_val := get_reg regs rn in
    let rm_val := get_reg regs rm in
    let result := Z.lxor rn_val rm_val in
    Ret (set_reg regs rd result,
         narrate3 rd rn "^" rm rn_val rm_val result)
  else Ret (regs, "").

(** [Emulator.execute(mnemonic, op_str)]: the register file after the call
    and the string returned; [except Exception: return ""]. *)
Definition execute (regs : gmap string Z) (mnemonic op_str : string)
    : gmap string Z * string :=
  match execute_body regs mnemonic op_str with
  | Ret r => r
  | Raise _ => (regs, "")
  end.

(** The dispatch conditions of [execute]: some branch of the [if]/[elif]
    chain is entered. *)
Definition recognized (mnemonic op_str : string) : bool :=
  let mnemonic := PyStr.upper mnemonic in
  let hash := PyStr.contains "#" op_str in
  let n := length (op_parts op_str) in
  (String.eqb mnemonic "ADD" && (hash || Nat.eqb n 3))
  || (String.eqb mnemonic "SUB" && (hash || Nat.eqb n 3))
  || (String.eqb mnemonic "MOV" && (hash || Nat.eqb n 2))
  || ((String.eqb mnemonic "AND" || String.eqb mnemonic "ORR"
       || String.eqb mnemonic "EOR") && negb hash).

(* ================================================================== *)
(** * Text assembler *)
(* ================================================================== *)

(** The four patterns of [asm_to_hex], matched with [re.match] (anchored at
    the start only, no flags).  In each pattern the text that follows a
    repetition or an optional item starts with a character that the item
    cannot match, so the greedy choice is the only one that can succeed
    and no backtracking into a repetition has to be modelled; the
    alternatives of a group are tried in order. *)
Module Re.

(** A literal: the rest of [s] after the prefix [p]. *)
Fixpoint lit (p s : string) : option string :=
  match p, s with
  | EmptyString, _ => Some s
  | String a p', String b s' => if Ascii.eqb a b then lit p' s' else None
  | String _ _, EmptyString => None
  end.

(** [cls+] : the longest non-empty run, and the rest. *)
Definition plus (cls : ascii -> bool) (s : string) : option (string * string) :=
  match PyStr.span cls s with
  | (EmptyString, _) => None
  | r => Some r
  end.

(** [\s+] and [\s*]: the rest after the white space. *)
Definition spaces1 (s : string) : option string :=
  snd <$> plus PyStr.isspace s.
Definition spaces0 (s : string) : string := snd (PyStr.span PyStr.isspace s).

(** [[WX]\d+] *)
Definition wx_num (s : string) : option (string * string) :=
  match s with
  | String c r =>
      if PyStr.is_one_of "WX" c then
        '(d, rest) ← plus PyStr.isdigit r; Some (String c d, rest)
      else None
  | EmptyString => None
  end.

(** A literal alternative of a group. *)
Definition word (w s : string) : option (string * string) :=
  rest ← lit w s; Some (w, rest).

Definition orelse {A} (a b : option A) : option A :=
  match a with Some _ => a | None => b end.

(** [([WX]\d+|SP)] *)
Definition reg_or_sp (s : string) : option (string * string) :=
  orelse (wx_num s) (word "SP" s).

(** [([WX]\d+|XZR|WZR|SP)] *)
Definition reg_zr_or_sp (s : string) : option (string * string) :=
  orelse (wx_num s)
    (orelse (word "XZR" s) (orelse (word "WZR" s) (word "SP" s))).

(** [(0x[0-9A-F]+|\d+)] *)
Definition imm (s : string) : option (string * string) :=
  orelse
    (r ← lit "0x" s;
     '(h, rest) ← plus PyStr.ishexupper r;
     Some ("0x" +:+ h, rest))
    (plus PyStr.isdigit s).

(** [#?(0x[0-9A-F]+|\d+)] *)
Definition hash_imm (s : string) : option (string * string) :=
  orelse (r ← lit "#" s; imm r) (imm s).

(** [OP\s+([WX]\d+|SP),\s*([WX]\d+|SP),\s*#?(0x[0-9A-F]+|\d+)] for
    [OP] = [ADD] or [SUB]: the three groups. *)
Definition add_sub_imm (op s : string) : option (string * string * string) :=
  s ← lit op s;
  s ← spaces1 s;
  '(g1, s) ← reg_or_sp s;
  s ← lit "," s;
  '(g2, s) ← reg_or_sp (spaces0 s);
  s ← lit "," s;
  '(g3, _) ← hash_imm (spaces0 s);
  Some (g1, g2, g3).

(** [MOV\s+([WX])(\d+),\s*#?(0x[0-9A-F]+|\d+)] *)
Definition mov_imm (s : string) : option (string * string * string) :=
  s ← lit "MOV" s;
  s ← spaces1 s;
  match s with
  | String c s =>
      if PyStr.is_one_of "WX" c then
        '(g2, s) ← plus PyStr.isdigit s;
        s ← lit "," s;
        '(g3, _) ← hash_imm (spaces0 s);
        Some (String c EmptyString, g2, g3)
      else None
  | EmptyString => None
  end.

(** [MOV\s+([WX]\d+|SP),\s*([WX]\d+|XZR|WZR|SP)] *)
Definition mov_reg (s : string) : option (string * string) :=
  s ← lit "MOV" s;
  s ← spaces1 s;
  '(g1, s) ← reg_or_sp s;
  s ← lit "," s;
  '(g2, _) ← reg_zr_or_sp (spaces0 s);
  Some (g1, g2).

End Re.

(** The error results (a dict with the key ['error']). *)
Inductive asm_error : Type :=
  | ErrRegister
      (* str(e) of the ValueError caught around _parse_register *)
  | ErrSizeMismatch (op : string)
      (* "Register size mismatch in {op}" *)
  | ErrSpNeeds64 (op : string)
      (* "{op} with SP requires 64-bit destination (X register or SP)" *)
  | ErrImmRange (op : string)
      (* "Invalid {op} immediate. Must be 0-4095 or a multiple of 4096 up
         to 0xffffff" *)
  | ErrMovImm (imm_val : Z)
      (* "Cannot encode immediate {imm_val:#x} with simple MOVZ. Need
         MOVN/MOVK logic." *)
  | ErrNotSupported (asm_text : string)
      (* "Assembly pattern not yet supported: '{asm_text}'" *)
  | ErrParsingFailed (asm_text : string) (e : exn).
      (* "Assembly parsing failed for '{asm_text}': {str(e)}" *)

(** A successful conversion (the keys ['hex'], ['bytes_le'], ['bytes_be'];
    ['asm'] comes from the disassembler). *)
Record conversion : Type := {
  hex      : string;
  bytes_le : string;
  bytes_be : string
}.

Inductive result : Type :=
  | Ok (c : conversion)
  | Err (e : asm_error).

(** The text of the range error, [limit = (0xFFF << 12 | 0xFFF)]. *)
Definition imm_range_message (op : string) : string :=
  "Invalid " +:+ op +:+
  " immediate. Must be 0-4095 or a multiple of 4096 up to " +:+
  PyStr.fmt_hex (Z.lor (Z.shiftl 0xFFF 12) 0xFFF).

(** [_parse_register]: [(sf, index)]. *)
Definition _parse_register (reg_str : string) : outcome (Z * Z) :=
  let reg_str := PyStr.upper reg_str in
  if String.eqb reg_str "SP" then Ret (1, 31)
  else if String.eqb reg_str "XZR" || String.eqb reg_str "WZR" then Ret (1, 31)
  else if PyStr.startswith "X" reg_str then
    i ← int10 (PyStr.tail reg_str); Ret (1, i)
  else if PyStr.startswith "W" reg_str then
    i ← int10 (PyStr.tail reg_str); Ret (0, i)
  else Raise ValueError.

(** [f"{b:02X}"] of byte [k] (little-endian index) of [encoding]. *)
Definition byte_hex (encoding : Z) (k : Z) : string :=
  let b := Z.land (Z.shiftr encoding (8 * k)) 0xFF in
  let d := PyStr.hex_digits_upper b in
  PyStr.zeros (2 - String.length d) +:+ d.

(** [_format_result]: [encoding.to_bytes(4, 'little')] raises when the
    value does not fit in four bytes. *)
Definition _format_result (encoding : Z) : outcome result :=
  if (0 <=? encoding) && (encoding <? 2 ^ 32) then
    Ret (Ok {| hex := "0x" +:+ PyStr.fmt_08X encoding;
               bytes_le := byte_hex encoding 0 +:+ byte_hex encoding 1
                           +:+ byte_hex encoding 2 +:+ byte_hex encoding 3;
               bytes_be := PyStr.fmt_08X encoding |})
  else Raise OverflowError.

(** The immediate rule of [_encode_add_sub_imm]: the 12-bit value and the
    shift selector, or [None] for the range error. *)
Definition add_sub_immediate (imm_val : Z) : option (Z * Z) :=
  if (0 <=? imm_val) && (imm_val <=? 0xFFF) then Some (imm_val, 0)
  else if (0 <? imm_val) && (imm_val <=? Z.shiftl 0xFFF 12)
          && (imm_val mod Z.shiftl 1 12 =? 0)
  then Some (Z.shiftr imm_val 12, 1)
  else None.

(** [_encode_add_sub_imm(asm_text, op, match)] on the groups of the match. *)
Definition _encode_add_sub_imm (op : string)
    (groups : string * string * string) : outcome result :=
  let '(rd_str, rn_str, imm_str) := groups in
  match (a ← _parse_register rd_str; b ← _parse_register rn_str; Ret (a, b)) with
  | Raise _ => Ret (Err ErrRegister)
  | Ret ((sf_d, rd), (sf_n, rn)) =>
      let rd_sp := String.eqb rd_str "SP" in
      let rn_sp := String.eqb rn_str "SP" in
      if negb rd_sp && negb rn_sp && negb (sf_d =? sf_n) then
        Ret (Err (ErrSizeMismatch op))
      else if (rd_sp || rn_sp) && (sf_d =? 0) then
        Ret (Err (ErrSpNeeds64 op))
      else
        let sf := if PyStr.startswith "X" rd_str || rd_sp then 1 else 0 in
        imm_val ← int0 imm_str;
        match add_sub_immediate imm_val with
        | None => Ret (Err (ErrImmRange op))
        | Some (imm_val, shift) =>
            let base_add := if sf =? 1 then 0x91000000 else 0x11000000 in
            let base_sub := if sf =? 1 then 0xD1000000 else 0x51000000 in
            let base := if String.eqb op "ADD" then base_add else base_sub in
            let encoding :=
              Z.lor (Z.lor (Z.lor (Z.lor base (Z.shiftl shift 22))
                                  (Z.shiftl imm_val 10))
                           (Z.shiftl rn 5))
                    rd in
            _format_result encoding
        end
  end.

(** [_encode_mov_imm] *)
Definition _encode_mov_imm (groups : string * string * string)
    : outcome result :=
  let '(size, rd_str, imm_str) := groups in
  let sf := if String.eqb size "X" then 1 else 0 in
  rd ← int10 rd_str;
  imm_val ← int0 imm_str;
  if (0 <=? imm_val) && (imm_val <=? 0xFFFF) then
    let hw := 0 in
    let imm16 := imm_val in
    let base := if sf =? 1 then 0xD2800000 else 0x52800000 in
    let encoding :=
      Z.lor (Z.lor (Z.lor base (Z.shiftl hw 21)) (Z.shiftl imm16 5)) rd in
    _format_result encoding
  else Ret (Err (ErrMovImm imm_val)).

(** [_encode_mov_reg] *)
Definition _encode_mov_reg (groups : string * string) : outcome result :=
  let '(rd_str, rm_str) := groups in
  match (a ← _parse_register rd_str; b ← _parse_register rm_str; Ret (a, b)) with
  | Raise _ => Ret (Err ErrRegister)
  | Ret ((sf_d, rd), (sf_m, rm)) =>
      let rd_sp := String.eqb rd_str "SP" in
      let rm_sp := String.eqb rm_str "SP" in
      let rm_zr := String.eqb rm_str "XZR" || String.eqb rm_str "WZR" in
      if negb rm_zr && negb rd_sp && negb rm_sp && negb (sf_d =? sf_m) then
        Ret (Err (ErrSizeMismatch "MOV"))
      else
        let sf :=
          if PyStr.startswith "X" rd_str || rd_sp
             || PyStr.startswith "X" rm_str || rm_sp then 1 else 0 in
        let rn := 31 in
        let base := if sf =? 1 then 0xAA000000 else 0x2A000000 in
        let encoding :=
          Z.lor (Z.lor (Z.lor base (Z.shiftl rm 16)) (Z.shiftl rn 5)) rd in
        _format_result encoding
  end.

(** The [try] block of [asm_to_hex]. *)
Definition asm_to_hex_body (asm_text : string) : outcome result :=
  let asm_text_orig := PyStr.strip asm_text in
  let asm_text_upper := PyStr.upper asm_text_orig in
  if String.eqb asm_text_upper "NOP" then _format_result 0xD503201F
  else match Re.add_sub_imm "ADD" asm_text_upper with
  | Some add_match => _encode_add_sub_imm "ADD" add_match
  | None =>
  match Re.add_sub_imm "SUB" asm_text_upper with
  | Some sub_match => _encode_add_sub_imm "SUB" sub_match
  | None =>
  match Re.mov_imm asm_text_upper with
  | Some mov_imm_match => _encode_mov_imm mov_imm_match
  | None =>
  match Re.mov_reg asm_text_upper with
  | Some mov_reg_match => _encode_mov_reg mov_reg_match
  | None => Ret (Err (ErrNotSupported asm_text))
  end end end end.

(** [ARM64InstructionIO.asm_to_hex]: [except Exception] turns every
    exception into an error result. *)
Definition asm_to_hex (asm_text : string) : result :=
  match asm_to_hex_body asm_text with
  | Ret r => r
  | Raise e => Err (ErrParsingFailed asm_text e)
  end.

(** The ['hex'] entry of a result, when it has one. *)
Definition hex_of (r : result) : option string :=
  match r with Ok c => Some (hex c) | Err _ => None end.

(* ================================================================== *)
(** * Definitions used by the statements *)
(* ================================================================== *)

(** What the [try] block of [execute] can do, given whether a branch of
    the chain is entered and the operand parts: nothing (no branch), raise,
    write its result to the first operand, or leave the registers alone
    with a non-empty narrative (the complex-immediate move). *)
Inductive body_shape (regs : gmap string Z) (parts : list string)
    : bool -> outcome (gmap string Z * string) -> Prop :=
  | shape_unrecognized :
      body_shape regs parts false (Ret (regs, ""))
  | shape_raise (e : exn) :
      body_shape regs parts true (Raise e)
  | shape_write (rd : string) (v : Z) (s : string) :
      hd_error parts = Some rd -> s <> "" ->
      body_shape regs parts true (Ret (set_reg regs rd v, s))
  | shape_keep (s : string) :
      s <> "" ->
      body_shape regs parts true (Ret (regs, s)).

(** The instructions [execute] evaluates, read off its two inputs alone:
    the upper-cased mnemonic is one of the six it knows, the operand text
    has as many comma-separated parts as that mnemonic takes, and, when
    the text contains [#], the mnemonic has an immediate form and the last
    part without its [#] is an integer literal.  What the parts name is
    not looked at. *)
Definition operand_count (M : string) : option nat :=
  if String.eqb M "ADD" || String.eqb M "SUB" || String.eqb M "AND"
     || String.eqb M "ORR" || String.eqb M "EOR" then Some 3%nat
  else if String.eqb M "MOV" then Some 2%nat
  else None.

Definition takes_immediate (M : string) : bool :=
  String.eqb M "ADD" || String.eqb M "SUB" || String.eqb M "MOV".

Definition is_int_literal (s : string) : bool :=
  match PyStr.py_int true s with Some _ => true | None => false end.

Definition evaluable (mnemonic op_str : string) : bool :=
  let M := PyStr.upper mnemonic in
  let parts := op_parts op_str in
  match operand_count M with
  | None => false
  | Some n =>
      Nat.eqb (length parts) n
      && (if PyStr.contains "#" op_str
          then takes_immediate M
               && is_int_literal
                    (PyStr.remove "#" (List.last parts EmptyString))
          else true)
  end.

(** The names of the register file: [X0]..[X30], their halves [W0]..[W30],
    [SP] and the two zero registers, in any letter case. *)
Definition register_names : list string :=
  ["SP"; "XZR"; "WZR"]
  ++ map (fun i => "X" +:+ str_of_nat i) (seq 0 31)
  ++ map (fun i => "W" +:+ str_of_nat i) (seq 0 31).

Definition is_register_name (s : string) : bool :=
  existsb (String.eqb (PyStr.upper s)) register_names.

(** The supported shapes as the specification lists them: [ADD]/[SUB] with
    three registers or two registers and an immediate, [MOV] with two
    registers or a register and an immediate, [AND]/[ORR]/[EOR] with three
    registers; a register is a name of the register file and an immediate
    is [#] followed by an integer literal. *)
Definition supported_shape (mnemonic op_str : string) : bool :=
  let M := PyStr.upper mnemonic in
  let parts := op_parts op_str in
  match operand_count M with
  | None => false
  | Some n =>
      Nat.eqb (length parts) n
      && (if PyStr.contains "#" op_str
          then takes_immediate M
               && forallb is_register_name (removelast parts)
               && PyStr.startswith "#" (List.last parts EmptyString)
               && is_int_literal
                    (PyStr.tail (List.last parts EmptyString))
          else forallb is_register_name parts)
  end.




(** The value of a field as [get_field_highlights] reads it,
    [(val & field_mask) >> start] with
    [field_mask = ((1 << width) - 1) << start]. *)
Definition field_value (val start width : Z) : Z :=
  Z.shiftr (Z.land val (Z.shiftl (Z.shiftl 1 width - 1) start)) start.

(* ================================================================== *)
(** * Further functions of [ARMv9.py] *)
(* ================================================================== *)

(** [str(n)] *)
Definition str_Z (n : Z) : string :=
  DecimalString.NilZero.string_of_int (Z.to_int n).

(** ["".join(l)] and [sep.join(l)] *)
Definition concat_str (l : list string) : string :=
  fold_right String.append EmptyString l.

Fixpoint join (sep : string) (l : list string) : string :=
  match l with
  | [] => EmptyString
  | [a] => a
  | a :: r => a +:+ sep +:+ join sep r
  end.

(** The entry [get_binary_pattern] appends for bit [i]. *)
Definition pattern_bit (base mask i : Z) : string :=
  if negb (bit mask i =? 0) then str_Z (bit base i) else "x".

(** [get_binary_pattern(base, mask)]: the 32 entries from bit 31 down to
    bit 0, joined, then cut in groups of four separated by a space. *)
Definition get_binary_pattern (base mask : Z) : string :=
  let out_bits := map (pattern_bit base mask) bit_indices in
  let bitstr := concat_str out_bits in
  join " " (map (fun i => String.substring i 4 bitstr)
                (map (fun k => (4 * k)%nat) (seq 0 8))).

(** The loop of [get_field_highlights]: the fields listed, each with the
    value shown ([val_field_val >> start]). *)
Definition field_highlights (base mask val : Z)
    (fields : list (string * (Z * Z))) : list (string * Z) :=
  flat_map
    (fun '(fname, (start, width)) =>
       let field_mask := Z.shiftl (Z.shiftl 1 width - 1) start in
       if Z.land field_mask mask =? 0 then
         let base_field_val := Z.land base field_mask in
         let val_field_val := Z.land val field_mask in
         if negb (base_field_val =? val_field_val)
         then [(fname, Z.shiftr val_field_val start)]
         else []
       else [])
    fields.

(** [get_field_highlights(base, mask, val, fields)] *)
Definition get_field_highlights (base mask val : Z)
    (fields : list (string * (Z * Z))) : string :=
  join ", "
    (map (fun '(fname, v) => fname +:+ "=0x" +:+ PyStr.hex_digits_upper v)
         (field_highlights base mask val fields)).

(** [spec.split("=", 1)] for a [spec] that contains ["="]. *)
Fixpoint split_once (sep : ascii) (s : string) : string * string :=
  match s with
  | EmptyString => (EmptyString, EmptyString)
  | String c r =>
      if Ascii.eqb c sep then (EmptyString, r)
      else let '(a, b) := split_once sep r in (String c a, b)
  end.

(** One turn of the loop of [parse_locks]. *)
Definition parse_lock (st : list string * gmap string Z) (spec : string)
    : list string * gmap string Z :=
  let '(skipped, locks) := st in
  if PyStr.contains "=" spec then
    let '(k, v) := split_once "=" spec in
    match PyStr.py_int true v with
    | Some n => (skipped, <[k := n]> locks)
    | None => (skipped ++ [spec], locks)
    end
  else (skipped, locks).

(** [parse_locks(lock_list)]: the specs reported as invalid and the lock
    set returned ([lock_list] is [[]] for a missing [--lock]). *)
Definition parse_locks (lock_list : list string)
    : list string * gmap string Z :=
  fold_left parse_lock lock_list ([], ∅).

(** Every field window lies inside the 32-bit word. *)
Definition fields_in_word (fs : list (string * (Z * Z))) : Prop :=
  Forall (fun '(_, (start, width)) =>
            0 <= start /\ 0 <= width /\ start + width <= 32) fs.

(** Fields with different names have disjoint windows. *)
Definition disjoint_fields (fs : list (string * (Z * Z))) : Prop :=
  forall f1 s1 w1 f2 s2 w2,
    In (f1, (s1, w1)) fs -> In (f2, (s2, w2)) fs -> f1 <> f2 ->
    s1 + w1 <= s2 \/ s2 + w2 <= s1.

(** The character [get_binary_pattern] shows for bit [i]. *)
Definition pattern_ascii (base mask i : Z) : ascii :=
  if Z.testbit mask i then (if Z.testbit base i then "1" else "0")%char
  else "x"%char.

(** Number of occurrences of a character in a string ([s.count(c)]). *)
Fixpoint count_char (c : ascii) (s : string) : nat :=
  match s with
  | EmptyString => O
  | String a r => ((if Ascii.eqb a c then 1 else 0) + count_char c r)%nat
  end.

(** Number of elements of a list that satisfy a test. *)
Fixpoint countb {A} (p : A -> bool) (l : list A) : nat :=
  match l with
  | [] => O
  | a :: r => ((if p a then 1 else 0) + countb p r)%nat
  end.

(** The step [iterate_field_space] uses for an unlocked field. *)
Definition actual_step_of (width step : Z) : Z :=
  let max_val := Z.shiftl 1 width in
  if max_val >? 0 then Z.min (if width <=? 2 then 1 else step) max_val else 1.

(** The slot of the register file that [get_reg] reads and [set_reg]
    writes for a register name ([None]: the zero register or a name
    neither function knows). *)
Definition reg_slot (reg_name : string) : option string :=
  let reg_name := PyStr.upper reg_name in
  if String.eqb reg_name "XZR" || String.eqb reg_name "WZR" then None
  else if PyStr.startswith "X" reg_name then Some reg_name
  else if PyStr.startswith "W" reg_name then Some ("X" +:+ PyStr.tail reg_name)
  else if String.eqb reg_name "SP" then Some "SP"
  else None.

(** Running a list of (mnemonic, operands) pairs on one emulator. *)
Definition run (prog : list (string * string)) (regs : gmap string Z)
    : gmap string Z :=
  fold_left (fun r p => fst (execute r (fst p) (snd p))) prog regs.

(** The word [_encode_add_sub_imm] builds. *)
Definition add_sub_imm_pattern (is_add : bool) (sf shift imm12 rn rd : Z)
    : Z :=
  let base_add := if sf =? 1 then 0x91000000 else 0x11000000 in
  let base_sub := if sf =? 1 then 0xD1000000 else 0x51000000 in
  let base := if is_add then base_add else base_sub in
  Z.lor (Z.lor (Z.lor (Z.lor base (Z.shiftl shift 22)) (Z.shiftl imm12 10))
               (Z.shiftl rn 5))
        rd.

(** The word [_encode_mov_imm] builds. *)
Definition mov_imm_pattern (sf imm16 rd : Z) : Z :=
  let base := if sf =? 1 then 0xD2800000 else 0x52800000 in
  Z.lor (Z.lor (Z.lor base (Z.shiftl 0 21)) (Z.shiftl imm16 5)) rd.

(** Two conversion results agree: the same conversion, or both errors. *)
Definition same_result (r r' : result) : Prop :=
  match r, r' with
  | Ok a, Ok b => a = b
  | Err _, Err _ => True
  | _, _ => False
  end.

(** Every character of a string satisfies a test. *)
Fixpoint string_forall (p : ascii -> bool) (s : string) : bool :=
  match s with
  | EmptyString => true
  | String c r => p c && string_forall p r
  end.


(* ================================================================== *)
(** * Hex to assembly *)
(* ================================================================== *)

(** [s.replace('0x', '')]: occurrences are removed from left to right. *)
Fixpoint remove_0x (s : string) : string :=
  match s with
  | EmptyString => EmptyString
  | String c r =>
      match r with
      | String c' r' =>
          if Ascii.eqb c "0" && Ascii.eqb c' "x" then remove_0x r'
          else String c (remove_0x r)
      | EmptyString => String c EmptyString
      end
  end.

(** [int(s, 16)]: blanks around, a sign, an optional [0x] / [0X] prefix
    (with one underscore allowed after it), then base-16 digits with single
    underscores between them; [None] stands for [ValueError]. *)
Definition py_int_base16 (s : string) : option Z :=
  let s1 := PyStr.skip_blanks s in
  let '(neg, s2) :=
    match s1 with
    | String "+" r => (false, r)
    | String "-" r => (true, r)
    | _ => (false, s1)
    end in
  let s3 :=
    match s2 with
    | String "0" (String c r) =>
        if PyStr.is_one_of "xX" c
        then match r with String "_" r' => r' | _ => r end
        else s2
    | _ => s2
    end in
  match s3 with
  | String "_" _ => None
  | _ =>
      match PyStr.scan_digits 16 s3 false 0 false with
      | Some (v, true, rest) =>
          match PyStr.skip_blanks rest with
          | EmptyString => Some (if neg then - v else v)
          | _ => None
          end
      | _ => None
      end
  end.

(** The error results of [hex_to_asm]. *)
Inductive hex_error : Type :=
  | ErrHexLength (got : nat)
      (* "Hex string must be 8 characters (got {len(hex_str)})" *)
  | ErrUnknownEncoding (value : Z)
      (* "Unknown or invalid instruction encoding: 0x{value:08X}" *)
  | ErrInvalidHex (hex_str : string)
      (* "Invalid hex string: '{hex_str}'" *)
  | ErrConversionFailed (e : exn).
      (* "Conversion failed: {str(e)}" *)

(** The result of [hex_to_asm]: the key ['asm'] and the three keys of a
    [conversion], or an error. *)
Inductive hex_result : Type :=
  | Decoded (asm : string) (c : conversion)
  | HexErr (e : hex_error).

Section HexToAsm.

(** The disassembler: the mnemonic and the operand text of the first
    instruction [cs.disasm] yields for the four little-endian bytes of a
    32-bit word, or [None] when it yields nothing. *)
Variable cs_disasm : Z -> option (string * string).

(** [hex_to_asm(hex_str)] *)
Definition hex_to_asm (hex_str : string) : hex_result :=
  let hex_str := remove_0x (PyStr.remove " " (PyStr.strip hex_str)) in
  if negb (Nat.eqb (String.length hex_str) 8) then
    HexErr (ErrHexLength (String.length hex_str))
  else
    match py_int_base16 hex_str with
    | None => HexErr (ErrInvalidHex hex_str)
    | Some value =>
        if (0 <=? value) && (value <? 2 ^ 32) then
          match cs_disasm value with
          | Some (mnemonic, op_str) =>
              Decoded (mnemonic +:+ " " +:+ op_str)
                {| hex := "0x" +:+ PyStr.fmt_08X value;
                   bytes_le := byte_hex value 0 +:+ byte_hex value 1
                               +:+ byte_hex value 2 +:+ byte_hex value 3;
                   bytes_be := PyStr.upper hex_str |}
          | None => HexErr (ErrUnknownEncoding value)
          end
        else HexErr (ErrConversionFailed OverflowError)
    end.

End HexToAsm.

(** The digits [HexString] writes. *)
Definition is_lower_hex (c : ascii) : bool :=
  PyStr.is_one_of "0123456789abcdef" c.

(** Decidable form of the conditions on a field layout: every window lies
    in bits 0..31, the names are distinct and the windows are pairwise
    disjoint. *)
Definition window_in_word (sw : Z * Z) : bool :=
  let '(s, w) := sw in (0 <=? s) && (0 <=? w) && (s + w <=? 32).

Definition windows_apart (a b : Z * Z) : bool :=
  let '(s1, w1) := a in
  let '(s2, w2) := b in
  (s1 + w1 <=? s2) || (s2 + w2 <=? s1).

Fixpoint fields_okb (fs : list (string * (Z * Z))) : bool :=
  match fs with
  | [] => true
  | (f, sw) :: r =>
      window_in_word sw
      && forallb (fun '(g, sw') => negb (String.eqb f g) && windows_apart sw sw')
                 r
      && fields_okb r
  end.

Definition descriptor_okb (e : opspec) : bool :=
  fields_okb (fields e) && (0 <=? base e) && (base e <? 2 ^ 32).
(* ================================================================== *)
(** * Evaluation checks of the embedding *)
(* ================================================================== *)

Example py_int_hex : PyStr.py_int true "0x123" = Some 291.
Proof. reflexivity. Qed.
Example py_int_dec : PyStr.py_int true " 42 " = Some 42.
Proof. reflexivity. Qed.
Example py_int_lead0 : PyStr.py_int true "0123" = None.
Proof. reflexivity. Qed.
Example py_int_zeros : PyStr.py_int true "00" = Some 0.
Proof. reflexivity. Qed.
Example py_int_neg : PyStr.py_int true "-0x_1f" = Some (-31).
Proof. reflexivity. Qed.
Example py_int_base10_lead0 : PyStr.py_int false "007" = Some 7.
Proof. reflexivity. Qed.
Example py_int_empty : PyStr.py_int true "" = None.
Proof. reflexivity. Qed.
Example py_int_0x : PyStr.py_int true "0x" = None.
Proof. reflexivity. Qed.
Example split_ex : PyStr.split "," "X0, X1,#1" = ["X0"; " X1"; "#1"].
Proof. reflexivity. Qed.
Example strip_ex : PyStr.strip "  a b  " = "a b".
Proof. reflexivity. Qed.
Example fmt_ex : PyStr.fmt_08X 0x91048C20 = "91048C20" /\ PyStr.fmt_08X 0x1f = "0000001F".
Proof. split; reflexivity. Qed.
Example emu_add_imm :
  let r := set_reg init_regs "X1" 5 in
  let '(r', msg) := execute r "ADD" "X0, X1, #0x3" in
  get_reg r' "X0" = 8 /\ msg = "; X0 = X1 + #0x3 = 0x5 + 0x3 = 0x8".
Proof. vm_compute. split; reflexivity. Qed.
Example asm_add_decimal : hex_of (asm_to_hex "ADD X0, X1, #291") = Some "0x91048C20".
Proof. vm_compute. reflexivity. Qed.
Example asm_add_sp : hex_of (asm_to_hex "ADD SP, SP, #64") = Some "0x910103FF".
Proof. vm_compute. reflexivity. Qed.
Example asm_mov_reg : asm_to_hex "MOV X0, X1"
  = Ok {| hex := "0xAA0103E0"; bytes_le := "E00301AA"; bytes_be := "AA0103E0" |}.
Proof. vm_compute. reflexivity. Qed.
Example asm_nop : hex_of (asm_to_hex " nop ") = Some "0xD503201F".
Proof. vm_compute. reflexivity. Qed.
Example asm_lead0 : asm_to_hex "ADD X0, X1, #0123"
  = Err (ErrParsingFailed "ADD X0, X1, #0123" ValueError).
Proof. vm_compute. reflexivity. Qed.
Example colorize_bits_plain :
  colorize_bits 0x0B000000 0x7FE00000 0x0B000000
    = "00001011000000000000000000000000".
Proof. vm_compute. reflexivity. Qed.
Example colorize_tokens_head :
  firstn 2 (colorize_tokens 0x0B000000 0x7FE00000 0xCB000000)
    = [(Yellow, 1); (Red, 1)].
Proof. vm_compute. reflexivity. Qed.
Example iterate_two_small_fields :
  iterate_field_space dataproc_reg_fields ["sf"; "shift"] ∅ 4
    = Ret ([], [[("sf", 0); ("shift", 0)]; [("sf", 0); ("shift", 1)];
                [("sf", 0); ("shift", 2)]; [("sf", 0); ("shift", 3)];
                [("sf", 1); ("shift", 0)]; [("sf", 1); ("shift", 1)];
                [("sf", 1); ("shift", 2)]; [("sf", 1); ("shift", 3)]]).
Proof. vm_compute. reflexivity. Qed.
Example iterate_stepped_field :
  iterate_field_space [("imm16", (5, 4))] ["imm16"] ∅ 6
    = Ret ([], [[("imm16", 0)]; [("imm16", 6)]; [("imm16", 12)]]).
Proof. vm_compute. reflexivity. Qed.
Example iterate_zero_step_raises :
  iterate_field_space [("imm16", (5, 16))] ["imm16"] ∅ 0 = Raise ValueError.
Proof. vm_compute. reflexivity. Qed.
Example opcode_map_lookup : dict_get "SUBS" OPCODE_MAP = Some spec_SUBS.
Proof. vm_compute. reflexivity. Qed.
Example asm_range_msg : imm_range_message "ADD"
  = "Invalid ADD immediate. Must be 0-4095 or a multiple of 4096 up to 0xffffff".
Proof. vm_compute. reflexivity. Qed.

(* ================================================================== *)
(** * Add/subtract immediate: the legality rule and the text path *)
(* ================================================================== *)

(** The immediate rule of [_encode_add_sub_imm] on an integer: direct
    values, shifted multiples of 4096, everything else refused. *)
Lemma add_sub_immediate_rule (imm_val : Z) :
  (0 <= imm_val <= 4095 -> add_sub_immediate imm_val = Some (imm_val, 0)) /\
  (4095 < imm_val <= 4095 * 4096 -> imm_val mod 4096 = 0 ->
     add_sub_immediate imm_val = Some (Z.shiftr imm_val 12, 1)) /\
  (~ (0 <= imm_val <= 4095) ->
   ~ (0 < imm_val <= 4095 * 4096 /\ imm_val mod 4096 = 0) ->
     add_sub_immediate imm_val = None).
Proof.
  unfold add_sub_immediate.
  change (Z.shiftl 0xFFF 12) with (4095 * 4096).
  change (Z.shiftl 1 12) with 4096.
  repeat split; intros.
  - destruct (0 <=? imm_val) eqn:E1, (imm_val <=? 0xFFF) eqn:E2;
      simpl; try reflexivity; lia.
  - destruct (0 <=? imm_val) eqn:E1, (imm_val <=? 0xFFF) eqn:E2; simpl;
      try lia.
    destruct (0 <? imm_val) eqn:E3; [| lia].
    destruct (imm_val <=? 4095 * 4096) eqn:E4; [| lia].
    destruct (imm_val mod 4096 =? 0) eqn:E5; [reflexivity | lia].
  - destruct (0 <=? imm_val) eqn:E1, (imm_val <=? 0xFFF) eqn:E2; simpl;
      try lia;
      destruct (0 <? imm_val) eqn:E3, (imm_val <=? 4095 * 4096) eqn:E4,
               (imm_val mod 4096 =? 0) eqn:E5; simpl; try reflexivity; lia.
Qed.

Lemma upper_char_not_x (c : ascii) : Ascii.eqb "x" (PyStr.upper_char c) = false.
Proof.
  destruct c as [[] [] [] [] [] [] [] []]; vm_compute; reflexivity.
Qed.

(** On upper-cased text the literal [0x] of the immediate group matches
    nowhere. *)
Lemma lit_0x_upper (s : string) : Re.lit "0x" (PyStr.upper s) = None.
Proof.
  destruct s as [| a [| b r]]; cbn [Re.lit PyStr.upper].
  - reflexivity.
  - destruct (Ascii.eqb "0" (PyStr.upper_char a)); reflexivity.
  - rewrite upper_char_not_x.
    destruct (Ascii.eqb "0" (PyStr.upper_char a)); reflexivity.
Qed.

(** Hence the immediate group of an upper-cased text is always a run of
    decimal digits: of [0X123] it captures [0]. *)
Lemma imm_upper_is_decimal (s : string) :
  Re.imm (PyStr.upper s) = Re.plus PyStr.isdigit (PyStr.upper s).
Proof. unfold Re.imm. rewrite lit_0x_upper. reflexivity. Qed.

(** C1 (the code departs from the claim): [asm_to_hex] upper-cases the text
    before matching a pattern that spells the hexadecimal prefix in lower
    case, so a [#0x...] immediate is read as its leading [0].  The three
    requests of the claim all return the encoding of [ADD X0, X1, #0]:
    neither [0x91048C20] nor [0x91400C20], and no range error. *)
Theorem asm_to_hex_hex_immediate_read_as_zero :
  hex_of (asm_to_hex "ADD X0, X1, #0x123") = Some "0x91000020" /\
  hex_of (asm_to_hex "ADD X0, X1, #0x3000") = Some "0x91000020" /\
  hex_of (asm_to_hex "ADD X0, X1, #0x12345") = Some "0x91000020" /\
  Re.add_sub_imm "ADD" (PyStr.upper "ADD X0, X1, #0x123")
    = Some ("X0", "X1", "0").
Proof. vm_compute. repeat split; reflexivity. Qed.

(** The same requests with the immediate written in decimal follow the
    rule: direct, shifted, refused. *)
Lemma asm_to_hex_decimal_immediates :
  hex_of (asm_to_hex "ADD X0, X1, #291") = Some "0x91048C20" /\
  hex_of (asm_to_hex "ADD X0, X1, #12288") = Some "0x91400C20" /\
  asm_to_hex "ADD X0, X1, #74565" = Err (ErrImmRange "ADD").
Proof. vm_compute. repeat split; reflexivity. Qed.

(* ================================================================== *)
(** * Exploration: the cap on printed values *)
(* ================================================================== *)

Section ExploreCap.
Variable spec : opspec.
Variable locks : gmap string Z.

(** The loop stops at the cap when the cap is above the running count. *)
Lemma explore_loop_bound (combos : list (list (string * Z)))
    (count limit : Z) :
  count < limit ->
  Z.of_nat (length (snd (explore_loop spec locks combos count limit)))
    <= limit - count.
Proof.
  revert count. induction combos as [| c rest IH]; intros count Hlt.
  - simpl. lia.
  - cbn [explore_loop].
    destruct (assemble_value spec c locks) as [w val].
    destruct (count + 1 >=? limit) eqn:E.
    + simpl. lia.
    + assert (Hlt' : count + 1 < limit) by lia.
      specialize (IH (count + 1) Hlt').
      destruct (explore_loop spec locks rest (count + 1) limit) as [ws vals].
      simpl in *. lia.
Qed.

(** The loop prints its first value before it looks at the cap. *)
Lemma explore_loop_first (c : list (string * Z))
    (rest : list (list (string * Z))) (count limit : Z) :
  limit <= count + 1 ->
  snd (explore_loop spec locks (c :: rest) count limit)
    = [snd (assemble_value spec c locks)].
Proof.
  intros H. cbn [explore_loop].
  destruct (assemble_value spec c locks) as [w val].
  destruct (count + 1 >=? limit) eqn:E; [reflexivity | lia].
Qed.
End ExploreCap.

(** For a cap of at least one, [explore_opcode] prints at most [limit]
    values, whatever the descriptor, the fields to vary, the locks and the
    step. *)
Lemma explore_opcode_cap (opname : string) (spec : opspec) (limit step : Z)
    (vary_fields : list string) (locks : gmap string Z)
    (w : list diag) (vals : list Z) :
  1 <= limit ->
  explore_opcode opname spec limit step vary_fields locks = Ret (w, vals) ->
  Z.of_nat (length vals) <= limit.
Proof.
  intros Hlim. unfold explore_opcode.
  set (pre := if is_nil vary_fields then _ else _).
  assert (Hpre : 1 <= snd pre <= limit).
  { subst pre. destruct (is_nil vary_fields); simpl; [lia |].
    destruct (is_nil _ && negb _); simpl; lia. }
  destruct pre as [[out0 vf] lim]. simpl in Hpre.
  destruct (is_nil (fields spec)).
  { intros [= <- <-]. simpl. lia. }
  destruct (is_nil vf && (lim >? 0)).
  { destruct (assemble_value spec [] locks) as [w0 val].
    intros [= <- <-]. simpl. lia. }
  destruct (iterate_field_space (fields spec) vf locks step)
    as [[w1 combos] | e]; cbn; [| discriminate].
  pose proof (explore_loop_bound spec locks combos 0 lim ltac:(lia)) as Hb.
  destruct (explore_loop spec locks combos 0 lim) as [ws vs].
  intros [= <- <-]. simpl in Hb. lia.
Qed.

Lemma explore_opcode_cap_witness :
  exists w vals,
    explore_opcode "ADD" spec_ADD 3 4 ["sf"; "shift"] ∅ = Ret (w, vals) /\
    Z.of_nat (length vals) <= 3.
Proof.
  eexists _, _. split; [vm_compute; reflexivity |].
  eapply (explore_opcode_cap "ADD" spec_ADD 3 4 ["sf"; "shift"] ∅);
    [lia | vm_compute; reflexivity].
Defined.

(** C2 (the code departs from the claim at [limit = 0]): the cap is tested
    only after a value has been printed and counted, and the descriptor
    without fields prints its base unconditionally, so with a cap of zero
    one value is printed.  (For every cap of at least one the bound holds:
    [explore_opcode_cap].) *)
Theorem explore_opcode_limit_zero_prints_one :
  explore_opcode "NOP" spec_NOP 0 4 [] ∅ = Ret ([], [0xD503201F]) /\
  explore_opcode "ADD" spec_ADD 0 4 ["sf"] ∅ = Ret ([], [0x0B000000]) /\
  explore_opcode "ADD" spec_ADD 0 4 [] {["Rd" := 3]}
    = Ret ([], [0x0B000003]).
Proof. vm_compute. repeat split; reflexivity. Qed.

(* ================================================================== *)
(** * Bits of the codec *)
(* ================================================================== *)

Lemma field_mask_ones (width : Z) : Z.shiftl 1 width - 1 = Z.ones width.
Proof. unfold Z.ones. lia. Qed.

Lemma ones_testbit (w m : Z) :
  0 <= w -> Z.testbit (Z.ones w) m = (0 <=? m) && (m <? w).
Proof.
  intros Hw. destruct (Z.leb_spec 0 m) as [H0 | H0]; simpl.
  - destruct (Z.ltb_spec m w).
    + apply Z.ones_spec_low. lia.
    + apply Z.ones_spec_high. lia.
  - apply Z.testbit_neg_r. lia.
Qed.

(** [(v >> i) & 1] is bit [i] of [v]. *)
Lemma bit_testbit (v i : Z) :
  0 <= i -> bit v i = if Z.testbit v i then 1 else 0.
Proof.
  intros Hi. unfold bit. change 1 with (Z.ones 1) at 1.
  rewrite Z.land_ones by lia. change (2 ^ 1) with 2.
  rewrite <- Z.bit0_mod, Z.shiftr_spec by lia.
  rewrite Z.add_0_l. destruct (Z.testbit v i); reflexivity.
Qed.

(** A field write replaces the window [start .. start+width-1] by the low
    bits of the value and keeps every other bit. *)
Lemma write_field_testbit (val start width value i : Z) :
  0 <= start -> 0 <= width -> 0 <= i ->
  Z.testbit (write_field val start width value) i =
    if (start <=? i) && (i <? start + width)
    then Z.testbit value (i - start)
    else Z.testbit val i.
Proof.
  intros Hs Hw Hi. unfold write_field. rewrite field_mask_ones.
  rewrite Z.lor_spec, Z.land_spec, Z.lnot_spec by lia.
  rewrite !Z.shiftl_spec by lia.
  rewrite Z.land_spec, !ones_testbit by lia.
  destruct (Z.leb_spec start i), (Z.ltb_spec i (start + width)); simpl.
  - replace (0 <=? i - start) with true by (symmetry; apply Z.leb_le; lia).
    replace (i - start <? width) with true by (symmetry; apply Z.ltb_lt; lia).
    simpl. rewrite andb_false_r, andb_true_r. reflexivity.
  - replace (i - start <? width) with false by (symmetry; apply Z.ltb_ge; lia).
    rewrite !andb_false_r. simpl. rewrite andb_true_r, orb_false_r.
    reflexivity.
  - replace (0 <=? i - start) with false by (symmetry; apply Z.leb_gt; lia).
    simpl. rewrite andb_false_r, andb_true_r, orb_false_r. reflexivity.
  - replace (0 <=? i - start) with false by (symmetry; apply Z.leb_gt; lia).
    simpl. rewrite andb_false_r, andb_true_r, orb_false_r. reflexivity.
Qed.

(** A field whose mask [((1 << width) - 1) << start] does not meet the
    descriptor mask has no fixed bit in its window. *)
Lemma unmasked_window (mask start width i : Z) :
  0 <= start -> 0 <= width ->
  Z.land (Z.shiftl (Z.shiftl 1 width - 1) start) mask = 0 ->
  start <= i < start + width -> Z.testbit mask i = false.
Proof.
  intros Hs Hw H Hi.
  assert (Hb : Z.testbit (Z.land (Z.shiftl (Z.shiftl 1 width - 1) start) mask) i
               = false) by (rewrite H; apply Z.bits_0).
  rewrite Z.land_spec, Z.shiftl_spec, field_mask_ones, ones_testbit in Hb
    by lia.
  replace (0 <=? i - start) with true in Hb by (symmetry; apply Z.leb_le; lia).
  replace (i - start <? width) with true in Hb
    by (symmetry; apply Z.ltb_lt; lia).
  exact Hb.
Qed.

(** The colour chosen for bit [i], in terms of the three bits compared. *)
Lemma colorize_bit_class (base mask val i : Z) :
  0 <= i ->
  fst (colorize_bit base mask val i) =
    if Bool.eqb (Z.testbit val i) (Z.testbit base i) then Normal
    else if Z.testbit mask i then Red else Yellow.
Proof.
  intros Hi. unfold colorize_bit. rewrite !bit_testbit by lia.
  destruct (Z.testbit val i), (Z.testbit base i), (Z.testbit mask i);
    reflexivity.
Qed.

(** Position [31 - i] of the printed row is bit [i]. *)
Lemma colorize_tokens_nth (base mask val i : Z) :
  0 <= i <= 31 ->
  nth_error (colorize_tokens base mask val) (Z.to_nat (31 - i))
    = Some (colorize_bit base mask val i).
Proof.
  intros Hi. unfold colorize_tokens, bit_indices.
  apply map_nth_error.
  assert (Hseq : nth_error (seq 0 32) (Z.to_nat (31 - i))
                 = Some (Z.to_nat (31 - i))).
  { rewrite (nth_error_nth' _ 0%nat) by (rewrite length_seq; lia).
    rewrite seq_nth by lia. reflexivity. }
  rewrite (map_nth_error _ _ _ Hseq). f_equal. lia.
Qed.

(** The text printed for one bit, in terms of the three bits compared. *)
Lemma render_colorize_bit (base mask val j : Z) :
  0 <= j ->
  render_bit (colorize_bit base mask val j) =
    (let d := if Z.testbit val j then "1" else "0" in
     if Bool.eqb (Z.testbit val j) (Z.testbit base j) then d
     else if Z.testbit mask j
          then esc +:+ "[1;31m" +:+ d +:+ esc +:+ "[0m"
          else esc +:+ "[1;33m" +:+ d +:+ esc +:+ "[0m").
Proof.
  intros Hj. unfold render_bit, colorize_bit. rewrite !bit_testbit by lia.
  destruct (Z.testbit val j), (Z.testbit base j), (Z.testbit mask j);
    reflexivity.
Qed.

Lemma row_index_range (j : Z) :
  In j (map (fun k => 31 - Z.of_nat k) (seq 0 32)) -> 0 <= j <= 31.
Proof.
  intros H. apply in_map_iff in H as (k & <- & Hk). apply in_seq in Hk. lia.
Qed.

(** The whole row: [colorize_bits] is the concatenation of the 32 bit
    texts, bit 31 first. *)
Lemma colorize_bits_row (base mask val : Z) (f : Z -> string) :
  (forall j, 0 <= j <= 31 -> render_bit (colorize_bit base mask val j) = f j) ->
  colorize_bits base mask val
    = fold_right String.append EmptyString
        (map f (map (fun k => 31 - Z.of_nat k) (seq 0 32))).
Proof.
  intros H. unfold colorize_bits, colorize_tokens, bit_indices.
  rewrite map_map. f_equal. apply map_ext_in.
  intros j Hj. apply H, row_index_range, Hj.
Qed.

Lemma testbit_one (n : Z) : Z.testbit 1 n = (n =? 0).
Proof. destruct n as [| p | p]; [| destruct p |]; reflexivity. Qed.

(** C3: the text [colorize_bits] returns sorts each of the 32 bits of an
    assembled value three ways.  The row is the concatenation, from bit 31
    down to bit 0, of one text per bit: the bare digit when the bit equals
    the base bit (a match); the digit between [ESC[1;33m] and [ESC[0m],
    yellow, when it differs at a position free in the mask (a legal
    variation); the digit between [ESC[1;31m] and [ESC[0m], red, when it
    differs at a position fixed by the mask (a violation).  So after
    writing any value into a field whose window meets no mask bit, on the
    base value, the row has no red text and every changed bit is yellow,
    and after flipping one bit the mask fixes, that bit is red and every
    other bit is printed bare. *)
Theorem colorize_bits_three_way (base mask val i : Z) (Hi : 0 <= i <= 31) :
  let digit := fun (v j : Z) => if Z.testbit v j then "1" else "0" in
  let ESC := String "027"%char EmptyString in
  let yellow := fun d : string => ESC +:+ "[1;33m" +:+ d +:+ ESC +:+ "[0m" in
  let red := fun d : string => ESC +:+ "[1;31m" +:+ d +:+ ESC +:+ "[0m" in
  let row := fun f : Z -> string =>
    fold_right String.append EmptyString
      (map f (map (fun k => 31 - Z.of_nat k) (seq 0 32))) in
  colorize_bits base mask val
    = row (fun j =>
             if Bool.eqb (Z.testbit val j) (Z.testbit base j)
             then digit val j
             else if Z.testbit mask j then red (digit val j)
                  else yellow (digit val j)) /\
  nth_error (colorize_tokens base mask val) (Z.to_nat (31 - i))
    = Some (colorize_bit base mask val i) /\
  (Z.testbit val i = Z.testbit base i ->
     fst (colorize_bit base mask val i) = Normal /\
     render_bit (colorize_bit base mask val i) = digit val i) /\
  (Z.testbit val i <> Z.testbit base i -> Z.testbit mask i = false ->
     fst (colorize_bit base mask val i) = Yellow /\
     render_bit (colorize_bit base mask val i) = yellow (digit val i)) /\
  (Z.testbit val i <> Z.testbit base i -> Z.testbit mask i = true ->
     fst (colorize_bit base mask val i) = Red /\
     render_bit (colorize_bit base mask val i) = red (digit val i)) /\
  (forall start width v : Z,
     0 <= start -> 0 <= width ->
     Z.land (Z.shiftl (Z.shiftl 1 width - 1) start) mask = 0 ->
     let val' := write_field base start width v in
     fst (colorize_bit base mask val' i) <> Red /\
     (Z.testbit val' i <> Z.testbit base i ->
        fst (colorize_bit base mask val' i) = Yellow) /\
     colorize_bits base mask val'
       = row (fun j =>
                if Bool.eqb (Z.testbit val' j) (Z.testbit base j)
                then digit val' j else yellow (digit val' j))) /\
  (Z.testbit mask i = true ->
     let val' := Z.lxor base (Z.shiftl 1 i) in
     fst (colorize_bit base mask val' i) = Red /\
     colorize_bits base mask val'
       = row (fun j => if j =? i then red (digit val' j)
                       else digit base j)).
Proof.
  intros digit ESC yellow red row.
  assert (Hclass : forall v,
            (Z.testbit v i = Z.testbit base i ->
               fst (colorize_bit base mask v i) = Normal) /\
            (Z.testbit v i <> Z.testbit base i -> Z.testbit mask i = false ->
               fst (colorize_bit base mask v i) = Yellow) /\
            (Z.testbit v i <> Z.testbit base i -> Z.testbit mask i = true ->
               fst (colorize_bit base mask v i) = Red)).
  { intros v. repeat split.
    - intros E. rewrite colorize_bit_class, E by lia.
      rewrite eqb_reflx. reflexivity.
    - intros E M. rewrite colorize_bit_class, M by lia.
      destruct (Z.testbit v i), (Z.testbit base i); simpl;
        try reflexivity; congruence.
    - intros E M. rewrite colorize_bit_class, M by lia.
      destruct (Z.testbit v i), (Z.testbit base i); simpl;
        try reflexivity; congruence. }
  destruct (Hclass val) as (Hn & Hy & Hr).
  split.
  { apply colorize_bits_row. intros j Hj.
    rewrite render_colorize_bit by lia. reflexivity. }
  split; [apply colorize_tokens_nth; exact Hi |].
  split; [| split; [| split; [| split]]].
  - intros E. split; [apply Hn, E |].
    rewrite render_colorize_bit by lia. subst digit. cbv beta zeta.
    destruct (Z.testbit val i), (Z.testbit base i); simpl;
      try reflexivity; congruence.
  - intros E M. split; [apply Hy; assumption |].
    rewrite render_colorize_bit, M by lia. subst digit yellow. cbv beta zeta.
    destruct (Z.testbit val i), (Z.testbit base i); simpl;
      try reflexivity; congruence.
  - intros E M. split; [apply Hr; assumption |].
    rewrite render_colorize_bit, M by lia. subst digit red. cbv beta zeta.
    destruct (Z.testbit val i), (Z.testbit base i); simpl;
      try reflexivity; congruence.
  - intros start width v Hs Hw Hm val'.
    assert (Hfree : forall j, 0 <= j ->
              Z.testbit val' j <> Z.testbit base j ->
              Z.testbit mask j = false).
    { intros j Hj Hne. subst val'.
      rewrite write_field_testbit in Hne by lia.
      destruct ((start <=? j) && (j <? start + width)) eqn:W;
        [| congruence].
      apply andb_true_iff in W as [W1 W2].
      apply Z.leb_le in W1. apply Z.ltb_lt in W2.
      apply (unmasked_window mask start width j); assumption || lia. }
    split; [| split].
    + rewrite colorize_bit_class by lia.
      destruct (Bool.eqb _ _) eqn:E; [discriminate |].
      rewrite (Hfree i) by (lia || (intros F; rewrite F, eqb_reflx in E;
                                    discriminate)).
      discriminate.
    + intros Hne. rewrite colorize_bit_class by lia.
      rewrite (Hfree i) by (lia || exact Hne).
      destruct (Bool.eqb _ _) eqn:E; [| reflexivity].
      apply eqb_prop in E. congruence.
    + apply colorize_bits_row. intros j Hj.
      rewrite render_colorize_bit by lia. cbv zeta.
      destruct (Bool.eqb _ _) eqn:E; [reflexivity |].
      rewrite (Hfree j) by (lia || (intros F; rewrite F, eqb_reflx in E;
                                    discriminate)).
      reflexivity.
  - intros M val'.
    assert (Hbit : forall j, 0 <= j ->
              Z.testbit val' j = xorb (Z.testbit base j) (j =? i)).
    { intros j Hj. subst val'.
      rewrite Z.lxor_spec, Z.shiftl_spec, testbit_one by lia.
      f_equal. destruct (Z.eqb_spec (j - i) 0), (Z.eqb_spec j i);
        try reflexivity; lia. }
    split.
    + rewrite colorize_bit_class, M, Hbit, Z.eqb_refl by lia.
      destruct (Z.testbit base i); reflexivity.
    + apply colorize_bits_row. intros j Hj.
      rewrite render_colorize_bit by lia. cbv zeta.
      subst digit red. cbv beta. rewrite !Hbit by lia.
      destruct (Z.eqb_spec j i) as [-> | Hne].
      * rewrite M. destruct (Z.testbit base i); reflexivity.
      * rewrite xorb_false_r, eqb_reflx. reflexivity.
Qed.

Lemma colorize_bits_three_way_witness :
  fst (colorize_bit 0x0B000000 0x7FE00000 (write_field 0x0B000000 0 5 7) 2)
    = Yellow /\
  colorize_bits 0x0B000000 0x7FE00000 (Z.lxor 0x0B000000 (Z.shiftl 1 24))
    = "0000101" +:+ String "027"%char "[1;31m0" +:+ String "027"%char "[0m"
      +:+ "000000000000000000000000".
Proof.
  split.
  - pose proof (colorize_bits_three_way 0x0B000000 0x7FE00000 0x0B000007 2
                  ltac:(lia)) as (_ & _ & _ & _ & _ & Hf & _).
    apply (Hf 0 5 7); [lia | lia | reflexivity | vm_compute; discriminate].
  - pose proof (colorize_bits_three_way 0x0B000000 0x7FE00000 0x0B000000 24
                  ltac:(lia)) as (_ & _ & _ & _ & _ & _ & Hm).
    rewrite (proj2 (Hm eq_refl)). vm_compute. reflexivity.
Defined.

(* ================================================================== *)
(** * Alias resolution *)
(* ================================================================== *)

(** The merged lock of a field is the caller's lock when there is one, and
    the alias's lock otherwise. *)
Lemma merge_alias_locks_lookup (locked : list (string * Z))
    (locks : gmap string Z) (f : string) :
  merge_alias_locks locked locks !! f =
    match locks !! f with
    | Some v => Some v
    | None => dict_get f locked
    end.
Proof.
  unfold merge_alias_locks. revert locks.
  induction locked as [| [k v] rest IH]; intros locks.
  - simpl. destruct (locks !! f); reflexivity.
  - cbn [fold_left dict_get]. rewrite IH.
    destruct (String.eqb_spec f k) as [-> | Hne].
    + destruct (locks !! k) eqn:E; [rewrite E; reflexivity |].
      rewrite lookup_insert_eq. reflexivity.
    + destruct (locks !! k) eqn:E; [reflexivity |].
      rewrite lookup_insert_ne by congruence. reflexivity.
Qed.

(** C4: alias resolution adds an alias lock only for a field the caller has
    not locked, so a caller lock always wins; [CMP] with the caller lock
    [Rd = 5] resolves to [SUBS] with [Rd = 5], while without a caller lock
    it gets the alias default [Rd = 31]. *)
Theorem alias_locks_caller_wins :
  (forall (opcode : string) (locks : gmap string Z) (f : string),
     snd (resolve_alias opcode locks) !! f =
       match locks !! f with
       | Some v => Some v
       | None =>
           match dict_get (PyStr.upper opcode) INSTRUCTION_ALIASES with
           | Some a => dict_get f (locked_fields a)
           | None => None
           end
       end) /\
  resolve_alias "CMP" {["Rd" := 5]} = ("SUBS", {["Rd" := 5]}) /\
  resolve_alias "cmp" ∅ = ("SUBS", {["Rd" := 31]}).
Proof.
  split; [| split; vm_compute; reflexivity].
  intros opcode locks f. unfold resolve_alias.
  destruct (dict_get (PyStr.upper opcode) INSTRUCTION_ALIASES) as [a |];
    cbn [snd].
  - apply merge_alias_locks_lookup.
  - destruct (locks !! f); reflexivity.
Qed.

(* ================================================================== *)
(** * Move-register is ORR with the zero register *)
(* ================================================================== *)












(* ================================================================== *)
(** * Emulator: register file *)
(* ================================================================== *)

Lemma mask64_mod (v : Z) : Z.land v MASK64 = v mod 2 ^ 64.
Proof. change MASK64 with (Z.ones 64). apply Z.land_ones. lia. Qed.

Lemma mask32_mod (v : Z) : Z.land v MASK32 = v mod 2 ^ 32.
Proof. change MASK32 with (Z.ones 32). apply Z.land_ones. lia. Qed.

Lemma set_reg_zero_register (regs : gmap string Z) (reg_name : string) (v : Z) :
  PyStr.upper reg_name = "XZR" \/ PyStr.upper reg_name = "WZR" ->
  set_reg regs reg_name v = regs.
Proof. unfold set_reg. intros [-> | ->]; reflexivity. Qed.

Lemma get_reg_zero_register (regs : gmap string Z) (reg_name : string) :
  PyStr.upper reg_name = "XZR" \/ PyStr.upper reg_name = "WZR" ->
  get_reg regs reg_name = 0.
Proof. unfold get_reg. intros [-> | ->]; reflexivity. Qed.

(** Whatever [set_reg] stores fits in 64 bits. *)
Lemma set_reg_range (regs : gmap string Z) (reg_name : string) (value : Z)
    (k : string) (v : Z) :
  set_reg regs reg_name value !! k = Some v ->
  regs !! k = Some v \/ 0 <= v < 2 ^ 64.
Proof.
  unfold set_reg.
  assert (H64 : 0 <= Z.land value MASK64 < 2 ^ 64).
  { rewrite mask64_mod. apply Z.mod_pos_bound. lia. }
  assert (H32 : 0 <= Z.land (Z.land value MASK64) MASK32 < 2 ^ 64).
  { rewrite mask32_mod.
    pose proof (Z.mod_pos_bound (Z.land value MASK64) (2 ^ 32) ltac:(lia)).
    lia. }
  destruct (_ || _); [auto |].
  destruct (PyStr.startswith "X" _).
  { rewrite lookup_insert. case_decide; [intros [= <-]; auto | auto]. }
  destruct (PyStr.startswith "W" _).
  { rewrite lookup_insert. case_decide; [intros [= <-]; auto | auto]. }
  destruct (String.eqb _ "SP"); [| auto].
  rewrite lookup_insert. case_decide; [intros [= <-]; auto | auto].
Qed.

Ltac shape_done :=
  first
    [ apply shape_unrecognized
    | apply shape_raise
    | eapply shape_write; [reflexivity | discriminate]
    | apply shape_keep; discriminate ].

Ltac shape_branch :=
  cbn;
  try match goal with
      | |- context [int0 ?s] => destruct (int0 s); cbn
      end;
  try match goal with
      | |- context [if ?b then _ else _] => destruct b
      end;
  shape_done.

(** Every run of the [try] block has one of the four shapes. *)
Lemma execute_body_shape (regs : gmap string Z) (mnemonic op_str : string) :
  body_shape regs (op_parts op_str) (recognized mnemonic op_str)
    (execute_body regs mnemonic op_str).
Proof.
  unfold execute_body, recognized.
  generalize (PyStr.contains "#" op_str) as h.
  generalize (op_parts op_str) as parts.
  generalize (PyStr.upper mnemonic) as M.
  intros M parts h.
  destruct parts as [| rd [| rn [| rm [| x parts]]]];
    cbn [length Nat.eqb];
    destruct (String.eqb M "ADD"), (String.eqb M "SUB"), (String.eqb M "MOV"),
             (String.eqb M "AND"), (String.eqb M "ORR"), (String.eqb M "EOR"),
             h; shape_branch.
Qed.

(** [set_reg] stores its argument reduced modulo [2^64]. *)
Lemma set_reg_mod (regs : gmap string Z) (reg_name : string) (value : Z) :
  set_reg regs reg_name value = set_reg regs reg_name (value mod 2 ^ 64).
Proof.
  unfold set_reg. rewrite !mask64_mod, Z.mod_mod by lia. reflexivity.
Qed.

(** The value [ADD] and [SUB] store: the sum or difference modulo [2^64],
    for an immediate and for a register third operand. *)
Lemma execute_add_sub_result (regs : gmap string Z) (op_str rd rn c : string) :
  op_parts op_str = [rd; rn; c] ->
  (PyStr.contains "#" op_str = true ->
   forall imm : Z, int0 (PyStr.remove "#" c) = Ret imm ->
     fst (execute regs "ADD" op_str)
       = set_reg regs rd ((get_reg regs rn + imm) mod 2 ^ 64) /\
     fst (execute regs "SUB" op_str)
       = set_reg regs rd ((get_reg regs rn - imm) mod 2 ^ 64)) /\
  (PyStr.contains "#" op_str = false ->
     fst (execute regs "ADD" op_str)
       = set_reg regs rd ((get_reg regs rn + get_reg regs c) mod 2 ^ 64) /\
     fst (execute regs "SUB" op_str)
       = set_reg regs rd ((get_reg regs rn - get_reg regs c) mod 2 ^ 64)).
Proof.
  intros Hp. split.
  - intros Hh imm Hi. unfold execute, execute_body.
    rewrite Hp, Hh. cbn. rewrite Hi. cbn. rewrite !mask64_mod.
    split; reflexivity.
  - intros Hh. unfold execute, execute_body.
    rewrite Hp, Hh. cbn. rewrite !mask64_mod. split; reflexivity.
Qed.

(** C6: every arithmetic result of the emulator is reduced modulo [2^64]:
    [ADD] and [SUB] store the sum or difference modulo [2^64], a slot that
    [execute] changes holds a value in [0, 2^64) afterwards whatever the
    instruction, and [set_reg] stores its argument modulo [2^64].  With
    [X0] set to [0xFFFFFFFFFFFFFFFF], [ADD X0, X0, #1] leaves [X0 = 0]. *)
Theorem emulator_results_wrap_to_64_bits :
  (forall (regs : gmap string Z) (op_str rd rn c : string),
     op_parts op_str = [rd; rn; c] ->
     (PyStr.contains "#" op_str = true ->
      forall imm : Z, int0 (PyStr.remove "#" c) = Ret imm ->
        fst (execute regs "ADD" op_str)
          = set_reg regs rd ((get_reg regs rn + imm) mod 2 ^ 64) /\
        fst (execute regs "SUB" op_str)
          = set_reg regs rd ((get_reg regs rn - imm) mod 2 ^ 64)) /\
     (PyStr.contains "#" op_str = false ->
        fst (execute regs "ADD" op_str)
          = set_reg regs rd ((get_reg regs rn + get_reg regs c) mod 2 ^ 64) /\
        fst (execute regs "SUB" op_str)
          = set_reg regs rd ((get_reg regs rn - get_reg regs c) mod 2 ^ 64))) /\
  (forall (regs : gmap string Z) (mnemonic op_str k : string) (v : Z),
     fst (execute regs mnemonic op_str) !! k = Some v ->
     regs !! k = Some v \/ 0 <= v < 2 ^ 64) /\
  (forall (regs : gmap string Z) (reg_name : string) (value : Z),
     set_reg regs reg_name value = set_reg regs reg_name (value mod 2 ^ 64)) /\
  (let regs := set_reg init_regs "X0" 0xFFFFFFFFFFFFFFFF in
   get_reg regs "X0" = 0xFFFFFFFFFFFFFFFF /\
   get_reg (fst (execute regs "ADD" "X0, X0, #1")) "X0" = 0 /\
   snd (execute regs "ADD" "X0, X0, #1")
     = "; X0 = X0 + #1 = 0xffffffffffffffff + 0x1 = 0x0").
Proof.
  split; [exact execute_add_sub_result |].
  split; [| split; [apply set_reg_mod |]].
  - intros regs mnemonic op_str k v.
    pose proof (execute_body_shape regs mnemonic op_str) as S.
    unfold execute.
    inversion S as [Hr Hb | e Hr Hb | rd x s Hhd Hs Hr Hb | s Hs Hr Hb];
      cbn [fst]; auto.
    apply set_reg_range.
  - vm_compute. repeat split; reflexivity.
Qed.

Lemma emulator_results_wrap_to_64_bits_witness :
  let regs := set_reg init_regs "X3" (2 ^ 64 - 1) in
  fst (execute regs "SUB" "X4, XZR, X3") !! "X4" = Some 1 /\
  (regs !! "X4" = Some 1 \/ 0 <= 1 < 2 ^ 64) /\
  fst (execute regs "ADD" "X3, X3, #2")
    = set_reg regs "X3" ((get_reg regs "X3" + 2) mod 2 ^ 64) /\
  (get_reg regs "X3" + 2) mod 2 ^ 64 = 1.
Proof.
  intros regs.
  destruct emulator_results_wrap_to_64_bits as (Ha & H & _ & _).
  split; [vm_compute; reflexivity |].
  split; [apply (H _ "SUB" "X4, XZR, X3" "X4" 1); vm_compute; reflexivity |].
  split; [| vm_compute; reflexivity].
  destruct (Ha regs "X3, X3, #2" "X3" "X3" "#2" eq_refl) as [Himm _].
  apply (Himm eq_refl 2). reflexivity.
Defined.

(** C7: an instruction whose destination (its first operand) is [XZR] or
    [WZR] leaves the whole register file as it was, so every slot
    [X0]..[X30] and [SP] reads the same before and after; and a read of
    [XZR] or [WZR] is 0 in every register file. *)
Theorem zero_register_destination_changes_nothing
    (regs : gmap string Z) (mnemonic op_str rd : string) :
  hd_error (op_parts op_str) = Some rd ->
  PyStr.upper rd = "XZR" \/ PyStr.upper rd = "WZR" ->
  fst (execute regs mnemonic op_str) = regs /\
  (forall reg_name : string,
     get_reg (fst (execute regs mnemonic op_str)) reg_name
       = get_reg regs reg_name) /\
  get_reg regs rd = 0 /\
  get_reg (fst (execute regs mnemonic op_str)) rd = 0.
Proof.
  intros Hhd Hz.
  assert (E : fst (execute regs mnemonic op_str) = regs).
  { pose proof (execute_body_shape regs mnemonic op_str) as S.
    unfold execute.
    inversion S as [Hr Hb | e Hr Hb | rd' x s Hhd' Hs Hr Hb | s Hs Hr Hb];
      cbn [fst]; try reflexivity.
    rewrite Hhd in Hhd'. injection Hhd' as <-.
    apply set_reg_zero_register. exact Hz. }
  rewrite E. repeat split; try reflexivity;
    apply get_reg_zero_register; exact Hz.
Qed.

Lemma zero_register_destination_changes_nothing_witness :
  let regs := set_reg (set_reg init_regs "X1" 5) "X2" 6 in
  fst (execute regs "ADD" "xzr, X1, X2") = regs /\
  snd (execute regs "ADD" "xzr, X1, X2")
    = "; xzr = X1 + X2 = 0x5 + 0x6 = 0xb" /\
  get_reg regs "xzr" = 0.
Proof.
  intros regs.
  destruct (zero_register_destination_changes_nothing regs "ADD"
              "xzr, X1, X2" "xzr") as (H1 & _ & H3 & _);
    [reflexivity | left; reflexivity |].
  split; [exact H1 | split; [vm_compute; reflexivity | exact H3]].
Defined.

Ltac narrative_case :=
  cbn;
  try match goal with
      | |- context [PyStr.py_int true ?s] =>
          destruct (PyStr.py_int true s); cbn
      end;
  try match goal with
      | |- context [if ?b then _ else _] => destruct b; cbn
      end;
  repeat split; intros; try reflexivity; try discriminate; try congruence.

(** The narrative is empty exactly on the inputs that are not
    [evaluable], and then the registers are untouched. *)
Lemma execute_empty_iff (regs : gmap string Z) (mnemonic op_str : string) :
  (snd (execute regs mnemonic op_str) = "" <->
   evaluable mnemonic op_str = false) /\
  (evaluable mnemonic op_str = false ->
   execute regs mnemonic op_str = (regs, "")).
Proof.
  unfold execute, execute_body, evaluable, operand_count, takes_immediate,
    is_int_literal, int0.
  generalize (PyStr.contains "#" op_str) as h.
  generalize (op_parts op_str) as parts.
  generalize (PyStr.upper mnemonic) as M.
  intros M parts h.
  destruct (String.eqb_spec M "ADD") as [-> | N1];
    [| destruct (String.eqb_spec M "SUB") as [-> | N2];
       [| destruct (String.eqb_spec M "MOV") as [-> | N3];
          [| destruct (String.eqb_spec M "AND") as [-> | N4];
             [| destruct (String.eqb_spec M "ORR") as [-> | N5];
                [| destruct (String.eqb_spec M "EOR") as [-> | N6]]]]]];
    destruct h; destruct parts as [| rd [| rn [| rm [| x parts]]]];
    narrative_case.
Qed.

(** C8: [execute] always returns a string: every exception of its [try]
    block is turned into the empty narrative.  The narrative is empty, and
    no register is written, exactly when the instruction is not
    [evaluable]: the mnemonic is none of ADD, SUB, MOV, AND, ORR, EOR; or
    the number of operands is not the one the mnemonic takes; or the
    operand text has a [#] and the mnemonic has no immediate form, or the
    immediate is no integer literal.  Nothing else counts as unsupported:
    the names of the operands are not checked. *)
Theorem execute_never_raises_and_fails_empty
    (regs : gmap string Z) (mnemonic op_str : string) :
  (snd (execute regs mnemonic op_str) = "" <->
   evaluable mnemonic op_str = false) /\
  (evaluable mnemonic op_str = false ->
   execute regs mnemonic op_str = (regs, "")) /\
  (operand_count (PyStr.upper mnemonic) = None ->
   execute regs mnemonic op_str = (regs, "")) /\
  (forall n : nat,
     operand_count (PyStr.upper mnemonic) = Some n ->
     length (op_parts op_str) <> n ->
     execute regs mnemonic op_str = (regs, "")) /\
  (PyStr.contains "#" op_str = true ->
   takes_immediate (PyStr.upper mnemonic) = false ->
   execute regs mnemonic op_str = (regs, "")) /\
  (PyStr.contains "#" op_str = true ->
   is_int_literal
     (PyStr.remove "#" (List.last (op_parts op_str) EmptyString)) = false ->
   execute regs mnemonic op_str = (regs, "")).
Proof.
  destruct (execute_empty_iff regs mnemonic op_str) as [Hiff Hkeep].
  split; [exact Hiff |]. split; [exact Hkeep |].
  split; [| split; [| split]].
  - intros H. apply Hkeep. unfold evaluable. rewrite H. reflexivity.
  - intros n H Hn. apply Hkeep. unfold evaluable. rewrite H.
    destruct (Nat.eqb_spec (length (op_parts op_str)) n);
      [contradiction | reflexivity].
  - intros Hh Ht. apply Hkeep. unfold evaluable.
    destruct (operand_count _); [| reflexivity].
    rewrite Hh, Ht. apply andb_false_r.
  - intros Hh Hl. apply Hkeep. unfold evaluable.
    destruct (operand_count _); [| reflexivity].
    rewrite Hh, Hl, andb_false_r. apply andb_false_r.
Qed.

Lemma execute_never_raises_and_fails_empty_witness :
  execute init_regs "LDR" "X0, [X1]" = (init_regs, "") /\
  execute init_regs "ADD" "X0, X1, #zz" = (init_regs, "") /\
  execute init_regs "ADD" "X0, #1" = (init_regs, "") /\
  execute init_regs "ORR" "X0, X1, #1" = (init_regs, "") /\
  evaluable "MOV" "X0, X1, X2" = false.
Proof.
  split; [| split; [| split; [| split]]].
  - apply (proj1 (proj2 (proj2 (execute_never_raises_and_fails_empty
                                  init_regs "LDR" "X0, [X1]")))).
    reflexivity.
  - apply (proj2 (proj2 (proj2 (proj2 (proj2
             (execute_never_raises_and_fails_empty
                init_regs "ADD" "X0, X1, #zz")))))); reflexivity.
  - apply (proj1 (proj2 (proj2 (proj2 (execute_never_raises_and_fails_empty
                                         init_regs "ADD" "X0, #1"))))
             3%nat); [reflexivity | vm_compute; lia].
  - apply (proj1 (proj2 (proj2 (proj2 (proj2
             (execute_never_raises_and_fails_empty
                init_regs "ORR" "X0, X1, #1")))))); reflexivity.
  - apply (proj1 (execute_never_raises_and_fails_empty
                    init_regs "MOV" "X0, X1, X2")).
    vm_compute. reflexivity.
Defined.

(** The claim as worded does not hold for an operand that is unsupported
    without failing: [v1.d[1]] is no register of the register file, yet
    [MOV X0, v1.d[1]] is evaluated -- the unknown name reads as 0, [X0] is
    overwritten and a narrative is returned.  Likewise a [MOV] whose
    second operand is a bare number. *)
Lemma unsupported_operand_gets_a_narrative :
  let regs := set_reg init_regs "X0" 7 in
  supported_shape "MOV" "X0, v1.d[1]" = false /\
  get_reg regs "X0" = 7 /\
  snd (execute regs "MOV" "X0, v1.d[1]") = "; X0 = v1.d[1] = 0x0" /\
  snd (execute regs "MOV" "X0, v1.d[1]") <> "" /\
  get_reg (fst (execute regs "MOV" "X0, v1.d[1]")) "X0" = 0 /\
  supported_shape "MOV" "X0, 5" = false /\
  snd (execute regs "MOV" "X0, 5") = "; X0 = 5 = 0x0".
Proof.
  intros regs. vm_compute. repeat split; try reflexivity; discriminate.
Qed.

(* ================================================================== *)
(** * Assembly: bits outside the written windows *)
(* ================================================================== *)

Lemma dict_get_In {V : Type} (k : string) (v : V) (d : list (string * V)) :
  dict_get k d = Some v -> In (k, v) d.
Proof.
  induction d as [| [k' v'] r IH]; simpl; [discriminate |].
  destruct (String.eqb_spec k k') as [<- | Hne].
  - intros [= ->]. left. reflexivity.
  - intros H. right. apply IH, H.
Qed.

Lemma In_dict_mem {V : Type} (k : string) (v : V) (d : list (string * V)) :
  In (k, v) d -> dict_mem k d = true.
Proof.
  unfold dict_mem.
  induction d as [| [k' v'] r IH]; simpl; [tauto |].
  intros [[= -> ->] | H].
  - rewrite String.eqb_refl. reflexivity.
  - destruct (String.eqb k k'); [reflexivity | apply IH, H].
Qed.

Lemma wf_fields_In (fs : list (string * (Z * Z))) (f : string)
    (start width : Z) :
  wf_fields fs -> In (f, (start, width)) fs -> 0 <= start /\ 0 <= width.
Proof.
  unfold wf_fields. rewrite List.Forall_forall. intros H Hin.
  apply (H _ Hin).
Qed.

Section Frame.
Variable i : Z.
Hypothesis Hi : 0 <= i.

(** The loop over the varied values keeps bit [i] when no written window
    contains it. *)
Lemma apply_combo_frame (fields : list (string * (Z * Z)))
    (combo_map : list (string * Z)) (val : Z) :
  wf_fields fields ->
  (forall f v start width,
     In (f, v) combo_map -> dict_get f fields = Some (start, width) ->
     ~ (start <= i < start + width)) ->
  Z.testbit (apply_combo fields combo_map val) i = Z.testbit val i.
Proof.
  intros Hwf. unfold apply_combo. revert val.
  induction combo_map as [| [f v] rest IH]; intros val Hout;
    [reflexivity |].
  cbn [fold_left]. rewrite IH.
  - destruct (dict_get f fields) as [[start width] |] eqn:E;
      [| reflexivity].
    destruct (wf_fields_In _ _ _ _ Hwf (dict_get_In _ _ _ E)).
    rewrite write_field_testbit by lia.
    specialize (Hout f v start width (or_introl eq_refl) E).
    destruct (Z.leb_spec start i), (Z.ltb_spec i (start + width));
      simpl; try reflexivity; lia.
  - intros f' v' start width Hin. apply (Hout f' v'). right. exact Hin.
Qed.

(** The loop over the locks keeps bit [i] when no written window contains
    it. *)
Lemma apply_locks_frame (l : list (string * (Z * Z)))
    (combo_map : list (string * Z)) (locks : gmap string Z)
    (st : list diag * Z) :
  wf_fields l ->
  (forall f start width,
     In (f, (start, width)) l ->
     dict_mem f combo_map = false -> is_Some (locks !! f) ->
     ~ (start <= i < start + width)) ->
  Z.testbit (snd (apply_locks l combo_map locks st)) i
    = Z.testbit (snd st) i.
Proof.
  unfold apply_locks. revert st.
  induction l as [| [f [start width]] rest IH]; intros st Hwf Hout;
    [reflexivity |].
  cbn [fold_left].
  assert (Hwf' : wf_fields rest) by (inversion Hwf; assumption).
  rewrite IH;
    [| exact Hwf'
     | intros f' s' w' Hin; apply Hout; right; exact Hin].
  destruct st as [out val].
  destruct (dict_mem f combo_map) eqn:Em; [reflexivity |].
  destruct (locks !! f) as [lock_val |] eqn:El; [| reflexivity].
  cbn [snd].
  destruct (wf_fields_In _ f start width Hwf (or_introl eq_refl)).
  rewrite write_field_testbit by lia.
  specialize (Hout f start width (or_introl eq_refl) Em
                (ex_intro _ lock_val El)).
  destruct (Z.leb_spec start i), (Z.ltb_spec i (start + width));
    simpl; try reflexivity; lia.
Qed.
End Frame.

(** C10: the value built by [assemble_value] has the bit of [base] at every
    position that lies in no written window, the written fields being the
    descriptor's fields that occur in the varied map, and those that occur
    in the lock set and not in the varied map. *)
Theorem assemble_value_keeps_base_outside_written_fields
    (spec : opspec) (combo_map : list (string * Z)) (locks : gmap string Z)
    (i : Z) :
  0 <= i ->
  wf_fields (fields spec) ->
  (forall f start width,
     In (f, (start, width)) (fields spec) ->
     dict_mem f combo_map = true \/
     (dict_mem f combo_map = false /\ is_Some (locks !! f)) ->
     ~ (start <= i < start + width)) ->
  Z.testbit (snd (assemble_value spec combo_map locks)) i
    = Z.testbit (base spec) i.
Proof.
  intros Hi Hwf Hout. unfold assemble_value.
  rewrite apply_locks_frame; [| exact Hi | exact Hwf |].
  - cbn [snd]. apply apply_combo_frame; [exact Hi | exact Hwf |].
    intros f v start width Hin Hget.
    apply (Hout f start width (dict_get_In _ _ _ Hget)).
    left. apply (In_dict_mem _ v), Hin.
  - intros f start width Hin Hm Hl. apply (Hout f start width Hin).
    right. split; assumption.
Qed.

Lemma wf_dataproc_reg_fields : wf_fields dataproc_reg_fields.
Proof. unfold wf_fields, dataproc_reg_fields. repeat constructor; lia. Qed.

Lemma assemble_value_keeps_base_outside_written_fields_witness :
  snd (assemble_value spec_ADD [("Rd", 7)] {["sf" := 1]}) = 0x8B000007 /\
  Z.testbit (snd (assemble_value spec_ADD [("Rd", 7)] {["sf" := 1]})) 12
    = Z.testbit (base spec_ADD) 12.
Proof.
  split; [vm_compute; reflexivity |].
  apply assemble_value_keeps_base_outside_written_fields;
    [lia | exact wf_dataproc_reg_fields |].
  intros f start width Hin Hw.
  simpl in Hin.
  destruct Hin as [E | [E | [E | [E | [E | [E | []]]]]]];
    injection E as <- <- <-; try lia;
    destruct Hw as [Hw | [_ [x Hx]]]; vm_compute in *; congruence.
Defined.

(* ================================================================== *)
(** * Locks wider than their field *)
(* ================================================================== *)

Lemma apply_locks_cons (g : string) (s w : Z) (rest : list (string * (Z * Z)))
    (combo_map : list (string * Z)) (locks : gmap string Z)
    (out : list diag) (val : Z) :
  apply_locks ((g, (s, w)) :: rest) combo_map locks (out, val) =
  apply_locks rest combo_map locks
    (if dict_mem g combo_map then (out, val)
     else match locks !! g with
          | Some lock_val =>
              (if lock_val >=? Z.shiftl 1 w
               then out ++ [WarnLockExceedsWidth g lock_val] else out,
               write_field val s w lock_val)
          | None => (out, val)
          end).
Proof. reflexivity. Qed.

(** Warnings are only ever added. *)
Lemma apply_locks_out_mono (l : list (string * (Z * Z)))
    (combo_map : list (string * Z)) (locks : gmap string Z)
    (st : list diag * Z) (d : diag) :
  In d (fst st) -> In d (fst (apply_locks l combo_map locks st)).
Proof.
  revert st. induction l as [| [g [s w]] rest IH]; intros [out val] Hin;
    [exact Hin |].
  rewrite apply_locks_cons. apply IH.
  destruct (dict_mem g combo_map); [exact Hin |].
  destruct (locks !! g); [| exact Hin].
  cbn [fst] in *. destruct (_ >=? _); [| exact Hin].
  apply in_or_app. left. exact Hin.
Qed.

(** A lock at least [2^width] on a field that is written is reported. *)
Lemma apply_locks_warns (l : list (string * (Z * Z)))
    (combo_map : list (string * Z)) (locks : gmap string Z)
    (st : list diag * Z) (fname : string) (start width raw : Z) :
  In (fname, (start, width)) l ->
  dict_mem fname combo_map = false -> locks !! fname = Some raw ->
  raw >= Z.shiftl 1 width ->
  In (WarnLockExceedsWidth fname raw) (fst (apply_locks l combo_map locks st)).
Proof.
  intros Hin Hm Hl Hge. revert st.
  induction l as [| [g [s w]] rest IH]; intros [out val]; [destruct Hin |].
  rewrite apply_locks_cons. destruct Hin as [[= -> -> ->] | Hin].
  - rewrite Hm, Hl. apply apply_locks_out_mono. cbn [fst].
    destruct (raw >=? Z.shiftl 1 width) eqn:E; [| lia].
    apply in_or_app. right. left. reflexivity.
  - apply IH, Hin.
Qed.

(** The window of a locked, not varied field holds the low bits of the
    lock when no other field of the descriptor overlaps it. *)
Lemma apply_locks_written (l : list (string * (Z * Z)))
    (combo_map : list (string * Z)) (locks : gmap string Z)
    (st : list diag * Z) (fname : string) (start width raw i : Z) :
  wf_fields l -> List.NoDup (map fst l) ->
  In (fname, (start, width)) l ->
  dict_mem fname combo_map = false -> locks !! fname = Some raw ->
  (forall g s w, In (g, (s, w)) l -> g <> fname ->
     s + w <= start \/ start + width <= s) ->
  start <= i < start + width ->
  Z.testbit (snd (apply_locks l combo_map locks st)) i
    = Z.testbit raw (i - start).
Proof.
  intros Hwf Hnd Hin Hm Hl Hdis Hi. revert st.
  induction l as [| [g [s w]] rest IH]; intros [out val]; [destruct Hin |].
  rewrite apply_locks_cons.
  assert (Hwf' : wf_fields rest) by (inversion Hwf; assumption).
  destruct (wf_fields_In _ g s w Hwf (or_introl eq_refl)) as [Hs Hw].
  cbn [map fst] in Hnd. apply List.NoDup_cons_iff in Hnd as [Hnotin Hnd'].
  destruct Hin as [[= -> -> ->] | Hin].
  - rewrite Hm, Hl.
    rewrite apply_locks_frame; [| lia | exact Hwf' |].
    + cbn [snd]. rewrite write_field_testbit by lia.
      destruct (Z.leb_spec start i), (Z.ltb_spec i (start + width));
        simpl; try reflexivity; lia.
    + intros f s' w' Hin' _ _.
      assert (Hne : f <> fname).
      { intros ->. apply Hnotin.
        apply (in_map fst) in Hin'. exact Hin'. }
      destruct (wf_fields_In _ f s' w' Hwf' Hin').
      specialize (Hdis f s' w' (or_intror Hin') Hne). lia.
  - apply IH; try assumption.
    intros g' s' w' Hin' Hne. apply (Hdis g' s' w'); [right |]; assumption.
Qed.

Lemma field_value_of_bits (v start width raw : Z) :
  0 <= start -> 0 <= width ->
  (forall i, start <= i < start + width ->
     Z.testbit v i = Z.testbit raw (i - start)) ->
  field_value v start width = raw mod 2 ^ width.
Proof.
  intros Hs Hw Hbits. rewrite <- Z.land_ones by lia.
  apply Z.bits_inj'. intros j Hj. unfold field_value.
  rewrite Z.shiftr_spec, !Z.land_spec, Z.shiftl_spec by lia.
  rewrite field_mask_ones, !ones_testbit by lia.
  replace (j + start - start) with j by lia.
  destruct (Z.leb_spec 0 j); [| lia].
  destruct (Z.ltb_spec j width); simpl.
  - rewrite !andb_true_r. rewrite Hbits by lia.
    replace (j + start - start) with j by lia. reflexivity.
  - rewrite !andb_false_r. reflexivity.
Qed.

(** The domain built for a locked field to vary is the single value
    [locked_val & (max_val - 1)], reported when [locked_val >= max_val]. *)
Lemma build_domains_locked (fields : list (string * (Z * Z)))
    (vary_fields : list string) (locks : gmap string Z) (step : Z) :
  forall (out : list diag) (doms : list (list Z)) (order : list string),
    build_domains fields vary_fields locks step = Ret (out, doms, order) ->
    forall (n : nat) (fname : string) (raw start width : Z),
      order !! n = Some fname -> locks !! fname = Some raw ->
      dict_get fname fields = Some (start, width) ->
      doms !! n = Some [Z.land raw (Z.shiftl 1 width - 1)] /\
      (raw >= Z.shiftl 1 width ->
       In (WarnLockExceedsRange fname raw width) out).
Proof.
  induction vary_fields as [| f rest IH]; intros out doms order H.
  - injection H as <- <- <-. intros n fname raw start width Hn.
    destruct n; discriminate.
  - cbn [build_domains] in H.
    destruct (dict_get f fields) as [[s w] |] eqn:Ef; [| apply IH, H].
    destruct (build_domains fields rest locks step)
      as [[[outs ds] ord] | e] eqn:Er.
    + specialize (IH outs ds ord eq_refl).
      destruct (locks !! f) as [lv |] eqn:El.
      * cbn in H. injection H as <- <- <-.
        intros [| n] fname raw start width Hn Hl Hg.
        -- injection Hn as <-. rewrite El in Hl. injection Hl as <-.
           rewrite Ef in Hg. injection Hg as <- <-.
           split; [reflexivity |]. intros Hge.
           apply in_or_app. left.
           destruct (lv >=? Z.shiftl 1 w) eqn:E; [left; reflexivity | lia].
        -- destruct (IH n fname raw start width Hn Hl Hg) as [Hd Hw].
           split; [exact Hd |]. intros Hge.
           apply in_or_app. right. apply Hw, Hge.
      * destruct (py_range0 _ _) as [r | e]; cbn in H; [| discriminate].
        injection H as <- <- <-.
        intros [| n] fname raw start width Hn Hl Hg.
        -- injection Hn as <-. congruence.
        -- apply (IH n fname raw start width Hn Hl Hg).
    + destruct (locks !! f); cbn in H; [discriminate |].
      destruct (py_range0 _ _); cbn in H; discriminate.
Qed.

Lemma shiftl_1_pow (w : Z) : 0 <= w -> Z.shiftl 1 w = 2 ^ w.
Proof. intros H. rewrite Z.shiftl_1_l. reflexivity. Qed.

Lemma land_field_mask_mod (raw w : Z) :
  0 <= w -> Z.land raw (Z.shiftl 1 w - 1) = raw mod 2 ^ w.
Proof. intros H. rewrite field_mask_ones. apply Z.land_ones, H. Qed.

(** C9: a lock of at least [2^width] is brought into the field's range
    with a diagnostic, never without notice.  What the code's warnings call
    "Clamping" keeps the low [width] bits of the raw value: the value used
    is [raw & (2^width - 1) = raw mod 2^width], which lies in
    [0, 2^width), both as the single element of the field's enumeration
    domain and when [assemble_value] writes it (into a field no other field
    of the descriptor overlaps); each time the warning is printed. *)
Theorem lock_overflow_keeps_low_bits_with_warning :
  (forall (fields : list (string * (Z * Z))) (vary_fields : list string)
          (locks : gmap string Z) (step : Z) (out : list diag)
          (doms : list (list Z)) (order : list string) (n : nat)
          (fname : string) (raw start width : Z),
     build_domains fields vary_fields locks step = Ret (out, doms, order) ->
     order !! n = Some fname -> locks !! fname = Some raw ->
     dict_get fname fields = Some (start, width) ->
     0 <= width -> raw >= 2 ^ width ->
     doms !! n = Some [raw mod 2 ^ width] /\
     raw mod 2 ^ width = Z.land raw (2 ^ width - 1) /\
     0 <= raw mod 2 ^ width < 2 ^ width /\
     In (WarnLockExceedsRange fname raw width) out) /\
  (forall (fields : list (string * (Z * Z))) (locks : gmap string Z)
          (step : Z) (fname : string) (raw start width : Z),
     locks !! fname = Some raw ->
     dict_get fname fields = Some (start, width) ->
     0 <= width -> raw >= 2 ^ width ->
     iterate_field_space fields [fname] locks step
       = Ret ([WarnLockExceedsRange fname raw width],
              [[(fname, raw mod 2 ^ width)]])) /\
  (forall (spec : opspec) (combo_map : list (string * Z))
          (locks : gmap string Z) (fname : string) (raw start width : Z),
     wf_fields (fields spec) -> List.NoDup (map fst (fields spec)) ->
     In (fname, (start, width)) (fields spec) ->
     (forall g s w, In (g, (s, w)) (fields spec) -> g <> fname ->
        s + w <= start \/ start + width <= s) ->
     dict_mem fname combo_map = false -> locks !! fname = Some raw ->
     raw >= 2 ^ width ->
     field_value (snd (assemble_value spec combo_map locks)) start width
       = raw mod 2 ^ width /\
     0 <= field_value (snd (assemble_value spec combo_map locks)) start width
       < 2 ^ width /\
     In (WarnLockExceedsWidth fname raw)
        (fst (assemble_value spec combo_map locks))).
Proof.
  split; [| split].
  - intros fields vary_fields locks step out doms order n fname raw start
           width Hb Hn Hl Hg Hw Hge.
    destruct (build_domains_locked _ _ _ _ _ _ _ Hb n fname raw start width
                Hn Hl Hg) as [Hd Hwarn].
    rewrite land_field_mask_mod in Hd by lia.
    split; [exact Hd |].
    split; [rewrite <- (land_field_mask_mod raw width Hw),
              (shiftl_1_pow width Hw); reflexivity |].
    split; [apply Z.mod_pos_bound; lia |].
    apply Hwarn. rewrite shiftl_1_pow by lia. exact Hge.
  - intros fields locks step fname raw start width Hl Hg Hw Hge.
    unfold iterate_field_space. cbn [build_domains]. rewrite Hg, Hl.
    rewrite shiftl_1_pow, <- (shiftl_1_pow width), land_field_mask_mod by lia.
    rewrite shiftl_1_pow by lia.
    destruct (raw >=? 2 ^ width) eqn:E; [| lia].
    cbn. reflexivity.
  - intros spec combo_map locks fname raw start width Hwf Hnd Hin Hdis Hm Hl
           Hge.
    destruct (wf_fields_In _ _ _ _ Hwf Hin) as [Hs Hw].
    assert (Hv : field_value (snd (assemble_value spec combo_map locks))
                   start width = raw mod 2 ^ width).
    { unfold assemble_value.
      apply field_value_of_bits; [lia | lia |].
      intros i Hi.
      apply (apply_locks_written (fields spec) combo_map locks _ fname start
               width raw i); assumption. }
    split; [exact Hv |].
    split; [rewrite Hv; apply Z.mod_pos_bound; lia |].
    unfold assemble_value.
    apply (apply_locks_warns _ _ _ _ fname start width raw);
      try assumption.
    rewrite shiftl_1_pow by lia. exact Hge.
Qed.

Lemma nodup_dataproc_reg_fields :
  List.NoDup (map fst dataproc_reg_fields).
Proof.
  unfold dataproc_reg_fields. cbn [map fst].
  repeat (constructor; [simpl; intuition discriminate |]). constructor.
Qed.

Lemma lock_overflow_keeps_low_bits_with_warning_witness :
  iterate_field_space dataproc_reg_fields ["Rd"] {["Rd" := 37]} 4
    = Ret ([WarnLockExceedsRange "Rd" 37 5], [[("Rd", 37 mod 2 ^ 5)]]) /\
  37 mod 2 ^ 5 = 5 /\
  field_value (snd (assemble_value spec_ADD [] {["Rd" := 37]})) 0 5
    = 37 mod 2 ^ 5 /\
  0 <= field_value (snd (assemble_value spec_ADD [] {["Rd" := 37]})) 0 5
    < 2 ^ 5 /\
  In (WarnLockExceedsWidth "Rd" 37)
     (fst (assemble_value spec_ADD [] {["Rd" := 37]})).
Proof.
  destruct lock_overflow_keeps_low_bits_with_warning as (_ & H2 & H3).
  split; [| split; [reflexivity |]].
  - apply (H2 dataproc_reg_fields {["Rd" := 37]} 4 "Rd" 37 0 5);
      [reflexivity | reflexivity | lia | vm_compute; discriminate].
  - apply (H3 spec_ADD [] {["Rd" := 37]} "Rd" 37 0 5).
    + exact wf_dataproc_reg_fields.
    + exact nodup_dataproc_reg_fields.
    + left. reflexivity.
    + intros g s w Hin Hne. simpl in Hin.
      destruct Hin as [E | [E | [E | [E | [E | [E | []]]]]]];
        injection E as <- <- <-; try lia; congruence.
    + reflexivity.
    + reflexivity.
    + vm_compute. discriminate.
Defined.

(** The lock [Rd = 32] on the 5-bit field [Rd]: the low five bits are 0,
    so the domain element is 0 and the field is written as 0; both
    warnings are printed. *)
Example lock_32_on_a_5_bit_field :
  iterate_field_space dataproc_reg_fields ["Rd"] {["Rd" := 32]} 4
    = Ret ([WarnLockExceedsRange "Rd" 32 5], [[("Rd", 0)]]) /\
  assemble_value spec_ADD [] {["Rd" := 32]}
    = ([WarnLockExceedsWidth "Rd" 32], 0x0B000000).
Proof. split; vm_compute; reflexivity. Qed.

(* ================================================================== *)
(** * Further properties: evaluation checks *)
(* ================================================================== *)

Example pattern_ADD :
  get_binary_pattern 0x0B000000 0x7FE00000
    = "x000 1011 000x xxxx xxxx xxxx xxxx xxxx".
Proof. vm_compute. reflexivity. Qed.
Example highlights_ADD :
  get_field_highlights 0x0B000000 0x7FE00000 0x8B00001F dataproc_reg_fields
    = "Rd=0x1F, sf=0x1".
Proof. vm_compute. reflexivity. Qed.
Example parse_locks_ex :
  parse_locks ["Rd=31"; "bogus"; "sf=zz"; "Rd=0x3"; "imm=-1"]
    = (["sf=zz"], {["Rd" := 3; "imm" := -1]}).
Proof. vm_compute. reflexivity. Qed.

(* ================================================================== *)
(** * Field writes: round trip, composition, range *)
(* ================================================================== *)

Lemma field_value_write_field (val start width v : Z) :
  0 <= start -> 0 <= width ->
  field_value (write_field val start width v) start width = v mod 2 ^ width.
Proof.
  intros Hs Hw. apply field_value_of_bits; [lia | lia |].
  intros i Hi. rewrite write_field_testbit by lia.
  destruct (Z.leb_spec start i), (Z.ltb_spec i (start + width));
    simpl; try reflexivity; lia.
Qed.

Lemma apply_locks_no_locks (l : list (string * (Z * Z)))
    (combo_map : list (string * Z)) (locks : gmap string Z)
    (st : list diag * Z) :
  (forall f sw, In (f, sw) l -> dict_mem f combo_map = false ->
     locks !! f = None) ->
  apply_locks l combo_map locks st = st.
Proof.
  revert st. induction l as [| [g [s w]] rest IH]; intros [out val] H;
    [reflexivity |].
  rewrite apply_locks_cons.
  destruct (dict_mem g combo_map) eqn:Em.
  - apply IH. intros f sw Hin. apply (H f sw). right. exact Hin.
  - rewrite (H g (s, w) (or_introl eq_refl) Em).
    apply IH. intros f sw Hin. apply (H f sw). right. exact Hin.
Qed.

Lemma assemble_single_field_round_trip_aux (spec : opspec) (f : string)
    (start width v : Z) :
  wf_fields (fields spec) ->
  dict_get f (fields spec) = Some (start, width) ->
  assemble_value spec [(f, v)] ∅
    = ([], write_field (base spec) start width v) /\
  field_value (snd (assemble_value spec [(f, v)] ∅)) start width
    = v mod 2 ^ width.
Proof.
  intros Hwf Hg.
  destruct (wf_fields_In _ _ _ _ Hwf (dict_get_In _ _ _ Hg)) as [Hs Hw].
  assert (E : assemble_value spec [(f, v)] ∅
              = ([], write_field (base spec) start width v)).
  { unfold assemble_value. rewrite apply_locks_no_locks.
    - unfold apply_combo. cbn [fold_left]. rewrite Hg. reflexivity.
    - intros g sw _ _. apply lookup_empty. }
  split; [exact E |]. rewrite E. cbn [snd].
  apply field_value_write_field; assumption.
Qed.

(** X1: a single varied field reads back as the value written, reduced
    to the field's width: [assemble_value] returns the base with that one
    window replaced and prints no warning. *)
Theorem assemble_single_field_round_trip (spec : opspec) (f : string)
    (start width v : Z) :
  wf_fields (fields spec) ->
  dict_get f (fields spec) = Some (start, width) ->
  assemble_value spec [(f, v)] ∅
    = ([], write_field (base spec) start width v) /\
  field_value (snd (assemble_value spec [(f, v)] ∅)) start width
    = v mod 2 ^ width.
Proof. exact (assemble_single_field_round_trip_aux spec f start width v). Qed.

Lemma assemble_single_field_round_trip_witness :
  field_value (snd (assemble_value spec_SVC [("imm16", 0x12345)] ∅)) 5 16
    = 0x12345 mod 2 ^ 16.
Proof.
  apply (assemble_single_field_round_trip spec_SVC "imm16" 5 16 0x12345).
  - unfold wf_fields. repeat constructor; lia.
  - reflexivity.
Defined.

(** X2: when no field of the descriptor is varied or locked, the
    assembled value is the base and nothing is printed; in particular
    [assemble_value(spec, {}, {})] is [base]. *)
Theorem assemble_nothing_written_is_base (spec : opspec)
    (combo_map : list (string * Z)) (locks : gmap string Z) :
  (forall f sw, In (f, sw) (fields spec) ->
     dict_mem f combo_map = false /\ locks !! f = None) ->
  assemble_value spec combo_map locks = ([], base spec).
Proof.
  intros H. unfold assemble_value.
  rewrite apply_locks_no_locks by (intros f sw Hin _; apply (H f sw Hin)).
  f_equal. unfold apply_combo.
  assert (G : forall l val,
             (forall k x, In (k, x) l -> In (k, x) combo_map) ->
             fold_left
               (fun val '(fname, value) =>
                  match dict_get fname (fields spec) with
                  | Some (start, width) => write_field val start width value
                  | None => val
                  end) l val = val).
  { induction l as [| [k x] rest IH]; intros val Hsub; [reflexivity |].
    cbn [fold_left].
    destruct (dict_get k (fields spec)) as [[s w] |] eqn:E.
    - destruct (H k (s, w) (dict_get_In _ _ _ E)) as [Hm _].
      rewrite (In_dict_mem k x combo_map) in Hm
        by (apply Hsub; left; reflexivity).
      discriminate.
    - apply IH. intros k' x' Hin. apply Hsub. right. exact Hin. }
  apply G. auto.
Qed.

Lemma assemble_nothing_written_is_base_witness :
  assemble_value spec_ADD [("imm12", 7)] {["Rt" := 3]} = ([], 0x0B000000).
Proof.
  apply (assemble_nothing_written_is_base spec_ADD).
  intros f sw Hin. simpl in Hin.
  destruct Hin as [E | [E | [E | [E | [E | [E | []]]]]]];
    injection E as <- <-; split; reflexivity.
Defined.

Lemma write_field_same_window (val start width a b : Z) :
  0 <= start -> 0 <= width ->
  write_field (write_field val start width a) start width b
    = write_field val start width b.
Proof.
  intros Hs Hw. apply Z.bits_inj'. intros i Hi.
  rewrite !write_field_testbit by lia.
  destruct ((start <=? i) && (i <? start + width)); reflexivity.
Qed.

Lemma write_field_disjoint_comm (val s1 w1 a s2 w2 b : Z) :
  0 <= s1 -> 0 <= w1 -> 0 <= s2 -> 0 <= w2 ->
  s1 + w1 <= s2 \/ s2 + w2 <= s1 ->
  write_field (write_field val s1 w1 a) s2 w2 b
    = write_field (write_field val s2 w2 b) s1 w1 a.
Proof.
  intros H1 H2 H3 H4 Hd. apply Z.bits_inj'. intros i Hi.
  rewrite !write_field_testbit by lia.
  destruct (Z.leb_spec s1 i), (Z.ltb_spec i (s1 + w1)),
           (Z.leb_spec s2 i), (Z.ltb_spec i (s2 + w2));
    simpl; try reflexivity; lia.
Qed.

Lemma bits_high_zero_range (x : Z) :
  (forall i, 32 <= i -> Z.testbit x i = false) -> 0 <= x < 2 ^ 32.
Proof.
  intros H. assert (E : x = x mod 2 ^ 32).
  { apply Z.bits_inj'. intros i Hi.
    destruct (Z.lt_ge_cases i 32).
    - rewrite Z.mod_pow2_bits_low by lia. reflexivity.
    - rewrite Z.mod_pow2_bits_high by lia. apply H. lia. }
  rewrite E. apply Z.mod_pos_bound. lia.
Qed.

Lemma range_bits_high_zero (x i : Z) :
  0 <= x < 2 ^ 32 -> 32 <= i -> Z.testbit x i = false.
Proof.
  intros Hx Hi. rewrite <- (Z.mod_small x (2 ^ 32)) by lia.
  apply Z.mod_pow2_bits_high. lia.
Qed.

Lemma write_field_range (val start width v : Z) :
  0 <= val < 2 ^ 32 -> 0 <= start -> 0 <= width -> start + width <= 32 ->
  0 <= write_field val start width v < 2 ^ 32.
Proof.
  intros Hv Hs Hw Hb. apply bits_high_zero_range. intros i Hi.
  rewrite write_field_testbit by lia.
  destruct (Z.leb_spec start i), (Z.ltb_spec i (start + width));
    simpl; try lia; apply range_bits_high_zero; assumption.
Qed.


Lemma fields_in_word_wf (fs : list (string * (Z * Z))) :
  fields_in_word fs -> wf_fields fs.
Proof.
  unfold fields_in_word, wf_fields. apply List.Forall_impl.
  intros [f [s w]]. tauto.
Qed.

Lemma fields_in_word_In (fs : list (string * (Z * Z))) (f : string)
    (start width : Z) :
  fields_in_word fs -> In (f, (start, width)) fs ->
  0 <= start /\ 0 <= width /\ start + width <= 32.
Proof.
  unfold fields_in_word. rewrite List.Forall_forall. intros H Hin.
  apply (H _ Hin).
Qed.

Lemma apply_combo_range (fs : list (string * (Z * Z)))
    (combo_map : list (string * Z)) (val : Z) :
  fields_in_word fs -> 0 <= val < 2 ^ 32 ->
  0 <= apply_combo fs combo_map val < 2 ^ 32.
Proof.
  intros Hw. unfold apply_combo. revert val.
  induction combo_map as [| [f v] rest IH]; intros val Hv; [exact Hv |].
  cbn [fold_left]. apply IH.
  destruct (dict_get f fs) as [[s w] |] eqn:E; [| exact Hv].
  destruct (fields_in_word_In _ _ _ _ Hw (dict_get_In _ _ _ E))
    as (? & ? & ?).
  apply write_field_range; assumption.
Qed.

Lemma apply_locks_range (l : list (string * (Z * Z)))
    (combo_map : list (string * Z)) (locks : gmap string Z)
    (st : list diag * Z) :
  fields_in_word l -> 0 <= snd st < 2 ^ 32 ->
  0 <= snd (apply_locks l combo_map locks st) < 2 ^ 32.
Proof.
  revert st. induction l as [| [g [s w]] rest IH]; intros [out val] Hw Hv;
    [exact Hv |].
  rewrite apply_locks_cons.
  assert (Hw' : fields_in_word rest) by (inversion Hw; assumption).
  destruct (fields_in_word_In _ g s w Hw (or_introl eq_refl)) as (? & ? & ?).
  apply IH; [exact Hw' |].
  destruct (dict_mem g combo_map); [exact Hv |].
  destruct (locks !! g); [| exact Hv].
  cbn [snd] in *. apply write_field_range; assumption.
Qed.

(** X3: when the base is a 32-bit value and every field window lies in
    bits 0..31, the assembled value is a 32-bit value, whatever values
    (negative or oversized) are varied or locked. *)
Theorem assemble_value_fits_32_bits (spec : opspec)
    (combo_map : list (string * Z)) (locks : gmap string Z) :
  fields_in_word (fields spec) -> 0 <= base spec < 2 ^ 32 ->
  0 <= snd (assemble_value spec combo_map locks) < 2 ^ 32.
Proof.
  intros Hw Hb. unfold assemble_value.
  apply apply_locks_range; [exact Hw |]. cbn [snd].
  apply apply_combo_range; assumption.
Qed.

Lemma assemble_value_fits_32_bits_witness :
  0 <= snd (assemble_value spec_ADD [("Rd", -1); ("imm6", 2 ^ 40 + 5)]
              {["sf" := 99]}) < 2 ^ 32.
Proof.
  apply (assemble_value_fits_32_bits spec_ADD).
  - unfold fields_in_word. cbn. repeat constructor; lia.
  - cbn. lia.
Defined.

Lemma apply_locks_shadow (l : list (string * (Z * Z)))
    (combo_map : list (string * Z)) (locks locks' : gmap string Z)
    (st : list diag * Z) :
  (forall f, dict_mem f combo_map = false -> locks !! f = locks' !! f) ->
  apply_locks l combo_map locks st = apply_locks l combo_map locks' st.
Proof.
  intros H. revert st.
  induction l as [| [g [s w]] rest IH]; intros [out val]; [reflexivity |].
  rewrite !apply_locks_cons.
  destruct (dict_mem g combo_map) eqn:Em; [apply IH |].
  rewrite (H g Em). apply IH.
Qed.

(** X4: at assembly a varied value takes precedence over a lock of the
    same field: the result, warnings included, depends on the lock set
    only through the fields that are not in the varied map. *)
Theorem assemble_value_varied_shadows_lock (spec : opspec)
    (combo_map : list (string * Z)) (locks locks' : gmap string Z) :
  (forall f, dict_mem f combo_map = false -> locks !! f = locks' !! f) ->
  assemble_value spec combo_map locks = assemble_value spec combo_map locks'.
Proof.
  intros H. unfold assemble_value. apply apply_locks_shadow, H.
Qed.

Lemma assemble_value_varied_shadows_lock_witness :
  assemble_value spec_ADD [("Rd", 3)] {["Rd" := 77; "sf" := 1]}
    = assemble_value spec_ADD [("Rd", 3)] {["sf" := 1]}.
Proof.
  apply assemble_value_varied_shadows_lock.
  intros f Hm. destruct (String.eqb_spec f "Rd") as [-> | Hne].
  - vm_compute in Hm. discriminate.
  - rewrite lookup_insert_ne by congruence. reflexivity.
Defined.

Lemma apply_locks_warn_sound (l : list (string * (Z * Z)))
    (combo_map : list (string * Z)) (locks : gmap string Z)
    (st : list diag * Z) (d : diag) :
  In d (fst (apply_locks l combo_map locks st)) ->
  In d (fst st) \/
  exists f raw s w,
    d = WarnLockExceedsWidth f raw /\ In (f, (s, w)) l /\
    dict_mem f combo_map = false /\ locks !! f = Some raw /\
    raw >= Z.shiftl 1 w.
Proof.
  revert st. induction l as [| [g [s w]] rest IH]; intros [out val] Hin;
    [left; exact Hin |].
  rewrite apply_locks_cons in Hin. apply IH in Hin.
  destruct Hin as [Hin | (f & raw & s' & w' & H1 & H2 & H3)].
  2: { right. exists f, raw, s', w'.
       split; [exact H1 |]. split; [right; exact H2 | exact H3]. }
  destruct (dict_mem g combo_map) eqn:Em; [left; exact Hin |].
  destruct (locks !! g) as [lv |] eqn:El; [| left; exact Hin].
  cbn [fst] in Hin. destruct (lv >=? Z.shiftl 1 w) eqn:E;
    [| left; exact Hin].
  apply in_app_or in Hin as [Hin | [<- | []]]; [left; exact Hin |].
  right. exists g, lv, s, w.
  split; [reflexivity |]. split; [left; reflexivity |].
  split; [exact Em |]. split; [exact El | lia].
Qed.

(** X5: [assemble_value] warns exactly about the locks it writes that do
    not fit: a warning for field [f] and value [raw] is printed if and
    only if [f] is a field of the descriptor of some width [w], is not in
    the varied map, is locked to [raw], and [raw >= 2^w]; nothing else is
    printed, so a negative lock is truncated without any warning. *)
Theorem assemble_value_warns_exactly (spec : opspec)
    (combo_map : list (string * Z)) (locks : gmap string Z) (d : diag) :
  In d (fst (assemble_value spec combo_map locks)) <->
  exists f raw s w,
    d = WarnLockExceedsWidth f raw /\ In (f, (s, w)) (fields spec) /\
    dict_mem f combo_map = false /\ locks !! f = Some raw /\
    raw >= Z.shiftl 1 w.
Proof.
  unfold assemble_value. split.
  - intros H. apply apply_locks_warn_sound in H as [[] | H]. exact H.
  - intros (f & raw & s & w & -> & Hin & Hm & Hl & Hge).
    apply (apply_locks_warns _ _ _ _ f s w raw); assumption.
Qed.

Lemma assemble_value_warns_exactly_witness :
  In (WarnLockExceedsWidth "Rd" 32)
     (fst (assemble_value spec_ADD [] {["Rd" := 32]})).
Proof.
  apply (proj2 (assemble_value_warns_exactly spec_ADD [] {["Rd" := 32]}
                  (WarnLockExceedsWidth "Rd" 32))).
  exists "Rd", 32, 0, 5.
  split; [reflexivity |]. split; [left; reflexivity |].
  split; [reflexivity |]. split; [reflexivity |]. vm_compute. discriminate.
Defined.

Lemma assemble_value_negative_lock_silent :
  assemble_value spec_ADD [] {["Rd" := -1]} = ([], 0x0B00001F).
Proof. vm_compute. reflexivity. Qed.

(* ================================================================== *)
(** * Order of the varied map, violations, pattern, highlights *)
(* ================================================================== *)

Lemma dict_mem_true_iff {V : Type} (k : string) (d : list (string * V)) :
  dict_mem k d = true <-> exists v, In (k, v) d.
Proof.
  split.
  - unfold dict_mem. destruct (dict_get k d) as [v |] eqn:E; [| discriminate].
    intros _. exists v. apply dict_get_In, E.
  - intros [v H]. apply (In_dict_mem k v), H.
Qed.

Lemma dict_mem_perm {V : Type} (k : string) (d d' : list (string * V)) :
  Permutation d d' -> dict_mem k d = dict_mem k d'.
Proof.
  intros P.
  destruct (dict_mem k d) eqn:E1, (dict_mem k d') eqn:E2; try reflexivity.
  - apply dict_mem_true_iff in E1 as [v H].
    rewrite (In_dict_mem k v d') in E2; [discriminate |].
    apply (Permutation_in _ P), H.
  - apply dict_mem_true_iff in E2 as [v H].
    rewrite (In_dict_mem k v d) in E1; [discriminate |].
    apply (Permutation_in _ (Permutation_sym P)), H.
Qed.

Lemma apply_locks_ext (l : list (string * (Z * Z)))
    (c1 c2 : list (string * Z)) (locks : gmap string Z)
    (st : list diag * Z) :
  (forall f, dict_mem f c1 = dict_mem f c2) ->
  apply_locks l c1 locks st = apply_locks l c2 locks st.
Proof.
  intros H. revert st.
  induction l as [| [g [s w]] rest IH]; intros [out val]; [reflexivity |].
  rewrite !apply_locks_cons, (H g). apply IH.
Qed.

Lemma apply_combo_perm (fs : list (string * (Z * Z)))
    (c1 c2 : list (string * Z)) :
  wf_fields fs -> disjoint_fields fs ->
  Permutation c1 c2 -> List.NoDup (map fst c1) ->
  forall val, apply_combo fs c1 val = apply_combo fs c2 val.
Proof.
  intros Hwf Hdis P. unfold apply_combo.
  induction P as [| [f v] l l' P IH | [f v] [g u] l | l l' l'' P1 IH1 P2 IH2];
    intros Hnd val.
  - reflexivity.
  - cbn [fold_left]. apply IH. inversion Hnd; assumption.
  - cbn [fold_left].
    assert (Hne : g <> f).
    { cbn in Hnd. inversion Hnd as [| ? ? Hnotin _]. subst.
      intros ->. apply Hnotin. left. reflexivity. }
    f_equal.
    destruct (dict_get g fs) as [[s2 w2] |] eqn:E2;
      destruct (dict_get f fs) as [[s1 w1] |] eqn:E1; try reflexivity.
    pose proof (dict_get_In _ _ _ E1) as I1.
    pose proof (dict_get_In _ _ _ E2) as I2.
    destruct (wf_fields_In _ _ _ _ Hwf I1), (wf_fields_In _ _ _ _ Hwf I2).
    apply write_field_disjoint_comm; try assumption.
    destruct (Hdis g s2 w2 f s1 w1 I2 I1 Hne); lia.
  - rewrite IH1 by exact Hnd. apply IH2.
    apply (Permutation_NoDup (Permutation_map fst P1)), Hnd.
Qed.

(** X6: for a descriptor whose fields have disjoint windows, the result
    of [assemble_value] does not depend on the order of the entries of the
    varied map. *)
Theorem assemble_value_order_irrelevant (spec : opspec)
    (c1 c2 : list (string * Z)) (locks : gmap string Z) :
  wf_fields (fields spec) -> disjoint_fields (fields spec) ->
  Permutation c1 c2 -> List.NoDup (map fst c1) ->
  assemble_value spec c1 locks = assemble_value spec c2 locks.
Proof.
  intros Hwf Hdis P Hnd. unfold assemble_value.
  rewrite (apply_combo_perm _ c1 c2 Hwf Hdis P Hnd).
  apply apply_locks_ext. intros f. apply dict_mem_perm, P.
Qed.

Lemma disjoint_dataproc_reg_fields : disjoint_fields dataproc_reg_fields.
Proof.
  intros f1 s1 w1 f2 s2 w2 H1 H2 Hne. simpl in H1, H2.
  destruct H1 as [E | [E | [E | [E | [E | [E | []]]]]]];
    injection E as <- <- <-;
    destruct H2 as [E | [E | [E | [E | [E | [E | []]]]]]];
    injection E as <- <- <-; try lia; congruence.
Qed.

Lemma assemble_value_order_irrelevant_witness :
  assemble_value spec_ADD [("Rd", 3); ("sf", 1); ("Rn", 4)] ∅
    = assemble_value spec_ADD [("Rn", 4); ("Rd", 3); ("sf", 1)] ∅.
Proof.
  apply assemble_value_order_irrelevant.
  - exact wf_dataproc_reg_fields.
  - exact disjoint_dataproc_reg_fields.
  - apply Permutation_sym, (Permutation_cons_app [("Rd", 3); ("sf", 1)] []).
    reflexivity.
  - cbn. repeat (constructor; [simpl; intuition discriminate |]).
    constructor.
Defined.

Lemma unmasked_writes_class (spec : opspec)
    (combo_map : list (string * Z)) (locks : gmap string Z) (i : Z) :
  0 <= i ->
  wf_fields (fields spec) ->
  (forall f start width,
     In (f, (start, width)) (fields spec) ->
     dict_mem f combo_map = true \/ is_Some (locks !! f) ->
     Z.land (Z.shiftl (Z.shiftl 1 width - 1) start) (mask spec) = 0) ->
  fst (colorize_bit (base spec) (mask spec)
         (snd (assemble_value spec combo_map locks)) i) <> Red.
Proof.
  intros Hi Hwf Hun. rewrite colorize_bit_class by exact Hi.
  destruct (Z.testbit (mask spec) i) eqn:M.
  2: { destruct (Bool.eqb _ _); discriminate. }
  assert (Hout : forall f start width,
            In (f, (start, width)) (fields spec) ->
            dict_mem f combo_map = true \/ is_Some (locks !! f) ->
            ~ (start <= i < start + width)).
  { intros f start width Hin Hw Hwin.
    destruct (wf_fields_In _ _ _ _ Hwf Hin).
    rewrite (unmasked_window (mask spec) start width i) in M;
      [discriminate | lia | lia | | exact Hwin].
    apply (Hun f start width Hin Hw). }
  unfold assemble_value.
  rewrite apply_locks_frame; [| exact Hi | exact Hwf |].
  - cbn [snd]. rewrite apply_combo_frame; [| exact Hi | exact Hwf |].
    + rewrite eqb_reflx. discriminate.
    + intros f v start width Hin Hget.
      apply (Hout f start width (dict_get_In _ _ _ Hget)).
      left. apply (In_dict_mem _ v), Hin.
  - intros f start width Hin _ Hl. apply (Hout f start width Hin).
    right. exact Hl.
Qed.

(** X7: when every field that is written (varied, or locked and not
    varied) has a window that meets no bit of the descriptor mask, no bit
    of the assembled value is coloured as a violation: the row
    [colorize_bits] prints holds bare digits and yellow digits only, no
    red text. *)
Theorem unmasked_writes_never_violate (spec : opspec)
    (combo_map : list (string * Z)) (locks : gmap string Z) (i : Z) :
  0 <= i ->
  wf_fields (fields spec) ->
  (forall f start width,
     In (f, (start, width)) (fields spec) ->
     dict_mem f combo_map = true \/ is_Some (locks !! f) ->
     Z.land (Z.shiftl (Z.shiftl 1 width - 1) start) (mask spec) = 0) ->
  fst (colorize_bit (base spec) (mask spec)
         (snd (assemble_value spec combo_map locks)) i) <> Red /\
  (let val := snd (assemble_value spec combo_map locks) in
   let digit := fun j : Z => if Z.testbit val j then "1" else "0" in
   colorize_bits (base spec) (mask spec) val
     = fold_right String.append EmptyString
         (map (fun j =>
                 if Bool.eqb (Z.testbit val j) (Z.testbit (base spec) j)
                 then digit j
                 else String "027"%char "[1;33m" +:+ digit j
                      +:+ String "027"%char "[0m")
              (map (fun k => 31 - Z.of_nat k) (seq 0 32)))).
Proof.
  intros Hi Hwf Hun.
  split; [apply unmasked_writes_class; assumption |].
  cbv zeta. apply colorize_bits_row. intros j Hj.
  rewrite render_colorize_bit by lia. cbv zeta.
  destruct (Bool.eqb _ _) eqn:E; [reflexivity |].
  destruct (Z.testbit (mask spec) j) eqn:M; [| reflexivity].
  exfalso.
  apply (unmasked_writes_class spec combo_map locks j ltac:(lia) Hwf Hun).
  rewrite colorize_bit_class, E, M by lia. reflexivity.
Qed.

Lemma unmasked_writes_never_violate_witness :
  fst (colorize_bit (base spec_ADD) (mask spec_ADD)
         (snd (assemble_value spec_ADD [("Rd", 3)] {["sf" := 1]})) 31)
    <> Red /\
  colorize_bits (base spec_ADD) (mask spec_ADD)
      (snd (assemble_value spec_ADD [("Rd", 3)] {["sf" := 1]}))
    = String "027"%char "[1;33m1" +:+ String "027"%char "[0m"
      +:+ "00010110000000000000000000000"
      +:+ String "027"%char "[1;33m1" +:+ String "027"%char "[0m"
      +:+ String "027"%char "[1;33m1" +:+ String "027"%char "[0m".
Proof.
  assert (H : forall f start width,
     In (f, (start, width)) (fields spec_ADD) ->
     dict_mem f [("Rd", 3)] = true
     \/ is_Some (({["sf" := 1]} : gmap string Z) !! f) ->
     Z.land (Z.shiftl (Z.shiftl 1 width - 1) start) (mask spec_ADD) = 0).
  { intros f start width Hin Hw. simpl in Hin.
    destruct Hin as [E | [E | [E | [E | [E | [E | []]]]]]];
      injection E as <- <- <-; try reflexivity;
      destruct Hw as [Hw | [x Hx]]; vm_compute in *; congruence. }
  destruct (unmasked_writes_never_violate spec_ADD [("Rd", 3)]
              {["sf" := 1]} 31 ltac:(lia) wf_dataproc_reg_fields H)
    as [H1 H2].
  split; [exact H1 |]. rewrite H2. vm_compute. reflexivity.
Defined.

Lemma pattern_bit_char (base mask i : Z) :
  0 <= i ->
  pattern_bit base mask i = String (pattern_ascii base mask i) EmptyString.
Proof.
  intros Hi. unfold pattern_bit, pattern_ascii.
  rewrite !bit_testbit by exact Hi.
  destruct (Z.testbit mask i), (Z.testbit base i); reflexivity.
Qed.

Lemma pattern_ascii_x (base mask i : Z) :
  Ascii.eqb (pattern_ascii base mask i) "x" = negb (Z.testbit mask i).
Proof.
  unfold pattern_ascii.
  destruct (Z.testbit mask i), (Z.testbit base i); reflexivity.
Qed.

Lemma bit_indices_nonneg (i : Z) : In i bit_indices -> 0 <= i <= 31.
Proof. unfold bit_indices. cbn. lia. Qed.

Lemma bit_indices_In (i : Z) : 0 <= i <= 31 -> In i bit_indices.
Proof.
  intros H. unfold bit_indices. apply in_map_iff.
  exists (Z.to_nat (31 - i)). split; [lia | apply in_seq; lia].
Qed.

Lemma get_binary_pattern_chars (base mask : Z) :
  get_binary_pattern base mask =
  join " " (map (fun i => String.substring i 4
                   (concat_str (map (fun i => String (pattern_ascii base mask i)
                                                     EmptyString)
                                    bit_indices)))
                (map (fun k => (4 * k)%nat) (seq 0 8))).
Proof.
  unfold get_binary_pattern.
  rewrite (map_ext_in (pattern_bit base mask)
             (fun i => String (pattern_ascii base mask i) EmptyString)).
  - reflexivity.
  - intros i Hi. apply pattern_bit_char. apply bit_indices_nonneg in Hi. lia.
Qed.

Lemma length_filter_countb {A} (p : A -> bool) (l : list A) :
  length (List.filter p l) = countb p l.
Proof.
  induction l as [| a r IH]; [reflexivity |].
  cbn. destruct (p a); cbn; rewrite IH; reflexivity.
Qed.

(** X8: the pattern of [get_binary_pattern] always has 39 characters
    (32 and seven separating spaces); the character that stands for bit
    [i] is [x] when the mask leaves the bit free and the base bit
    otherwise; so the number of [x] is the number of bits 0..31 that are
    clear in the mask. *)
Theorem get_binary_pattern_shape (base mask : Z) :
  String.length (get_binary_pattern base mask) = 39%nat /\
  (forall i, 0 <= i <= 31 ->
     String.get (Z.to_nat ((31 - i) + (31 - i) / 4))
                (get_binary_pattern base mask)
       = Some (pattern_ascii base mask i)) /\
  count_char "x" (get_binary_pattern base mask)
    = length (List.filter (fun i => negb (Z.testbit mask i)) bit_indices) /\
  count_char " " (get_binary_pattern base mask) = 7%nat.
Proof.
  rewrite get_binary_pattern_chars, length_filter_countb.
  pose proof (pattern_ascii_x base mask) as Hx.
  assert (Hsp : forall i, Ascii.eqb (pattern_ascii base mask i) " " = false).
  { intros i. unfold pattern_ascii.
    destruct (Z.testbit mask i), (Z.testbit base i); reflexivity. }
  revert Hx Hsp. generalize (pattern_ascii base mask) as f. intros f Hx Hsp.
  match goal with
  | |- context [join " " ?l] =>
    assert (E : join " " l =
      String (f 31) (String (f 30) (String (f 29) (String (f 28) (
      String (" "%char) (String (f 27) (String (f 26) (String (f 25) (
      String (f 24) (String (" "%char) (String (f 23) (String (f 22) (
      String (f 21) (String (f 20) (String (" "%char) (String (f 19) (
      String (f 18) (String (f 17) (String (f 16) (String (" "%char) (
      String (f 15) (String (f 14) (String (f 13) (String (f 12) (
      String (" "%char) (String (f 11) (String (f 10) (String (f 9) (
      String (f 8) (String (" "%char) (String (f 7) (String (f 6) (
      String (f 5) (String (f 4) (String (" "%char) (String (f 3) (
      String (f 2) (String (f 1) (String (f 0) (EmptyString
      ))))))))))))))))))))))))))))))))))))))))
    by reflexivity
  end.
  rewrite E. clear E.
  split; [reflexivity |]. split; [| split].
  - intros i Hi. apply bit_indices_In in Hi. unfold bit_indices in Hi.
    cbn in Hi.
    repeat (destruct Hi as [<- | Hi]; [reflexivity |]). destruct Hi.
  - cbn [count_char]. rewrite !Hx. reflexivity.
  - cbn [count_char]. rewrite !Hsp. reflexivity.
Qed.

Lemma get_binary_pattern_shape_witness :
  String.get (Z.to_nat ((31 - 24) + (31 - 24) / 4))
             (get_binary_pattern 0x0B000000 0x7FE00000)
    = Some (pattern_ascii 0x0B000000 0x7FE00000 24).
Proof.
  apply (proj1 (proj2 (get_binary_pattern_shape 0x0B000000 0x7FE00000))).
  lia.
Defined.

Lemma field_mask_testbit (start width i : Z) :
  0 <= start -> 0 <= width -> 0 <= i ->
  Z.testbit (Z.shiftl (Z.shiftl 1 width - 1) start) i
    = (start <=? i) && (i <? start + width).
Proof.
  intros Hs Hw Hi. rewrite Z.shiftl_spec, field_mask_ones, ones_testbit by lia.
  destruct (Z.leb_spec 0 (i - start)), (Z.leb_spec start i),
           (Z.ltb_spec (i - start) width), (Z.ltb_spec i (start + width));
    simpl; try reflexivity; lia.
Qed.

Lemma land_field_mask_shift (x start width : Z) :
  0 <= start -> 0 <= width ->
  Z.land x (Z.shiftl (Z.shiftl 1 width - 1) start)
    = Z.shiftl (field_value x start width) start.
Proof.
  intros Hs Hw. unfold field_value. apply Z.bits_inj'. intros i Hi.
  rewrite Z.shiftl_spec by lia.
  destruct (Z.lt_ge_cases i start).
  - rewrite (Z.testbit_neg_r _ (i - start)) by lia.
    rewrite Z.land_spec, field_mask_testbit by lia.
    replace (start <=? i) with false by (symmetry; apply Z.leb_gt; lia).
    apply andb_false_r.
  - rewrite Z.shiftr_spec by lia. f_equal. lia.
Qed.

Lemma land_field_mask_eq_iff (x y start width : Z) :
  0 <= start -> 0 <= width ->
  Z.land x (Z.shiftl (Z.shiftl 1 width - 1) start)
    = Z.land y (Z.shiftl (Z.shiftl 1 width - 1) start)
  <-> field_value x start width = field_value y start width.
Proof.
  intros Hs Hw. split.
  - intros H. unfold field_value. rewrite H. reflexivity.
  - intros H. rewrite !land_field_mask_shift, H by lia. reflexivity.
Qed.

(** A value equal to the base shows no highlight. *)
Lemma field_highlights_base (base mask : Z)
    (fields : list (string * (Z * Z))) :
  field_highlights base mask base fields = [].
Proof.
  unfold field_highlights.
  induction fields as [| [f [s w]] r IH]; [reflexivity |].
  cbn [flat_map]. rewrite IH, Z.eqb_refl.
  destruct (_ =? 0); reflexivity.
Qed.

Lemma field_highlights_cons (base mask val : Z) (g : string) (s w : Z)
    (r : list (string * (Z * Z))) :
  field_highlights base mask val ((g, (s, w)) :: r) =
  (let field_mask := Z.shiftl (Z.shiftl 1 w - 1) s in
   if Z.land field_mask mask =? 0 then
     if negb (Z.land base field_mask =? Z.land val field_mask)
     then [(g, Z.shiftr (Z.land val field_mask) s)] else []
   else [])
  ++ field_highlights base mask val r.
Proof. reflexivity. Qed.

Lemma dict_mem_cons {V : Type} (k g : string) (x : V)
    (r : list (string * V)) :
  dict_mem k ((g, x) :: r) = String.eqb k g || dict_mem k r.
Proof.
  unfold dict_mem. cbn [dict_get]. destruct (String.eqb k g); reflexivity.
Qed.

Lemma field_highlights_single (base mask v : Z) (f : string)
    (start width : Z) (l : list (string * (Z * Z))) :
  0 <= start -> 0 <= width ->
  wf_fields l -> List.NoDup (map fst l) ->
  (forall s w, In (f, (s, w)) l -> (s, w) = (start, width)) ->
  (forall g s w, In (g, (s, w)) l -> g <> f ->
     s + w <= start \/ start + width <= s) ->
  Z.land (Z.shiftl (Z.shiftl 1 width - 1) start) mask = 0 ->
  field_highlights base mask (write_field base start width v) l =
    if dict_mem f l then
      if field_value base start width =? v mod 2 ^ width then []
      else [(f, v mod 2 ^ width)]
    else [].
Proof.
  intros Hs Hw Hwf Hnd Hsame Hdis Hun.
  induction l as [| [g [s w]] r IH]; [reflexivity |].
  rewrite field_highlights_cons, dict_mem_cons.
  assert (Hwf' : wf_fields r) by (inversion Hwf; assumption).
  destruct (wf_fields_In _ g s w Hwf (or_introl eq_refl)) as [Hgs Hgw].
  cbn [map fst] in Hnd. apply List.NoDup_cons_iff in Hnd as [Hnotin Hnd'].
  specialize (IH Hwf' Hnd'
                (fun s' w' H => Hsame s' w' (or_intror H))
                (fun g' s' w' H => Hdis g' s' w' (or_intror H))).
  rewrite IH. clear IH.
  destruct (String.eqb_spec f g) as [<- | Hne]; cbn [orb].
  - injection (Hsame s w (or_introl eq_refl)) as -> ->.
    assert (Hm : dict_mem f r = false).
    { destruct (dict_mem f r) eqn:E; [| reflexivity].
      apply dict_mem_true_iff in E as [x Hx]. exfalso. apply Hnotin.
      apply (in_map fst) in Hx. exact Hx. }
    rewrite Hm, app_nil_r. cbn zeta. rewrite Hun, Z.eqb_refl.
    fold (field_value (write_field base start width v) start width).
    rewrite field_value_write_field by lia.
    destruct (Z.eqb_spec (field_value base start width) (v mod 2 ^ width))
      as [E | E].
    + replace (Z.land base _ =? Z.land (write_field base start width v) _)
        with true; [reflexivity |].
      symmetry. apply Z.eqb_eq, land_field_mask_eq_iff; [lia | lia |].
      rewrite field_value_write_field by lia. exact E.
    + replace (Z.land base _ =? Z.land (write_field base start width v) _)
        with false; [reflexivity |].
      symmetry. apply Z.eqb_neq. intros H.
      apply land_field_mask_eq_iff in H; [| lia | lia].
      rewrite field_value_write_field in H by lia. contradiction.
  - cbn zeta.
    assert (E : Z.land base (Z.shiftl (Z.shiftl 1 w - 1) s)
                = Z.land (write_field base start width v)
                         (Z.shiftl (Z.shiftl 1 w - 1) s)).
    { apply Z.bits_inj'. intros i Hi.
      rewrite !Z.land_spec, field_mask_testbit, write_field_testbit by lia.
      specialize (Hdis g s w (or_introl eq_refl) (not_eq_sym Hne)).
      destruct (Z.leb_spec s i), (Z.ltb_spec i (s + w)),
               (Z.leb_spec start i), (Z.ltb_spec i (start + width));
        simpl; rewrite ?andb_false_r, ?andb_true_r; try reflexivity; lia. }
    rewrite <- E, Z.eqb_refl. cbn [negb].
    destruct (_ =? 0); reflexivity.
Qed.

(** X9: the highlight column names exactly what was varied: for a
    descriptor with distinct, disjoint fields, after a single field whose
    window meets no mask bit is set to [v], [get_field_highlights] lists
    that field alone, with [v] reduced to the field's width, and lists
    nothing when that equals the base's own field value: the text returned
    is [f=0x] followed by the upper-case hex digits of that value, or
    empty; a value equal to the base has no highlight at all. *)
Theorem highlights_show_the_varied_field (spec : opspec) (f : string)
    (start width v : Z) :
  wf_fields (fields spec) -> List.NoDup (map fst (fields spec)) ->
  disjoint_fields (fields spec) ->
  In (f, (start, width)) (fields spec) ->
  Z.land (Z.shiftl (Z.shiftl 1 width - 1) start) (mask spec) = 0 ->
  field_highlights (base spec) (mask spec)
      (snd (assemble_value spec [(f, v)] ∅)) (fields spec)
    = (if field_value (base spec) start width =? v mod 2 ^ width then []
       else [(f, v mod 2 ^ width)]) /\
  get_field_highlights (base spec) (mask spec) (base spec) (fields spec)
    = EmptyString /\
  get_field_highlights (base spec) (mask spec)
      (snd (assemble_value spec [(f, v)] ∅)) (fields spec)
    = (if field_value (base spec) start width =? v mod 2 ^ width
       then EmptyString
       else f +:+ "=0x" +:+ PyStr.hex_digits_upper (v mod 2 ^ width)).
Proof.
  intros Hwf Hnd Hdis Hin Hun.
  destruct (wf_fields_In _ _ _ _ Hwf Hin) as [Hs Hw].
  assert (Hsame : forall s w, In (f, (s, w)) (fields spec) ->
                              (s, w) = (start, width)).
  { intros s w H.
    destruct (Z.eq_dec s start) as [-> | Hne1];
      [destruct (Z.eq_dec w width) as [-> | Hne2]; [reflexivity |] |].
    - exfalso. clear -Hnd Hin H Hne2.
      induction (fields spec) as [| [g sw] r IH]; [destruct Hin |].
      cbn [map fst] in Hnd. apply List.NoDup_cons_iff in Hnd as [Hn Hnd].
      destruct Hin as [[= -> ->] | Hin], H as [[= ->] | H].
      + congruence.
      + apply Hn. apply (in_map fst) in H. exact H.
      + subst. apply Hn. apply (in_map fst) in Hin. exact Hin.
      + apply IH; assumption.
    - exfalso. clear -Hnd Hin H Hne1.
      induction (fields spec) as [| [g sw] r IH]; [destruct Hin |].
      cbn [map fst] in Hnd. apply List.NoDup_cons_iff in Hnd as [Hn Hnd].
      destruct Hin as [[= -> ->] | Hin], H as [[= ->] | H].
      + congruence.
      + apply Hn. apply (in_map fst) in H. exact H.
      + subst. apply Hn. apply (in_map fst) in Hin. exact Hin.
      + apply IH; assumption. }
  assert (Hg : dict_get f (fields spec) = Some (start, width)).
  { destruct (dict_get f (fields spec)) as [[s w] |] eqn:E.
    - rewrite (Hsame s w (dict_get_In _ _ _ E)). reflexivity.
    - pose proof (In_dict_mem f (start, width) _ Hin) as Hm.
      unfold dict_mem in Hm. rewrite E in Hm. discriminate. }
  assert (Hlist :
    field_highlights (base spec) (mask spec)
        (snd (assemble_value spec [(f, v)] ∅)) (fields spec)
      = (if field_value (base spec) start width =? v mod 2 ^ width then []
         else [(f, v mod 2 ^ width)])).
  { destruct (assemble_single_field_round_trip_aux spec f start width v
                Hwf Hg) as [E _].
    rewrite E. cbn [snd].
    rewrite (field_highlights_single (base spec) (mask spec) v f start width);
      try assumption.
    + rewrite (In_dict_mem f (start, width) _ Hin). reflexivity.
    + intros g s w Hing Hne.
      destruct (Hdis g s w f start width Hing Hin Hne); lia. }
  split; [exact Hlist |]. split.
  - unfold get_field_highlights. rewrite field_highlights_base. reflexivity.
  - unfold get_field_highlights. rewrite Hlist.
    destruct (_ =? _); reflexivity.
Qed.

Lemma highlights_show_the_varied_field_witness :
  field_highlights (base spec_ADD) (mask spec_ADD)
      (snd (assemble_value spec_ADD [("Rd", 37)] ∅)) (fields spec_ADD)
    = [("Rd", 5)] /\
  get_field_highlights (base spec_ADD) (mask spec_ADD) (base spec_ADD)
      (fields spec_ADD) = EmptyString /\
  get_field_highlights (base spec_ADD) (mask spec_ADD)
      (snd (assemble_value spec_ADD [("Rd", 37)] ∅)) (fields spec_ADD)
    = "Rd=0x5".
Proof.
  apply (highlights_show_the_varied_field spec_ADD "Rd" 0 5 37).
  - exact wf_dataproc_reg_fields.
  - exact nodup_dataproc_reg_fields.
  - exact disjoint_dataproc_reg_fields.
  - left. reflexivity.
  - reflexivity.
Defined.

(* ================================================================== *)
(** * Enumeration domains and the exploration loop *)
(* ================================================================== *)

Lemma py_range0_bounds (stop step : Z) (r : list Z) :
  0 < stop -> py_range0 stop step = Ret r ->
  Forall (fun v => 0 <= v < stop) r.
Proof.
  intros Hstop. unfold py_range0.
  destruct (Z.eqb_spec step 0) as [-> | Hne]; [discriminate |].
  intros [= <-]. apply List.Forall_forall. intros v Hv.
  apply in_map_iff in Hv as (k & <- & Hk). apply in_seq in Hk.
  destruct (Z.ltb_spec 0 step) as [Hpos | Hneg].
  - assert (Hq : Z.of_nat k < (stop + step - 1) / step) by lia.
    assert (Hle : Z.of_nat k + 1 <= (stop + step - 1) / step) by lia.
    pose proof (Z.mul_div_le (stop + step - 1) step Hpos) as Hm.
    nia.
  - exfalso.
    assert (Hs : step < 0) by lia.
    assert (Hq : (stop + step + 1) / step <= 0).
    { rewrite <- Z.div_opp_opp by lia.
      assert (- (stop + step + 1) / - step < 1); [| lia].
      apply Z.div_lt_upper_bound; lia. }
    lia.
Qed.

Lemma py_range0_unit_step (stop : Z) :
  py_range0 stop 1 = Ret (map Z.of_nat (seq 0 (Z.to_nat stop))).
Proof.
  unfold py_range0. cbn [Z.eqb Z.ltb Z.compare].
  replace ((stop + 1 - 1) / 1) with stop by (rewrite Z.div_1_r; lia).
  f_equal. apply map_ext. intros k. lia.
Qed.

Lemma py_range0_starts_at_zero (stop step : Z) (r : list Z) :
  0 < stop -> 0 < step -> py_range0 stop step = Ret r ->
  exists r', r = 0 :: r'.
Proof.
  intros Hstop Hstep. unfold py_range0.
  destruct (Z.eqb_spec step 0); [lia |].
  destruct (Z.ltb_spec 0 step); [| lia].
  intros [= <-].
  assert (Hn : 1 <= (stop + step - 1) / step).
  { apply Z.div_le_lower_bound; lia. }
  destruct (Z.to_nat ((stop + step - 1) / step)) as [| m] eqn:E; [lia |].
  cbn [seq map]. eexists. reflexivity.
Qed.

(** What [build_domains] holds at each position of [order]: a valid field
    name and its domain, a single masked value for a locked field and a
    range for an unlocked one. *)
Lemma build_domains_nth (fields : list (string * (Z * Z)))
    (vary_fields : list string) (locks : gmap string Z) (step : Z) :
  forall (out : list diag) (doms : list (list Z)) (order : list string),
    build_domains fields vary_fields locks step = Ret (out, doms, order) ->
    forall (n : nat) (fname : string),
      order !! n = Some fname ->
      exists start width dom,
        dict_get fname fields = Some (start, width) /\
        doms !! n = Some dom /\
        match locks !! fname with
        | Some raw => dom = [Z.land raw (Z.shiftl 1 width - 1)]
        | None =>
            py_range0 (Z.shiftl 1 width) (actual_step_of width step) = Ret dom
        end.
Proof.
  induction vary_fields as [| f rest IH]; intros out doms order H.
  - injection H as <- <- <-. intros n fname Hn. destruct n; discriminate.
  - cbn [build_domains] in H.
    destruct (dict_get f fields) as [[s w] |] eqn:Ef;
      [| apply (IH out doms order H)].
    destruct (build_domains fields rest locks step)
      as [[[outs ds] ord] | e] eqn:Er.
    + specialize (IH outs ds ord eq_refl).
      destruct (locks !! f) as [lv |] eqn:El.
      * cbn in H. injection H as <- <- <-.
        intros [| n] fname Hn.
        -- injection Hn as <-. exists s, w, [Z.land lv (Z.shiftl 1 w - 1)].
           rewrite El. repeat split; assumption || reflexivity.
        -- apply (IH n fname Hn).
      * fold (actual_step_of w step) in H.
        destruct (py_range0 _ _) as [r | e] eqn:Ep; cbn in H;
          [| discriminate].
        injection H as <- <- <-.
        intros [| n] fname Hn.
        -- injection Hn as <-. exists s, w, r.
           rewrite El. repeat split; assumption || reflexivity.
        -- apply (IH n fname Hn).
    + destruct (locks !! f); cbn in H; [discriminate |].
      destruct (py_range0 _ _); cbn in H; discriminate.
Qed.

(** X10: every value in an enumeration domain fits its field: whatever
    the step and the locks, the domain built for a field of width [w]
    holds only values in [0, 2^w); an unlocked field of width at most 2 is
    enumerated exhaustively whatever the step, and with a step of at least
    1 the domain of any unlocked field starts with 0. *)
Theorem enumeration_domains_fit_their_fields
    (fields : list (string * (Z * Z))) (vary_fields : list string)
    (locks : gmap string Z) (step : Z) (out : list diag)
    (doms : list (list Z)) (order : list string) (n : nat) (fname : string) :
  wf_fields fields ->
  build_domains fields vary_fields locks step = Ret (out, doms, order) ->
  order !! n = Some fname ->
  exists start width dom,
    dict_get fname fields = Some (start, width) /\
    doms !! n = Some dom /\
    Forall (fun v => 0 <= v < 2 ^ width) dom /\
    (locks !! fname = None -> width <= 2 ->
       dom = map Z.of_nat (seq 0 (Z.to_nat (2 ^ width)))) /\
    (locks !! fname = None -> 1 <= step -> exists dom', dom = 0 :: dom').
Proof.
  intros Hwf Hb Hn.
  destruct (build_domains_nth _ _ _ _ _ _ _ Hb n fname Hn)
    as (start & width & dom & Hg & Hd & Hdom).
  destruct (wf_fields_In _ _ _ _ Hwf (dict_get_In _ _ _ Hg)) as [Hs Hw].
  assert (Hpow : 0 < 2 ^ width) by (apply Z.pow_pos_nonneg; lia).
  exists start, width, dom. repeat split; try assumption.
  - destruct (locks !! fname) as [raw |].
    + subst dom. constructor; [| constructor].
      rewrite land_field_mask_mod by lia. apply Z.mod_pos_bound. lia.
    + rewrite shiftl_1_pow in Hdom by lia.
      apply (py_range0_bounds _ _ _ Hpow Hdom).
  - intros Hl Hsmall. rewrite Hl in Hdom.
    unfold actual_step_of in Hdom. rewrite shiftl_1_pow in Hdom by lia.
    replace (2 ^ width >? 0) with true in Hdom by (symmetry; lia).
    replace (width <=? 2) with true in Hdom by (symmetry; lia).
    rewrite Z.min_l in Hdom by lia.
    rewrite py_range0_unit_step in Hdom. injection Hdom as <-. reflexivity.
  - intros Hl Hstep. rewrite Hl in Hdom.
    unfold actual_step_of in Hdom. rewrite shiftl_1_pow in Hdom by lia.
    replace (2 ^ width >? 0) with true in Hdom by (symmetry; lia).
    apply (py_range0_starts_at_zero _ _ _ Hpow) in Hdom; [exact Hdom |].
    destruct (width <=? 2); lia.
Qed.

Lemma enumeration_domains_fit_their_fields_witness :
  exists start width dom,
    dict_get "imm6" dataproc_reg_fields = Some (start, width) /\
    [[0; 1]; [0; 20; 40; 60]] !! 1%nat = Some dom /\
    Forall (fun v => 0 <= v < 2 ^ width) dom /\
    ((∅ : gmap string Z) !! "imm6" = None -> width <= 2 ->
       dom = map Z.of_nat (seq 0 (Z.to_nat (2 ^ width)))) /\
    ((∅ : gmap string Z) !! "imm6" = None -> 1 <= 20 ->
       exists dom', dom = 0 :: dom').
Proof.
  apply (enumeration_domains_fit_their_fields dataproc_reg_fields
           ["sf"; "imm6"] ∅ 20 [] [[0; 1]; [0; 20; 40; 60]] ["sf"; "imm6"]
           1 "imm6").
  - exact wf_dataproc_reg_fields.
  - vm_compute. reflexivity.
  - reflexivity.
Defined.

Lemma build_domains_zero_step (fields : list (string * (Z * Z)))
    (vary_fields : list string) (locks : gmap string Z) (fname : string)
    (start width : Z) :
  In fname vary_fields ->
  dict_get fname fields = Some (start, width) -> 2 < width ->
  locks !! fname = None ->
  build_domains fields vary_fields locks 0 = Raise ValueError.
Proof.
  intros Hin Hg Hw Hl.
  induction vary_fields as [| f rest IH]; [destruct Hin |].
  cbn [build_domains].
  destruct (String.eqb_spec f fname) as [-> | Hne].
  - rewrite Hg, Hl.
    assert (Hp : 0 < 2 ^ width) by (apply Z.pow_pos_nonneg; lia).
    rewrite shiftl_1_pow by lia.
    replace (2 ^ width >? 0) with true by (symmetry; lia).
    replace (width <=? 2) with false by (symmetry; lia).
    rewrite Z.min_l by lia. reflexivity.
  - destruct Hin as [-> | Hin]; [congruence |]. specialize (IH Hin).
    rewrite IH.
    destruct (dict_get f fields) as [[s w] |]; [| reflexivity].
    destruct (locks !! f); [reflexivity |].
    unfold py_range0. destruct (_ =? 0); reflexivity.
Qed.

Lemma product_with_empty (doms : list (list Z)) :
  In [] doms -> product doms = [].
Proof.
  induction doms as [| d ds IH]; [intros [] |].
  intros [-> | Hin]; [reflexivity |].
  cbn [product]. rewrite (IH Hin).
  induction d as [| x d IHd]; [reflexivity | exact IHd].
Qed.

Lemma py_range0_negative_step (stop step : Z) :
  0 < stop -> step < 0 -> py_range0 stop step = Ret [].
Proof.
  intros Hstop Hstep. unfold py_range0.
  destruct (Z.eqb_spec step 0); [lia |].
  destruct (Z.ltb_spec 0 step); [lia |].
  assert (Hq : (stop + step + 1) / step <= 0).
  { rewrite <- Z.div_opp_opp by lia.
    assert (- (stop + step + 1) / - step < 1); [| lia].
    apply Z.div_lt_upper_bound; lia. }
  destruct (Z.to_nat ((stop + step + 1) / step)) eqn:E; [reflexivity | lia].
Qed.

(** X11: the step is not validated.  When a field to vary is unlocked and
    wider than 2 bits, a step of 0 makes the enumeration raise
    [ValueError] (from [range]) before anything is yielded, and a negative
    step makes it yield nothing at all. *)
Theorem iterate_field_space_bad_step (fields : list (string * (Z * Z)))
    (vary_fields : list string) (locks : gmap string Z) (fname : string)
    (start width step : Z) :
  wf_fields fields ->
  In fname vary_fields ->
  dict_get fname fields = Some (start, width) -> 2 < width ->
  locks !! fname = None ->
  iterate_field_space fields vary_fields locks 0 = Raise ValueError /\
  (step < 0 ->
   exists out, iterate_field_space fields vary_fields locks step
               = Ret (out, [])).
Proof.
  intros Hwf Hin Hg Hw Hl. split.
  - unfold iterate_field_space.
    rewrite (build_domains_zero_step _ _ _ fname start width Hin Hg Hw Hl).
    reflexivity.
  - intros Hstep. unfold iterate_field_space.
    destruct (build_domains fields vary_fields locks step)
      as [[[out doms] order] | e] eqn:Eb.
    + cbn.
      assert (Hnil : is_nil vary_fields = false)
        by (destruct vary_fields; [destruct Hin | reflexivity]).
      rewrite Hnil. cbn [andb negb].
      apply (In_nth_error vary_fields) in Hin as [k Hk].
      (* the position of [fname] in [order] *)
      assert (Hex : exists n, order !! n = Some fname).
      { clear -Eb Hk Hg. revert out doms order k Eb Hk.
        induction vary_fields as [| f rest IH]; intros out doms order k Eb Hk;
          [destruct k; discriminate |].
        cbn [build_domains] in Eb.
        destruct k as [| k].
        - injection Hk as ->. rewrite Hg in Eb.
          destruct (build_domains fields rest locks step)
            as [[[outs ds] ord] |];
            [| destruct (locks !! fname); cbn in Eb; [discriminate |];
               destruct (py_range0 _ _); cbn in Eb; discriminate].
          destruct (locks !! fname); [| destruct (py_range0 _ _)];
            cbn in Eb; try discriminate;
            injection Eb as <- <- <-; exists 0%nat; reflexivity.
        - cbn in Hk.
          destruct (dict_get f fields) as [[s w] |];
            [| apply (IH out doms order k Eb Hk)].
          destruct (build_domains fields rest locks step)
            as [[[outs ds] ord] |] eqn:Er;
            [| destruct (locks !! f); cbn in Eb; [discriminate |];
               destruct (py_range0 _ _); cbn in Eb; discriminate].
          destruct (IH outs ds ord k eq_refl Hk) as [n Hn].
          destruct (locks !! f); [| destruct (py_range0 _ _)];
            cbn in Eb; try discriminate;
            injection Eb as <- <- <-; exists (S n); exact Hn. }
      destruct Hex as [n Hn].
      destruct (build_domains_nth _ _ _ _ _ _ _ Eb n fname Hn)
        as (s' & w' & dom & Hg' & Hd & Hdom).
      rewrite Hg in Hg'. injection Hg' as <- <-. rewrite Hl in Hdom.
      assert (Hp : 0 < 2 ^ width) by (apply Z.pow_pos_nonneg; lia).
      unfold actual_step_of in Hdom. rewrite shiftl_1_pow in Hdom by lia.
      replace (2 ^ width >? 0) with true in Hdom by (symmetry; lia).
      replace (width <=? 2) with false in Hdom by (symmetry; lia).
      rewrite Z.min_l, py_range0_negative_step in Hdom by lia.
      injection Hdom as <-.
      assert (Hdn : is_nil doms = false)
        by (destruct doms; [destruct n; discriminate | reflexivity]).
      rewrite Hdn. cbn [andb].
      rewrite product_with_empty.
      * eexists. reflexivity.
      * apply list_elem_of_In, list_elem_of_lookup. exists n. exact Hd.
    + exfalso.
      (* with a negative step no range raises *)
      clear -Eb Hstep Hwf. revert e Eb.
      induction vary_fields as [| f rest IH]; intros e Eb; [discriminate |].
      cbn [build_domains] in Eb.
      destruct (dict_get f fields) as [[s w] |] eqn:Ef; [| apply (IH e Eb)].
      destruct (wf_fields_In _ _ _ _ Hwf (dict_get_In _ _ _ Ef)) as [_ Hw].
      assert (Hp : 0 < 2 ^ w) by (apply Z.pow_pos_nonneg; lia).
      assert (Hr : exists r, py_range0 (Z.shiftl 1 w)
                               (if Z.shiftl 1 w >? 0
                                then Z.min (if w <=? 2 then 1 else step)
                                           (Z.shiftl 1 w)
                                else 1) = Ret r).
      { rewrite shiftl_1_pow by lia.
        replace (2 ^ w >? 0) with true by (symmetry; lia).
        unfold py_range0.
        destruct (Z.eqb_spec (Z.min (if w <=? 2 then 1 else step) (2 ^ w)) 0)
          as [E | E]; [| eexists; reflexivity].
        destruct (w <=? 2); lia. }
      destruct Hr as [r Hr]. rewrite Hr in Eb.
      destruct (build_domains fields rest locks step)
        as [[[outs ds] ord] | e'] eqn:Er.
      * destruct (locks !! f); cbn in Eb; discriminate.
      * apply (IH e' eq_refl).
Qed.

Lemma iterate_field_space_bad_step_witness :
  iterate_field_space dataproc_reg_fields ["sf"; "Rd"] ∅ 0
    = Raise ValueError /\
  exists out, iterate_field_space dataproc_reg_fields ["sf"; "Rd"] ∅ (-3)
              = Ret (out, []).
Proof.
  destruct (iterate_field_space_bad_step dataproc_reg_fields ["sf"; "Rd"] ∅
              "Rd" 0 5 (-3)) as [H0 Hneg];
    [exact wf_dataproc_reg_fields | right; left; reflexivity | reflexivity
    | lia | reflexivity |].
  split; [exact H0 | apply Hneg; lia].
Defined.

Lemma explore_loop_firstn (spec : opspec) (locks : gmap string Z)
    (combos : list (list (string * Z))) (count limit : Z) :
  count < limit ->
  snd (explore_loop spec locks combos count limit)
    = map (fun c => snd (assemble_value spec c locks))
          (firstn (Z.to_nat (limit - count)) combos).
Proof.
  revert count. induction combos as [| c rest IH]; intros count Hlt.
  - cbn. rewrite firstn_nil. reflexivity.
  - cbn [explore_loop].
    destruct (assemble_value spec c locks) as [w val] eqn:Ea.
    destruct (Z.to_nat (limit - count)) as [| k] eqn:Ek; [lia |].
    cbn [firstn map]. rewrite Ea. cbn [snd].
    destruct (count + 1 >=? limit) eqn:E.
    + assert (k = 0%nat) by lia. subst k. reflexivity.
    + specialize (IH (count + 1) ltac:(lia)).
      destruct (explore_loop spec locks rest (count + 1) limit) as [ws vals].
      cbn [snd] in *. rewrite IH.
      replace (Z.to_nat (limit - (count + 1))) with k by lia. reflexivity.
Qed.

Lemma filter_all_valid (fs : list (string * (Z * Z))) (l : list string) :
  Forall (fun f => dict_mem f fs = true) l ->
  filter (fun f => dict_mem f fs = true) l = l.
Proof.
  induction 1 as [| f l Hf _ IH]; [reflexivity |].
  rewrite filter_cons_True by exact Hf. rewrite IH. reflexivity.
Qed.

Lemma filter_none_valid (fs : list (string * (Z * Z))) (l : list string) :
  Forall (fun f => dict_mem f fs = false) l ->
  filter (fun f => dict_mem f fs = true) l = [].
Proof.
  induction 1 as [| f l Hf _ IH]; [reflexivity |].
  rewrite filter_cons_False by (rewrite Hf; discriminate). exact IH.
Qed.

(** X12: with a cap of at least 1, a descriptor that has fields and a
    vary list of valid names (or none, meaning all fields), exploration
    prints exactly the values assembled from the first [limit] maps of the
    enumeration, in order: all of them when there are fewer than [limit]. *)
Theorem explore_opcode_prints_first_combinations (opname : string)
    (spec : opspec) (limit step : Z) (vary_fields : list string)
    (locks : gmap string Z) (w : list diag)
    (combos : list (list (string * Z))) :
  1 <= limit ->
  fields spec <> [] ->
  Forall (fun f => dict_mem f (fields spec) = true) vary_fields ->
  iterate_field_space (fields spec)
    (if is_nil vary_fields then map fst (fields spec) else vary_fields)
    locks step = Ret (w, combos) ->
  exists out,
    explore_opcode opname spec limit step vary_fields locks
      = Ret (out, map (fun c => snd (assemble_value spec c locks))
                      (firstn (Z.to_nat limit) combos)).
Proof.
  intros Hlim Hf Hvalid Hit. unfold explore_opcode.
  assert (Hfn : is_nil (fields spec) = false)
    by (destruct (fields spec); [congruence | reflexivity]).
  destruct vary_fields as [| v vs].
  - cbn [is_nil] in *. rewrite Hfn.
    assert (Hm : is_nil (map fst (fields spec)) = false)
      by (destruct (fields spec); [congruence | reflexivity]).
    rewrite Hm. cbn [andb]. rewrite Hit. cbn.
    pose proof (explore_loop_firstn spec locks combos 0 limit ltac:(lia)) as E.
    destruct (explore_loop spec locks combos 0 limit) as [ws vals].
    cbn [snd] in E. rewrite E, Z.sub_0_r. eexists. reflexivity.
  - cbn [is_nil] in Hit |- *. rewrite (filter_all_valid _ _ Hvalid).
    rewrite bool_decide_eq_false_2 by (intros H; apply H; reflexivity).
    cbn [is_nil andb]. rewrite Hfn. cbn [andb]. rewrite Hit. cbn.
    pose proof (explore_loop_firstn spec locks combos 0 limit ltac:(lia)) as E.
    destruct (explore_loop spec locks combos 0 limit) as [ws vals].
    cbn [snd] in E. rewrite E, Z.sub_0_r. eexists. reflexivity.
Qed.

Lemma explore_opcode_prints_first_combinations_witness :
  exists out,
    explore_opcode "ADD" spec_ADD 3 4 ["sf"; "shift"] ∅
      = Ret (out, [0x0B000000; 0x0B400000; 0x0B800000]).
Proof.
  destruct (explore_opcode_prints_first_combinations "ADD" spec_ADD 3 4
              ["sf"; "shift"] ∅ []
              [[("sf", 0); ("shift", 0)]; [("sf", 0); ("shift", 1)];
               [("sf", 0); ("shift", 2)]; [("sf", 0); ("shift", 3)];
               [("sf", 1); ("shift", 0)]; [("sf", 1); ("shift", 1)];
               [("sf", 1); ("shift", 2)]; [("sf", 1); ("shift", 3)]])
    as [out H];
    [lia | discriminate | repeat constructor | vm_compute; reflexivity |].
  exists out. rewrite H. vm_compute. reflexivity.
Defined.

(** X13: when [--vary] names only fields the descriptor does not have,
    exploration warns twice and prints exactly one value, the base with
    the locks applied, whatever the cap (even 0 or negative) and the
    step. *)
Theorem explore_opcode_only_invalid_vary (opname : string) (spec : opspec)
    (limit step : Z) (vary_fields : list string) (locks : gmap string Z) :
  vary_fields <> [] -> fields spec <> [] ->
  Forall (fun f => dict_mem f (fields spec) = false) vary_fields ->
  explore_opcode opname spec limit step vary_fields locks
    = Ret ([WarnInvalidVary opname; WarnNothingToVary opname]
             ++ fst (assemble_value spec [] locks),
           [snd (assemble_value spec [] locks)]).
Proof.
  intros Hv Hf Hinv. unfold explore_opcode.
  assert (Hfn : is_nil (fields spec) = false)
    by (destruct (fields spec); [congruence | reflexivity]).
  destruct vary_fields as [| v vs]; [congruence |].
  cbn [is_nil]. rewrite (filter_none_valid _ _ Hinv).
  rewrite bool_decide_eq_true_2 by (cbn; lia).
  cbn [is_nil andb]. rewrite Hfn. cbn.
  destruct (assemble_value spec [] locks) as [w val]. reflexivity.
Qed.

Lemma explore_opcode_only_invalid_vary_witness :
  explore_opcode "ADD" spec_ADD 0 4 ["imm12"; "Rt"] {["Rd" := 3]}
    = Ret ([WarnInvalidVary "ADD"; WarnNothingToVary "ADD"], [0x0B000003]).
Proof.
  rewrite (explore_opcode_only_invalid_vary "ADD" spec_ADD 0 4
             ["imm12"; "Rt"] {["Rd" := 3]});
    [vm_compute; reflexivity | discriminate | discriminate
    | repeat constructor].
Defined.

(* ================================================================== *)
(** * Emulator: the register file as a store *)
(* ================================================================== *)

Lemma upper_char_idem (c : ascii) :
  PyStr.upper_char (PyStr.upper_char c) = PyStr.upper_char c.
Proof. destruct c as [[] [] [] [] [] [] [] []]; vm_compute; reflexivity. Qed.

Lemma upper_idem (s : string) : PyStr.upper (PyStr.upper s) = PyStr.upper s.
Proof.
  induction s as [| c r IH]; [reflexivity |].
  cbn [PyStr.upper]. rewrite upper_char_idem, IH. reflexivity.
Qed.

Lemma prefix_empty (r : string) : String.prefix EmptyString r = true.
Proof. destruct r; reflexivity. Qed.

Lemma set_reg_slot (regs : gmap string Z) (reg_name : string) (value : Z) :
  set_reg regs reg_name value =
    match reg_slot reg_name with
    | Some k =>
        <[k := if PyStr.startswith "W" (PyStr.upper reg_name)
                  && negb (PyStr.startswith "X" (PyStr.upper reg_name))
               then (value mod 2 ^ 64) mod 2 ^ 32 else value mod 2 ^ 64]> regs
    | None => regs
    end.
Proof.
  unfold set_reg, reg_slot. rewrite mask64_mod, mask32_mod.
  destruct (_ || _); [reflexivity |].
  destruct (PyStr.startswith "X" _).
  { rewrite andb_false_r. reflexivity. }
  destruct (PyStr.startswith "W" _); [reflexivity |].
  destruct (String.eqb _ "SP"); reflexivity.
Qed.

Lemma get_reg_slot (regs : gmap string Z) (reg_name : string) :
  get_reg regs reg_name =
    match reg_slot reg_name with
    | Some k =>
        if PyStr.startswith "W" (PyStr.upper reg_name)
           && negb (PyStr.startswith "X" (PyStr.upper reg_name))
        then regs_get regs k mod 2 ^ 32 else regs_get regs k
    | None => 0
    end.
Proof.
  unfold get_reg, reg_slot. rewrite mask32_mod.
  destruct (String.eqb (PyStr.upper reg_name) "XZR"); [reflexivity |].
  destruct (String.eqb (PyStr.upper reg_name) "WZR"); [reflexivity |].
  cbn [orb].
  destruct (PyStr.startswith "X" _).
  { rewrite andb_false_r. reflexivity. }
  destruct (PyStr.startswith "W" _); [reflexivity |].
  destruct (String.eqb _ "SP"); reflexivity.
Qed.

Lemma get_reg_after_set_reg_aux (regs : gmap string Z) (reg_name : string)
    (value : Z) :
  (forall r, PyStr.upper reg_name = String "X" r -> r <> "ZR" ->
     get_reg (set_reg regs reg_name value) reg_name = value mod 2 ^ 64) /\
  (forall r, PyStr.upper reg_name = String "W" r -> r <> "ZR" ->
     get_reg (set_reg regs reg_name value) reg_name = value mod 2 ^ 32 /\
     get_reg (set_reg regs reg_name value) (String "X" r)
       = value mod 2 ^ 32) /\
  (PyStr.upper reg_name = "SP" ->
     get_reg (set_reg regs reg_name value) reg_name = value mod 2 ^ 64) /\
  (reg_slot reg_name = None ->
     get_reg (set_reg regs reg_name value) reg_name = 0).
Proof.
  assert (Hmm : (value mod 2 ^ 64) mod 2 ^ 32 = value mod 2 ^ 32).
  { apply Z.mod_mod_divide. exists (2 ^ 32). reflexivity. }
  split; [| split; [| split]].
  - intros r Hu Hr. rewrite get_reg_slot, set_reg_slot.
    unfold reg_slot. rewrite Hu. cbn.
    destruct (String.eqb_spec r "ZR"); [contradiction |]. cbn.
    rewrite !prefix_empty.
    unfold regs_get. rewrite lookup_insert_eq. reflexivity.
  - intros r Hu Hr.
    assert (Hux : PyStr.upper (String "X" r) = String "X" r).
    { pose proof (upper_idem reg_name) as H. rewrite Hu in H.
      cbn [PyStr.upper] in H |- *. injection H as H. rewrite H.
      reflexivity. }
    rewrite !get_reg_slot, set_reg_slot.
    unfold reg_slot. rewrite Hu, Hux. cbn.
    destruct (String.eqb_spec r "ZR"); [contradiction |]. cbn.
    rewrite !prefix_empty. cbn.
    unfold regs_get. rewrite lookup_insert_eq. cbn [default id].
    change ("X" +:+ r) with (String "X" r).
    rewrite lookup_insert_eq. cbn [default].
    rewrite Hmm, Z.mod_mod by lia. split; reflexivity.
  - intros Hu. rewrite get_reg_slot, set_reg_slot.
    unfold reg_slot. rewrite Hu. cbn.
    unfold regs_get. rewrite lookup_insert_eq. reflexivity.
  - intros Hn. rewrite get_reg_slot, Hn. reflexivity.
Qed.

(** X14: a register reads back what was written to it: an [X] register
    or [SP] the value modulo [2^64], a [W] register the value modulo
    [2^32]; after a write to [Wn] the whole of [Xn] is that 32-bit value
    (the upper half is cleared); the zero register reads 0 even after a
    write. *)
Theorem get_reg_after_set_reg (regs : gmap string Z) (reg_name : string)
    (value : Z) :
  (forall r, PyStr.upper reg_name = String "X" r -> r <> "ZR" ->
     get_reg (set_reg regs reg_name value) reg_name = value mod 2 ^ 64) /\
  (forall r, PyStr.upper reg_name = String "W" r -> r <> "ZR" ->
     get_reg (set_reg regs reg_name value) reg_name = value mod 2 ^ 32 /\
     get_reg (set_reg regs reg_name value) (String "X" r)
       = value mod 2 ^ 32) /\
  (PyStr.upper reg_name = "SP" ->
     get_reg (set_reg regs reg_name value) reg_name = value mod 2 ^ 64) /\
  (reg_slot reg_name = None ->
     get_reg (set_reg regs reg_name value) reg_name = 0).
Proof. exact (get_reg_after_set_reg_aux regs reg_name value). Qed.

Lemma get_reg_after_set_reg_witness :
  get_reg (set_reg init_regs "w5" (2 ^ 40 + 7)) "w5" = (2 ^ 40 + 7) mod 2 ^ 32
  /\ get_reg (set_reg init_regs "w5" (2 ^ 40 + 7)) "X5"
     = (2 ^ 40 + 7) mod 2 ^ 32.
Proof.
  apply (proj1 (proj2 (get_reg_after_set_reg init_regs "w5" (2 ^ 40 + 7)))
           "5"); [reflexivity | discriminate].
Defined.

(** X15: a write to one register leaves every other register as it was:
    reading [b] after writing [a] gives the old value of [b] whenever the
    two names do not share a slot ([Wn] shares the slot of [Xn]). *)
Theorem set_reg_keeps_other_registers (regs : gmap string Z)
    (a b : string) (value : Z) :
  reg_slot a <> reg_slot b ->
  get_reg (set_reg regs a value) b = get_reg regs b.
Proof.
  intros Hne. rewrite !get_reg_slot, set_reg_slot.
  destruct (reg_slot a) as [ka |]; [| reflexivity].
  destruct (reg_slot b) as [kb |]; [| reflexivity].
  unfold regs_get. rewrite lookup_insert_ne by congruence. reflexivity.
Qed.

Lemma set_reg_keeps_other_registers_witness :
  get_reg (set_reg (set_reg init_regs "X1" 9) "W2" 5) "x1"
    = get_reg (set_reg init_regs "X1" 9) "x1".
Proof.
  apply set_reg_keeps_other_registers. vm_compute. discriminate.
Defined.

Lemma init_regs_zero (k : string) (v : Z) :
  init_regs !! k = Some v -> v = 0.
Proof.
  unfold init_regs. rewrite lookup_insert.
  case_decide as Hk; [intros [= <-]; reflexivity |].
  intros Hl. apply elem_of_list_to_map_2 in Hl.
  apply list_elem_of_In, in_map_iff in Hl as (i & [= _ <-] & _). reflexivity.
Qed.

Lemma execute_keeps_range (regs : gmap string Z) (mnemonic op_str : string) :
  (forall k v, regs !! k = Some v -> 0 <= v < 2 ^ 64) ->
  forall k v, fst (execute regs mnemonic op_str) !! k = Some v ->
              0 <= v < 2 ^ 64.
Proof.
  intros Hinv k v.
  pose proof (execute_body_shape regs mnemonic op_str) as S.
  unfold execute.
  inversion S as [Hr Hb | e Hr Hb | rd x s Hhd Hs Hr Hb | s Hs Hr Hb];
    cbn [fst]; try apply Hinv.
  intros H. apply set_reg_range in H as [H | H]; [apply (Hinv k v H) | exact H].
Qed.

(** X16: starting from the initial register file, after any sequence of
    [execute] calls, whatever their mnemonics and operand texts, every
    register read is a value in [0, 2^64). *)
Theorem emulator_reads_stay_in_range (prog : list (string * string))
    (reg_name : string) :
  0 <= get_reg (run prog init_regs) reg_name < 2 ^ 64.
Proof.
  assert (Hinv : forall k v, run prog init_regs !! k = Some v ->
                             0 <= v < 2 ^ 64).
  { unfold run.
    assert (G : forall regs,
               (forall k v, regs !! k = Some v -> 0 <= v < 2 ^ 64) ->
               forall k v,
                 fold_left (fun r p => fst (execute r (fst p) (snd p)))
                   prog regs !! k = Some v -> 0 <= v < 2 ^ 64).
    { induction prog as [| [m o] rest IH]; intros regs Hr; [exact Hr |].
      cbn [fold_left fst snd]. apply IH.
      apply execute_keeps_range, Hr. }
    apply G. intros k v H. apply init_regs_zero in H. lia. }
  rewrite get_reg_slot.
  destruct (reg_slot reg_name) as [k |]; [| lia].
  assert (Hk : 0 <= regs_get (run prog init_regs) k < 2 ^ 64).
  { unfold regs_get. destruct (run prog init_regs !! k) as [v |] eqn:E;
      [apply (Hinv k v E) | cbn; lia]. }
  destruct (_ && _); [| exact Hk].
  pose proof (Z.mod_pos_bound (regs_get (run prog init_regs) k) (2 ^ 32)
                ltac:(lia)).
  lia.
Qed.

(* ================================================================== *)
(** * Emulator: moves, logical operations, add then subtract *)
(* ================================================================== *)

(** X17: [MOV] with a register source copies the source's value; with an
    immediate in 0..0xFFFF it stores the immediate; with any other
    immediate (larger, or negative) it changes no register and still
    returns a non-empty narrative flagged "(complex immediate)". *)
Theorem execute_mov_behaviour (regs : gmap string Z)
    (op_str rd src : string) :
  op_parts op_str = [rd; src] ->
  (PyStr.contains "#" op_str = false ->
     execute regs "MOV" op_str
       = (set_reg regs rd (get_reg regs src),
          "; " +:+ rd +:+ " = " +:+ src +:+ " = "
          +:+ PyStr.fmt_hex (get_reg regs src))) /\
  (PyStr.contains "#" op_str = true ->
   forall imm : Z, int0 (PyStr.remove "#" src) = Ret imm ->
     (0 <= imm <= 0xFFFF ->
        execute regs "MOV" op_str
          = (set_reg regs rd imm,
             "; " +:+ rd +:+ " = " +:+ PyStr.fmt_hex imm)) /\
     (~ (0 <= imm <= 0xFFFF) ->
        execute regs "MOV" op_str
          = (regs, "; " +:+ rd +:+ " = " +:+ PyStr.fmt_hex imm
                   +:+ " (complex immediate)"))).
Proof.
  intros Hp. split.
  - intros Hh. unfold execute, execute_body. rewrite Hp, Hh. reflexivity.
  - intros Hh imm Hi. unfold execute, execute_body.
    rewrite Hp, Hh. cbn. rewrite Hi. cbn. split; intros Hr.
    + replace (0 <=? imm) with true by (symmetry; lia).
      replace (imm <=? 65535) with true by (symmetry; lia). reflexivity.
    + destruct (Z.leb_spec 0 imm), (Z.leb_spec imm 65535);
        try reflexivity; lia.
Qed.

Lemma execute_mov_behaviour_witness :
  execute init_regs "MOV" "X0, #0x12345"
    = (init_regs, "; X0 = 0x12345 (complex immediate)").
Proof.
  destruct (execute_mov_behaviour init_regs "X0, #0x12345" "X0" "#0x12345"
              eq_refl) as [_ H].
  destruct (H eq_refl 0x12345 eq_refl) as [_ H2].
  rewrite H2; [reflexivity | lia].
Defined.

(** X18: on an [X] register that holds a 64-bit value, adding an
    immediate and then subtracting the same immediate restores the
    register, also when the addition wraps around. *)
Theorem execute_add_then_sub_restores (regs : gmap string Z)
    (op_str rd c r : string) (imm : Z) :
  op_parts op_str = [rd; rd; c] ->
  PyStr.contains "#" op_str = true ->
  int0 (PyStr.remove "#" c) = Ret imm ->
  PyStr.upper rd = String "X" r -> r <> "ZR" ->
  0 <= get_reg regs rd < 2 ^ 64 ->
  get_reg (fst (execute (fst (execute regs "ADD" op_str)) "SUB" op_str)) rd
    = get_reg regs rd.
Proof.
  intros Hp Hh Hi Hu Hr Hrange.
  destruct (execute_add_sub_result regs op_str rd rd c Hp) as [Ha _].
  destruct (Ha Hh imm Hi) as [Hadd _].
  rewrite Hadd.
  destruct (execute_add_sub_result
              (set_reg regs rd ((get_reg regs rd + imm) mod 2 ^ 64))
              op_str rd rd c Hp) as [Hs _].
  destruct (Hs Hh imm Hi) as [_ Hsub].
  rewrite Hsub.
  destruct (get_reg_after_set_reg_aux regs rd
              ((get_reg regs rd + imm) mod 2 ^ 64)) as [HX _].
  rewrite (HX r Hu Hr).
  destruct (get_reg_after_set_reg_aux
              (set_reg regs rd ((get_reg regs rd + imm) mod 2 ^ 64)) rd
              ((((get_reg regs rd + imm) mod 2 ^ 64) mod 2 ^ 64 - imm)
                 mod 2 ^ 64)) as [HX2 _].
  rewrite (HX2 r Hu Hr).
  rewrite !Z.mod_mod by lia.
  rewrite Zminus_mod_idemp_l.
  replace (get_reg regs rd + imm - imm) with (get_reg regs rd) by lia.
  apply Z.mod_small. exact Hrange.
Qed.

Lemma execute_add_then_sub_restores_witness :
  let regs := set_reg init_regs "X7" (2 ^ 64 - 1) in
  get_reg (fst (execute (fst (execute regs "ADD" "x7, x7, #5"))
                  "SUB" "x7, x7, #5")) "x7"
    = get_reg regs "x7".
Proof.
  intros regs.
  apply (execute_add_then_sub_restores regs "x7, x7, #5" "x7" "#5" "7" 5);
    try reflexivity; [discriminate | vm_compute; split; congruence].
Defined.

(** X19: [AND], [ORR] and [EOR] store the bitwise result of their two
    register sources (reduced to 64 bits); an operand text that contains
    [#] makes all three return the empty narrative and change nothing:
    their immediate forms are not emulated. *)
Theorem execute_logical_behaviour (regs : gmap string Z)
    (op_str : string) :
  (forall rd rn rm,
     op_parts op_str = [rd; rn; rm] ->
     PyStr.contains "#" op_str = false ->
     fst (execute regs "AND" op_str)
       = set_reg regs rd (Z.land (get_reg regs rn) (get_reg regs rm)) /\
     fst (execute regs "ORR" op_str)
       = set_reg regs rd (Z.lor (get_reg regs rn) (get_reg regs rm)) /\
     fst (execute regs "EOR" op_str)
       = set_reg regs rd (Z.lxor (get_reg regs rn) (get_reg regs rm))) /\
  (PyStr.contains "#" op_str = true ->
     execute regs "AND" op_str = (regs, EmptyString) /\
     execute regs "ORR" op_str = (regs, EmptyString) /\
     execute regs "EOR" op_str = (regs, EmptyString)).
Proof.
  split.
  - intros rd rn rm Hp Hh. unfold execute, execute_body.
    rewrite Hp, Hh. repeat split; reflexivity.
  - intros Hh. unfold execute, execute_body. rewrite Hh.
    repeat split; reflexivity.
Qed.

Lemma execute_logical_behaviour_witness :
  execute init_regs "AND" "X0, X1, #0xff" = (init_regs, EmptyString).
Proof.
  apply (proj2 (execute_logical_behaviour init_regs "X0, X1, #0xff")).
  reflexivity.
Defined.

(* ================================================================== *)
(** * Assembler and catalog agree on the immediate forms *)
(* ================================================================== *)

Lemma small_testbit_high (v w j : Z) :
  0 <= v < 2 ^ w -> w <= j -> Z.testbit v j = false.
Proof.
  intros Hv Hj.
  destruct (Z.lt_ge_cases w 0) as [Hneg | Hw].
  - rewrite Z.pow_neg_r in Hv by lia. lia.
  - rewrite <- (Z.mod_small v (2 ^ w)) by lia.
    apply Z.mod_pow2_bits_high. lia.
Qed.

(** Writing a value that fits into a window that is all zero is an OR
    with the shifted value. *)
Lemma write_field_lor (val start width v : Z) :
  0 <= start -> 0 <= width -> 0 <= v < 2 ^ width ->
  (forall i, start <= i < start + width -> Z.testbit val i = false) ->
  write_field val start width v = Z.lor val (Z.shiftl v start).
Proof.
  intros Hs Hw Hv Hz. apply Z.bits_inj'. intros i Hi.
  rewrite write_field_testbit, Z.lor_spec, Z.shiftl_spec by lia.
  destruct (Z.leb_spec start i), (Z.ltb_spec i (start + width)); simpl.
  - rewrite Hz by lia. reflexivity.
  - rewrite (small_testbit_high v width) by lia.
    rewrite orb_false_r. reflexivity.
  - rewrite (Z.testbit_neg_r v) by lia. rewrite orb_false_r. reflexivity.
  - rewrite (Z.testbit_neg_r v) by lia. rewrite orb_false_r. reflexivity.
Qed.

Ltac low_bits_zero :=
  let i := fresh "i" in
  let Hi := fresh "Hi" in
  intros i Hi;
  rewrite ?Z.lor_spec;
  repeat rewrite Z.shiftl_spec by lia;
  repeat rewrite (Z.testbit_neg_r _ (i - _)) by lia;
  reflexivity.

Lemma assemble_no_locks (spec : opspec) (combo_map : list (string * Z)) :
  assemble_value spec combo_map ∅
    = ([], apply_combo (fields spec) combo_map (base spec)).
Proof.
  unfold assemble_value. apply apply_locks_no_locks.
  intros f sw _ _. apply lookup_empty.
Qed.

Lemma add_sub_imm_pattern_is_descriptor (is_add : bool)
    (sf shift imm12 rn rd : Z) :
  sf = 0 \/ sf = 1 -> shift = 0 \/ shift = 1 ->
  0 <= imm12 <= 4095 -> 0 <= rn <= 31 -> 0 <= rd <= 31 ->
  add_sub_imm_pattern is_add sf shift imm12 rn rd =
  snd (assemble_value (if is_add then spec_ADDI else spec_SUBI)
         [("sf", sf); ("shift", shift); ("imm12", imm12); ("Rn", rn);
          ("Rd", rd)] ∅).
Proof.
  intros Hsf Hsh Himm Hrn Hrd.
  rewrite assemble_no_locks. cbn [snd].
  unfold add_sub_imm_pattern, apply_combo.
  destruct is_add; cbn [fold_left fields base spec_ADDI spec_SUBI];
    cbn [dict_get addsub_imm_fields String.eqb Ascii.eqb Bool.eqb];
    destruct Hsf as [-> | ->], Hsh as [-> | ->];
    match goal with
    | |- Z.lor (Z.lor (Z.lor ?K _) _) _ =
         write_field (write_field (write_field ?K' _ _ _) _ _ _) _ _ _ =>
      let k := eval vm_compute in K in
      let k' := eval vm_compute in K' in
      change K with k; change K' with k';
      change k with (Z.shiftl (Z.shiftr k 22) 22)
    end;
    (rewrite (write_field_lor _ 10 12 imm12); [| lia | lia | lia | low_bits_zero]);
    (rewrite (write_field_lor _ 5 5 rn); [| lia | lia | lia | low_bits_zero]);
    (rewrite (write_field_lor _ 0 5 rd); [| lia | lia | lia | low_bits_zero]);
    rewrite Z.shiftl_0_r; reflexivity.
Qed.

Lemma mov_imm_pattern_is_descriptor (sf imm16 rd : Z) :
  sf = 0 \/ sf = 1 -> 0 <= imm16 <= 65535 -> 0 <= rd <= 31 ->
  mov_imm_pattern sf imm16 rd =
  snd (assemble_value spec_MOVZ
         [("sf", sf); ("hw", 0); ("imm16", imm16); ("Rd", rd)] ∅).
Proof.
  intros Hsf Himm Hrd.
  rewrite assemble_no_locks. cbn [snd].
  unfold mov_imm_pattern, apply_combo.
  cbn [fold_left fields base spec_MOVZ];
    cbn [dict_get String.eqb Ascii.eqb Bool.eqb];
    destruct Hsf as [-> | ->];
    match goal with
    | |- Z.lor (Z.lor ?K _) _ =
         write_field (write_field ?K' _ _ _) _ _ _ =>
      let k := eval vm_compute in K in
      let k' := eval vm_compute in K' in
      change K with k; change K' with k';
      change k with (Z.shiftl (Z.shiftr k 21) 21)
    end;
    (rewrite (write_field_lor _ 5 16 imm16); [| lia | lia | lia | low_bits_zero]);
    (rewrite (write_field_lor _ 0 5 rd); [| lia | lia | lia | low_bits_zero]);
    rewrite Z.shiftl_0_r; reflexivity.
Qed.

Lemma add_sub_immediate_range (imm_val imm12 shift : Z) :
  add_sub_immediate imm_val = Some (imm12, shift) ->
  (shift = 0 \/ shift = 1) /\ 0 <= imm12 <= 4095 /\
  imm_val = Z.shiftl imm12 (12 * shift).
Proof.
  unfold add_sub_immediate.
  change (Z.shiftl 0xFFF 12) with (4095 * 4096).
  change (Z.shiftl 1 12) with 4096.
  destruct ((0 <=? imm_val) && (imm_val <=? 0xFFF)) eqn:E1.
  - intros [= <- <-]. apply andb_true_iff in E1 as [H1 H2].
    split; [left; reflexivity |]. split; [lia |].
    cbn. rewrite Z.shiftl_0_r. reflexivity.
  - destruct ((0 <? imm_val) && (imm_val <=? 4095 * 4096)
              && (imm_val mod 4096 =? 0)) eqn:E2; [| discriminate].
    intros [= <- <-].
    apply andb_true_iff in E2 as [E2 H3].
    apply andb_true_iff in E2 as [H1 H2].
    split; [right; reflexivity |].
    rewrite Z.shiftr_div_pow2 by lia. change (2 ^ 12) with 4096.
    split.
    + split; [apply Z.div_pos; lia |].
      apply Z.lt_succ_r, Z.div_lt_upper_bound; lia.
    + change (12 * 1) with 12. rewrite Z.shiftl_mul_pow2 by lia.
      change (2 ^ 12) with 4096.
      pose proof (Z.div_mod imm_val 4096 ltac:(lia)). lia.
Qed.

(** The immediate rule, read from the immediate alone. *)
Lemma add_sub_immediate_exact (imm_val imm12 shift : Z) :
  add_sub_immediate imm_val = Some (imm12, shift) ->
  0 <= imm_val <= 4095 * 4096 /\
  (4095 < imm_val -> imm_val mod 4096 = 0) /\
  shift = (if imm_val <=? 4095 then 0 else 1) /\
  imm12 = (if imm_val <=? 4095 then imm_val else imm_val / 4096).
Proof.
  unfold add_sub_immediate.
  change (Z.shiftl 0xFFF 12) with (4095 * 4096).
  change (Z.shiftl 1 12) with 4096. change 0xFFF with 4095.
  destruct ((0 <=? imm_val) && (imm_val <=? 4095)) eqn:E1.
  - intros [= <- <-]. apply andb_true_iff in E1 as [H1 H2].
    apply Z.leb_le in H1. pose proof H2 as H2'. apply Z.leb_le in H2'.
    rewrite H2. repeat split; try reflexivity; lia.
  - destruct ((0 <? imm_val) && (imm_val <=? 4095 * 4096)
              && (imm_val mod 4096 =? 0)) eqn:E2; [| discriminate].
    intros [= <- <-].
    apply andb_true_iff in E2 as [E2 H3].
    apply andb_true_iff in E2 as [H1 H2].
    apply Z.ltb_lt in H1. apply Z.leb_le in H2. apply Z.eqb_eq in H3.
    assert (Hgt : (imm_val <=? 4095) = false).
    { apply Z.leb_gt. apply andb_false_iff in E1 as [E | E].
      - apply Z.leb_gt in E. lia.
      - apply Z.leb_gt in E. exact E. }
    rewrite Hgt, Z.shiftr_div_pow2 by lia. change (2 ^ 12) with 4096.
    repeat split; try reflexivity; try lia.
Qed.

(** X20: for register operands with indices in 0..31, whatever
    [_encode_add_sub_imm] reports for ADD (SUB) is the catalog's ADDI
    (SUBI) descriptor assembled with the fields [sf], [shift], [imm12],
    [Rn], [Rd], each determined by the text: [sf] by the destination text
    as the code computes it; for an immediate of at most 4095, [shift = 0]
    and [imm12] the immediate; for a larger one, a multiple of 4096 up to
    [4095 * 4096], [shift = 1] and [imm12] the immediate divided by
    4096. *)
Theorem encode_add_sub_imm_is_catalog_descriptor
    (op rd_str rn_str imm_str : string) (sf_d rd sf_n rn : Z)
    (c : conversion) :
  _parse_register rd_str = Ret (sf_d, rd) ->
  _parse_register rn_str = Ret (sf_n, rn) ->
  0 <= rd <= 31 -> 0 <= rn <= 31 ->
  _encode_add_sub_imm op (rd_str, rn_str, imm_str) = Ret (Ok c) ->
  exists imm_val,
    int0 imm_str = Ret imm_val /\
    0 <= imm_val <= 4095 * 4096 /\
    (4095 < imm_val -> imm_val mod 4096 = 0) /\
    let sf :=
      if PyStr.startswith "X" rd_str || String.eqb rd_str "SP"
      then 1 else 0 in
    let shift := if imm_val <=? 4095 then 0 else 1 in
    let imm12 := if imm_val <=? 4095 then imm_val else imm_val / 4096 in
    let word :=
      snd (assemble_value
             (if String.eqb op "ADD" then spec_ADDI else spec_SUBI)
             [("sf", sf); ("shift", shift); ("imm12", imm12);
              ("Rn", rn); ("Rd", rd)] ∅) in
    0 <= imm12 <= 4095 /\
    imm_val = Z.shiftl imm12 (12 * shift) /\
    hex c = "0x" +:+ PyStr.fmt_08X word /\
    bytes_be c = PyStr.fmt_08X word.
Proof.
  intros Hd Hn Hrd Hrn. unfold _encode_add_sub_imm. rewrite Hd, Hn. cbn.
  destruct (negb _ && negb _ && negb _); [discriminate |].
  destruct ((_ || _) && _); [discriminate |].
  set (sf := if _ : bool then 1 else 0).
  assert (Hsf : sf = 0 \/ sf = 1) by (subst sf; destruct (_ || _); lia).
  destruct (int0 imm_str) as [imm_val | e] eqn:Ei; cbn; [| discriminate].
  destruct (add_sub_immediate imm_val) as [[imm12 shift] |] eqn:Ea;
    [| discriminate].
  destruct (add_sub_immediate_range _ _ _ Ea) as (Hsh & Hi12 & Hval).
  destruct (add_sub_immediate_exact _ _ _ Ea) as (Hr & Hm & Es & Ei12).
  fold (add_sub_imm_pattern (String.eqb op "ADD") sf shift imm12 rn rd).
  rewrite (add_sub_imm_pattern_is_descriptor (String.eqb op "ADD") sf shift
             imm12 rn rd Hsf Hsh Hi12 Hrn Hrd).
  unfold _format_result. destruct (_ && _); [| discriminate].
  intros [= <-]. exists imm_val. cbn [hex bytes_be].
  split; [reflexivity |]. split; [exact Hr |]. split; [exact Hm |].
  cbv zeta. rewrite <- Es, <- Ei12.
  split; [exact Hi12 |]. split; [exact Hval |]. split; reflexivity.
Qed.

Lemma encode_add_sub_imm_is_catalog_descriptor_witness :
  let c := {| hex := "0x51400883"; bytes_le := "83084051";
              bytes_be := "51400883" |} in
  _encode_add_sub_imm "SUB" ("W3", "W4", "8192") = Ret (Ok c) /\
  exists imm_val,
    int0 "8192" = Ret imm_val /\
    0 <= imm_val <= 4095 * 4096 /\
    (4095 < imm_val -> imm_val mod 4096 = 0) /\
    let sf := 0 in
    let shift := if imm_val <=? 4095 then 0 else 1 in
    let imm12 := if imm_val <=? 4095 then imm_val else imm_val / 4096 in
    let word :=
      snd (assemble_value spec_SUBI
             [("sf", sf); ("shift", shift); ("imm12", imm12);
              ("Rn", 4); ("Rd", 3)] ∅) in
    0 <= imm12 <= 4095 /\
    imm_val = Z.shiftl imm12 (12 * shift) /\
    hex c = "0x" +:+ PyStr.fmt_08X word /\
    bytes_be c = PyStr.fmt_08X word.
Proof.
  intros c.
  assert (E : _encode_add_sub_imm "SUB" ("W3", "W4", "8192") = Ret (Ok c))
    by (vm_compute; reflexivity).
  split; [exact E |].
  exact (encode_add_sub_imm_is_catalog_descriptor "SUB" "W3" "W4" "8192"
           0 3 0 4 c eq_refl eq_refl ltac:(lia) ltac:(lia) E).
Defined.

(** X21: for a register index in 0..31, whatever [_encode_mov_imm]
    reports is the catalog's MOVZ descriptor assembled with [sf], [hw = 0],
    [imm16] and [Rd], the immediate being in 0..65535. *)
Theorem encode_mov_imm_is_movz_descriptor
    (size rd_str imm_str : string) (rd : Z) (c : conversion) :
  int10 rd_str = Ret rd -> 0 <= rd <= 31 ->
  _encode_mov_imm (size, rd_str, imm_str) = Ret (Ok c) ->
  exists sf imm16,
    (sf = 0 \/ sf = 1) /\ int0 imm_str = Ret imm16 /\ 0 <= imm16 <= 65535 /\
    bytes_be c =
      PyStr.fmt_08X
        (snd (assemble_value spec_MOVZ
                [("sf", sf); ("hw", 0); ("imm16", imm16); ("Rd", rd)] ∅)).
Proof.
  intros Hd Hrd. unfold _encode_mov_imm. rewrite Hd. cbn.
  set (sf := if String.eqb size "X" then 1 else 0).
  assert (Hsf : sf = 0 \/ sf = 1)
    by (subst sf; destruct (String.eqb size "X"); lia).
  destruct (int0 imm_str) as [imm | e] eqn:Ei; cbn; [| discriminate].
  destruct ((0 <=? imm) && (imm <=? 65535)) eqn:Er; [| discriminate].
  apply andb_true_iff in Er as [H1 H2].
  fold (mov_imm_pattern sf imm rd).
  rewrite (mov_imm_pattern_is_descriptor sf imm rd Hsf ltac:(lia) Hrd).
  unfold _format_result. destruct (_ && _); [| discriminate].
  intros [= <-]. exists sf, imm. repeat split; try assumption; lia.
Qed.

Lemma encode_mov_imm_is_movz_descriptor_witness :
  exists c, _encode_mov_imm ("X", "9", "4660") = Ret (Ok c) /\
    exists sf imm16,
      (sf = 0 \/ sf = 1) /\ int0 "4660" = Ret imm16 /\ 0 <= imm16 <= 65535 /\
      bytes_be c =
        PyStr.fmt_08X
          (snd (assemble_value spec_MOVZ
                  [("sf", sf); ("hw", 0); ("imm16", imm16); ("Rd", 9)] ∅)).
Proof.
  eexists. split; [vm_compute; reflexivity |].
  apply (encode_mov_imm_is_movz_descriptor "X" "9" "4660" 9);
    [vm_compute; reflexivity | lia | vm_compute; reflexivity].
Defined.

(* ================================================================== *)
(** * Assembler: letter case and immediates *)
(* ================================================================== *)

Lemma isspace_upper_char (c : ascii) :
  PyStr.isspace (PyStr.upper_char c) = PyStr.isspace c.
Proof. destruct c as [[] [] [] [] [] [] [] []]; vm_compute; reflexivity. Qed.

Lemma lstrip_upper (s : string) :
  PyStr.lstrip (PyStr.upper s) = PyStr.upper (PyStr.lstrip s).
Proof.
  induction s as [| c r IH]; [reflexivity |].
  cbn [PyStr.upper PyStr.lstrip]. rewrite isspace_upper_char.
  destruct (PyStr.isspace c); [exact IH | reflexivity].
Qed.

Lemma rstrip_upper (s : string) :
  PyStr.rstrip (PyStr.upper s) = PyStr.upper (PyStr.rstrip s).
Proof.
  induction s as [| c r IH]; [reflexivity |].
  cbn [PyStr.upper PyStr.rstrip]. rewrite IH, isspace_upper_char.
  destruct (PyStr.rstrip r); cbn [PyStr.upper];
    [destruct (PyStr.isspace c) |]; reflexivity.
Qed.

Lemma strip_upper (s : string) :
  PyStr.strip (PyStr.upper s) = PyStr.upper (PyStr.strip s).
Proof. unfold PyStr.strip. rewrite lstrip_upper, rstrip_upper. reflexivity. Qed.

Lemma same_result_refl (r : result) : same_result r r.
Proof. destruct r; cbn; auto. Qed.

Lemma asm_to_hex_same_upper (s s' : string) :
  PyStr.upper (PyStr.strip s) = PyStr.upper (PyStr.strip s') ->
  same_result (asm_to_hex s) (asm_to_hex s').
Proof.
  intros H. unfold asm_to_hex, asm_to_hex_body. rewrite H.
  set (u := PyStr.upper (PyStr.strip s')).
  assert (G : forall o : outcome result,
             same_result
               match o with Ret r => r | Raise e => Err (ErrParsingFailed s e) end
               match o with Ret r => r | Raise e => Err (ErrParsingFailed s' e) end).
  { intros [r | e]; [apply same_result_refl | exact I]. }
  destruct (String.eqb u "NOP"); [apply G |].
  destruct (Re.add_sub_imm "ADD" u); [apply G |].
  destruct (Re.add_sub_imm "SUB" u); [apply G |].
  destruct (Re.mov_imm u); [apply G |].
  destruct (Re.mov_reg u); [apply G |].
  exact I.
Qed.

(** X22: [asm_to_hex] does not distinguish letter case: a text and its
    upper-cased form give the same conversion, or both an error. *)
Theorem asm_to_hex_ignores_letter_case (asm_text : string) :
  same_result (asm_to_hex asm_text) (asm_to_hex (PyStr.upper asm_text)).
Proof.
  apply asm_to_hex_same_upper. rewrite strip_upper, upper_idem. reflexivity.
Qed.

Lemma upper_no_x (s : string) : PyStr.contains "x" (PyStr.upper s) = false.
Proof.
  induction s as [| c r IH]; [reflexivity |].
  cbn [PyStr.upper PyStr.contains]. rewrite IH, orb_false_r.
  destruct c as [[] [] [] [] [] [] [] []]; vm_compute; reflexivity.
Qed.

Lemma lit_no_x (p s r : string) :
  Re.lit p s = Some r -> PyStr.contains "x" s = false ->
  PyStr.contains "x" r = false.
Proof.
  revert s. induction p as [| a p IH]; intros s.
  - cbn. intros [= <-]. auto.
  - destruct s as [| b s]; cbn [Re.lit]; [discriminate |].
    destruct (Ascii.eqb a b); [| discriminate].
    intros H Hx. cbn [PyStr.contains] in Hx.
    apply orb_false_iff in Hx as [_ Hx]. apply (IH s H Hx).
Qed.

Lemma span_props (p : ascii -> bool) (s a b : string) :
  PyStr.span p s = (a, b) ->
  string_forall p a = true /\
  (PyStr.contains "x" s = false -> PyStr.contains "x" b = false).
Proof.
  revert a b. induction s as [| c r IH]; intros a b.
  - cbn. intros [= <- <-]. auto.
  - cbn [PyStr.span]. destruct (p c) eqn:Ep.
    + destruct (PyStr.span p r) as [a' b'] eqn:Es. intros [= <- <-].
      destruct (IH a' b' eq_refl) as [H1 H2].
      split; [cbn; rewrite Ep, H1; reflexivity |].
      intros Hx. cbn [PyStr.contains] in Hx.
      apply orb_false_iff in Hx as [_ Hx]. apply H2, Hx.
    + intros [= <- <-]. auto.
Qed.

Lemma plus_props (p : ascii -> bool) (s a b : string) :
  Re.plus p s = Some (a, b) ->
  string_forall p a = true /\ a <> EmptyString /\
  (PyStr.contains "x" s = false -> PyStr.contains "x" b = false).
Proof.
  unfold Re.plus. destruct (PyStr.span p s) as [a' b'] eqn:Es.
  destruct (span_props p s a' b' Es) as [H1 H2].
  destruct a' as [| c a']; [discriminate |].
  intros [= <- <-]. repeat split; [exact H1 | discriminate | exact H2].
Qed.

Lemma spaces0_no_x (s : string) :
  PyStr.contains "x" s = false -> PyStr.contains "x" (Re.spaces0 s) = false.
Proof.
  unfold Re.spaces0. destruct (PyStr.span PyStr.isspace s) as [a b] eqn:Es.
  apply (span_props _ _ _ _ Es).
Qed.

Lemma lit_0x_no_x (s : string) :
  PyStr.contains "x" s = false -> Re.lit "0x" s = None.
Proof.
  destruct s as [| a [| b r]]; cbn [Re.lit PyStr.contains]; intros Hx.
  - reflexivity.
  - destruct (Ascii.eqb "0" a); reflexivity.
  - apply orb_false_iff in Hx as [_ Hx].
    apply orb_false_iff in Hx as [Hb _].
    rewrite Ascii.eqb_sym in Hb. rewrite Hb.
    destruct (Ascii.eqb "0" a); reflexivity.
Qed.

Lemma imm_no_x (s : string) :
  PyStr.contains "x" s = false -> Re.imm s = Re.plus PyStr.isdigit s.
Proof.
  intros Hx. unfold Re.imm. rewrite (lit_0x_no_x s Hx). reflexivity.
Qed.

Lemma hash_imm_decimal (s g r : string) :
  PyStr.contains "x" s = false -> Re.hash_imm s = Some (g, r) ->
  string_forall PyStr.isdigit g = true /\ g <> EmptyString.
Proof.
  intros Hx. unfold Re.hash_imm. rewrite (imm_no_x s Hx).
  destruct (Re.lit "#" s) as [t |] eqn:El; cbn -[Re.imm Re.plus].
  - rewrite (imm_no_x t (lit_no_x _ _ _ El Hx)).
    destruct (Re.plus PyStr.isdigit t) as [[a b] |] eqn:Ep;
      cbn -[Re.plus].
    + intros [= <- <-]. destruct (plus_props _ _ _ _ Ep) as (H1 & H2 & _).
      auto.
    + intros H. destruct (plus_props _ _ _ _ H) as (H1 & H2 & _). auto.
  - intros H. destruct (plus_props _ _ _ _ H) as (H1 & H2 & _). auto.
Qed.

Lemma wx_num_no_x (s g r : string) :
  Re.wx_num s = Some (g, r) -> PyStr.contains "x" s = false ->
  PyStr.contains "x" r = false.
Proof.
  destruct s as [| c t]; [discriminate |].
  unfold Re.wx_num. destruct (PyStr.is_one_of "WX" c); [| discriminate].
  destruct (Re.plus PyStr.isdigit t) as [[d rest] |] eqn:Ep;
    cbn -[Re.plus]; [| discriminate].
  intros [= <- <-] Hx. cbn [PyStr.contains] in Hx.
  apply orb_false_iff in Hx as [_ Hx].
  apply (plus_props _ _ _ _ Ep), Hx.
Qed.

Lemma word_no_x (w s g r : string) :
  Re.word w s = Some (g, r) -> PyStr.contains "x" s = false ->
  PyStr.contains "x" r = false.
Proof.
  unfold Re.word. destruct (Re.lit w s) as [u |] eqn:El; cbn;
    [| discriminate].
  intros [= <- <-]. apply (lit_no_x _ _ _ El).
Qed.

Lemma reg_or_sp_no_x (s g r : string) :
  Re.reg_or_sp s = Some (g, r) -> PyStr.contains "x" s = false ->
  PyStr.contains "x" r = false.
Proof.
  unfold Re.reg_or_sp, Re.orelse.
  destruct (Re.wx_num s) as [[g' r'] |] eqn:E.
  - intros [= <- <-]. apply (wx_num_no_x _ _ _ E).
  - apply word_no_x.
Qed.

(** X23: the assembler never reads an immediate as hexadecimal: for every
    text, the immediate captured by the ADD/SUB pattern or by the
    MOV-immediate pattern on the upper-cased text is a non-empty run of
    decimal digits (of [0X1F] only the leading [0]). *)
Theorem assembler_immediates_are_decimal (asm_text : string) :
  (forall op g1 g2 g3,
     Re.add_sub_imm op (PyStr.upper asm_text) = Some (g1, g2, g3) ->
     string_forall PyStr.isdigit g3 = true /\ g3 <> EmptyString) /\
  (forall g1 g2 g3,
     Re.mov_imm (PyStr.upper asm_text) = Some (g1, g2, g3) ->
     string_forall PyStr.isdigit g3 = true /\ g3 <> EmptyString).
Proof.
  pose proof (upper_no_x asm_text) as Hx.
  split.
  - intros op g1 g2 g3. unfold Re.add_sub_imm.
    destruct (Re.lit op (PyStr.upper asm_text)) as [s1 |] eqn:E1; cbn [mbind option_bind];
      [| discriminate].
    pose proof (lit_no_x _ _ _ E1 Hx) as X1.
    unfold Re.spaces1.
    destruct (Re.plus PyStr.isspace s1) as [[w s2] |] eqn:E2;
      cbn [mbind option_bind fmap option_fmap option_map snd];
      [| discriminate].
    pose proof (proj2 (proj2 (plus_props _ _ _ _ E2)) X1) as X2.
    destruct (Re.reg_or_sp s2) as [[r1 s3] |] eqn:E3;
      cbn [mbind option_bind fmap option_fmap option_map snd]; [| discriminate].
    pose proof (reg_or_sp_no_x _ _ _ E3 X2) as X3.
    destruct (Re.lit "," s3) as [s4 |] eqn:E4;
      cbn [mbind option_bind fmap option_fmap option_map snd]; [| discriminate].
    pose proof (spaces0_no_x _ (lit_no_x _ _ _ E4 X3)) as X4.
    destruct (Re.reg_or_sp (Re.spaces0 s4)) as [[r2 s5] |] eqn:E5;
      cbn [mbind option_bind fmap option_fmap option_map snd];
      [| discriminate].
    pose proof (reg_or_sp_no_x _ _ _ E5 X4) as X5.
    destruct (Re.lit "," s5) as [s6 |] eqn:E6;
      cbn [mbind option_bind fmap option_fmap option_map snd]; [| discriminate].
    pose proof (spaces0_no_x _ (lit_no_x _ _ _ E6 X5)) as X6.
    destruct (Re.hash_imm (Re.spaces0 s6)) as [[g r] |] eqn:E7;
      cbn [mbind option_bind fmap option_fmap option_map snd];
      [| discriminate].
    intros [= <- <- <-]. apply (hash_imm_decimal _ _ _ X6 E7).
  - intros g1 g2 g3. unfold Re.mov_imm.
    destruct (Re.lit "MOV" (PyStr.upper asm_text)) as [s1 |] eqn:E1; cbn [mbind option_bind];
      [| discriminate].
    pose proof (lit_no_x _ _ _ E1 Hx) as X1.
    unfold Re.spaces1.
    destruct (Re.plus PyStr.isspace s1) as [[w s2] |] eqn:E2;
      cbn [mbind option_bind fmap option_fmap option_map snd];
      [| discriminate].
    pose proof (proj2 (proj2 (plus_props _ _ _ _ E2)) X1) as X2.
    destruct s2 as [| c s2]; [discriminate |].
    destruct (PyStr.is_one_of "WX" c); [| discriminate].
    assert (X2' : PyStr.contains "x" s2 = false)
      by (cbn [PyStr.contains] in X2;
          apply orb_false_iff in X2 as [_ X2]; exact X2).
    destruct (Re.plus PyStr.isdigit s2) as [[d s3] |] eqn:E3;
      cbn [mbind option_bind fmap option_fmap option_map snd];
      [| discriminate].
    pose proof (proj2 (proj2 (plus_props _ _ _ _ E3)) X2') as X3.
    destruct (Re.lit "," s3) as [s4 |] eqn:E4;
      cbn [mbind option_bind fmap option_fmap option_map snd]; [| discriminate].
    pose proof (spaces0_no_x _ (lit_no_x _ _ _ E4 X3)) as X4.
    destruct (Re.hash_imm (Re.spaces0 s4)) as [[g r] |] eqn:E5;
      cbn [mbind option_bind fmap option_fmap option_map snd];
      [| discriminate].
    intros [= <- <- <-]. apply (hash_imm_decimal _ _ _ X4 E5).
Qed.

Lemma assembler_immediates_are_decimal_witness :
  Re.mov_imm (PyStr.upper "mov x3, #0x1f") = Some ("X", "3", "0") /\
  string_forall PyStr.isdigit "0" = true /\ "0" <> EmptyString.
Proof.
  split; [vm_compute; reflexivity |].
  apply (proj2 (assembler_immediates_are_decimal "mov x3, #0x1f")
           "X" "3" "0").
  vm_compute. reflexivity.
Defined.

(* ================================================================== *)
(** * Lock specifications *)
(* ================================================================== *)

Lemma contains_app (c : ascii) (a b : string) :
  PyStr.contains c (a +:+ b) = PyStr.contains c a || PyStr.contains c b.
Proof.
  induction a as [| x a IH]; [reflexivity |].
  change (String x a +:+ b) with (String x (a +:+ b)).
  cbn [PyStr.contains]. rewrite IH, orb_assoc. reflexivity.
Qed.

Lemma split_once_app (sep : ascii) (k v : string) :
  PyStr.contains sep k = false ->
  split_once sep (k +:+ String sep v) = (k, v).
Proof.
  induction k as [| x k IH].
  - intros _. change ("" +:+ String sep v) with (String sep v).
    cbn [split_once]. rewrite Ascii.eqb_refl. reflexivity.
  - change (String x k +:+ String sep v) with (String x (k +:+ String sep v)).
    cbn [split_once PyStr.contains].
    intros H. apply orb_false_iff in H as [Hx Hk].
    rewrite Hx, (IH Hk). reflexivity.
Qed.

Lemma parse_locks_snoc (lock_list : list string) (spec : string) :
  parse_locks (lock_list ++ [spec]) = parse_lock (parse_locks lock_list) spec.
Proof. unfold parse_locks. rewrite fold_left_app. reflexivity. Qed.

(** X24: what one more [--lock] argument does.  [k=v] with an integer
    literal [v] (any base prefix, sign or surrounding blanks that [int]
    accepts) sets the lock of [k], replacing an earlier lock of the same
    name, and reports nothing; with a [v] that is no integer literal it is
    reported and the locks stay as they were; an argument without [=] is
    dropped without any report. *)
Theorem parse_locks_one_more (lock_list : list string) :
  (forall k v n,
     PyStr.contains "=" k = false -> PyStr.py_int true v = Some n ->
     parse_locks (lock_list ++ [k +:+ String "=" v])
       = (fst (parse_locks lock_list), <[k := n]> (snd (parse_locks lock_list))))
  /\
  (forall k v,
     PyStr.contains "=" k = false -> PyStr.py_int true v = None ->
     parse_locks (lock_list ++ [k +:+ String "=" v])
       = (fst (parse_locks lock_list) ++ [k +:+ String "=" v],
          snd (parse_locks lock_list))) /\
  (forall spec,
     PyStr.contains "=" spec = false ->
     parse_locks (lock_list ++ [spec]) = parse_locks lock_list).
Proof.
  split; [| split].
  - intros k v n Hk Hv. rewrite parse_locks_snoc. unfold parse_lock.
    destruct (parse_locks lock_list) as [sk lk].
    rewrite contains_app. cbn [PyStr.contains].
    rewrite Ascii.eqb_refl, orb_true_r.
    rewrite (split_once_app _ k v Hk), Hv. reflexivity.
  - intros k v Hk Hv. rewrite parse_locks_snoc. unfold parse_lock.
    destruct (parse_locks lock_list) as [sk lk].
    rewrite contains_app. cbn [PyStr.contains].
    rewrite Ascii.eqb_refl, orb_true_r.
    rewrite (split_once_app _ k v Hk), Hv. reflexivity.
  - intros spec Hs. rewrite parse_locks_snoc. unfold parse_lock.
    destruct (parse_locks lock_list) as [sk lk]. rewrite Hs. reflexivity.
Qed.

Lemma parse_locks_one_more_witness :
  parse_locks (["Rd=31"; "sf=1"] ++ ["Rd" +:+ String "=" " 0x_1f "])
    = (fst (parse_locks ["Rd=31"; "sf=1"]),
       <["Rd" := 31]> (snd (parse_locks ["Rd=31"; "sf=1"]))).
Proof.
  apply (proj1 (parse_locks_one_more ["Rd=31"; "sf=1"]) "Rd" " 0x_1f " 31);
    reflexivity.
Defined.

(* ================================================================== *)
(** * Locks in every explored encoding *)
(* ================================================================== *)

Lemma NoDup_dict_get {V : Type} (k : string) (v : V)
    (d : list (string * V)) :
  List.NoDup (map fst d) -> In (k, v) d -> dict_get k d = Some v.
Proof.
  induction d as [| [k' v'] r IH]; [intros _ [] |].
  cbn [map fst dict_get]. intros Hnd Hin.
  apply List.NoDup_cons_iff in Hnd as [Hn Hnd].
  destruct Hin as [[= -> ->] | Hin].
  - rewrite String.eqb_refl. reflexivity.
  - destruct (String.eqb_spec k k') as [-> | Hne]; [| apply IH; assumption].
    exfalso. apply Hn. apply (in_map fst) in Hin. exact Hin.
Qed.

Lemma dict_set_In {V : Type} (k k' : string) (v v' : V)
    (d : list (string * V)) :
  In (k', v') (dict_set k v d) -> (k', v') = (k, v) \/ In (k', v') d.
Proof.
  induction d as [| [g x] r IH]; cbn [dict_set].
  - intros [H | []]. left. symmetry. exact H.
  - destruct (String.eqb k g).
    + intros [H | H]; [left; symmetry; exact H | right; right; exact H].
    + intros [H | H]; [right; left; exact H |].
      destruct (IH H) as [E | E]; [left; exact E | right; right; exact E].
Qed.

Lemma make_combo_map_In (order : list string) (combo : list Z)
    (f : string) (v : Z) :
  In (f, v) (make_combo_map order combo) -> In (f, v) (combine order combo).
Proof.
  unfold make_combo_map.
  assert (G : forall l acc,
             In (f, v) (fold_left (fun m '(fname, x) => dict_set fname x m)
                          l acc) ->
             In (f, v) l \/ In (f, v) acc).
  { induction l as [| [g x] l IH]; intros acc H; [right; exact H |].
    cbn [fold_left] in H. destruct (IH _ H) as [E | E].
    - left. right. exact E.
    - destruct (dict_set_In _ _ _ _ _ E) as [E' | E'].
      + left. left. symmetry. exact E'.
      + right. exact E'. }
  intros H. destruct (G _ _ H) as [E | []]. exact E.
Qed.

Lemma In_combine_lookup {A B : Type} (l : list A) (k : list B) (a : A)
    (b : B) :
  In (a, b) (combine l k) ->
  exists n : nat, l !! n = Some a /\ k !! n = Some b.
Proof.
  revert k. induction l as [| x l IH]; intros [| y k]; cbn [combine];
    try (intros Hf; exact (False_ind _ Hf)).
  intros [E | Hin].
  - injection E as -> ->. exists 0%nat. split; reflexivity.
  - destruct (IH k Hin) as (n & H1 & H2). exists (S n). split; assumption.
Qed.

Lemma product_members (doms : list (list Z)) (combo : list Z) :
  In combo (product doms) -> Forall2 (fun v d => In v d) combo doms.
Proof.
  revert combo. induction doms as [| d ds IH]; intros combo; cbn [product].
  - intros [<- | []]. constructor.
  - intros H. apply in_flat_map in H as (x & Hx & Hm).
    apply in_map_iff in Hm as (c & <- & Hc).
    constructor; [exact Hx | apply IH, Hc].
Qed.

(** A map of the enumeration gives a locked field the lock reduced to the
    field's width. *)
Lemma enumerated_locked_value (fields : list (string * (Z * Z)))
    (vary_fields : list string) (locks : gmap string Z) (step : Z)
    (out : list diag) (combos : list (list (string * Z)))
    (c : list (string * Z)) (f : string) (s w raw v : Z) :
  iterate_field_space fields vary_fields locks step = Ret (out, combos) ->
  In c combos -> In (f, v) c ->
  dict_get f fields = Some (s, w) -> locks !! f = Some raw ->
  v = Z.land raw (Z.shiftl 1 w - 1).
Proof.
  unfold iterate_field_space.
  destruct (build_domains fields vary_fields locks step)
    as [[[o doms] order] | e] eqn:Hb; [| discriminate].
  cbn [mbind outcome_bind].
  intros H Hc Hv Hg Hl.
  assert (Hnil : In c [[]] -> v = Z.land raw (Z.shiftl 1 w - 1)).
  { intros [<- | []]. destruct Hv. }
  destruct (is_nil vary_fields && negb (is_empty_map locks));
    [injection H as <- <-; apply Hnil, Hc |].
  destruct (is_nil doms && negb (is_nil vary_fields));
    [injection H as <- <-; destruct Hc |].
  destruct (is_nil doms && is_nil vary_fields && negb (is_nil fields));
    [injection H as <- <-; apply Hnil, Hc |].
  injection H as <- <-.
  apply in_map_iff in Hc as (combo & <- & Hc).
  apply make_combo_map_In, In_combine_lookup in Hv as (n & Ho & Hn).
  destruct (build_domains_locked _ _ _ _ _ _ _ Hb n f raw s w Ho Hl Hg)
    as [Hd _].
  destruct (Forall2_lookup_l _ _ _ _ _ (product_members _ _ Hc) Hn)
    as (d & Hd' & Hin).
  rewrite Hd in Hd'. injection Hd' as <-.
  destruct Hin as [<- | []]. reflexivity.
Qed.

(** The loop over the varied map leaves the window of [f] holding the low
    bits of [x] when every entry for [f] carries [x] and either there is
    such an entry or the window held them before. *)
Lemma apply_combo_window (fs : list (string * (Z * Z)))
    (combo_map : list (string * Z)) (f : string) (s w x : Z) :
  wf_fields fs -> List.NoDup (map fst fs) -> disjoint_fields fs ->
  In (f, (s, w)) fs ->
  (forall v, In (f, v) combo_map -> v = x) ->
  forall val,
    dict_mem f combo_map = true \/
      (forall i, s <= i < s + w -> Z.testbit val i = Z.testbit x (i - s)) ->
    forall i, s <= i < s + w ->
      Z.testbit (apply_combo fs combo_map val) i = Z.testbit x (i - s).
Proof.
  intros Hwf Hnd Hdis Hin.
  destruct (wf_fields_In _ _ _ _ Hwf Hin) as [Hs Hw].
  pose proof (NoDup_dict_get _ _ _ Hnd Hin) as Hg.
  induction combo_map as [| [g v] rest IH]; intros Hv val H i Hi.
  - destruct H as [H | H]; [discriminate | apply H, Hi].
  - unfold apply_combo. cbn [fold_left].
    change (fold_left _ rest ?a) with (apply_combo fs rest a).
    apply IH; [intros u Hu; apply Hv; right; exact Hu | | exact Hi].
    destruct (String.eqb_spec f g) as [<- | Hne].
    + right. intros j Hj. rewrite Hg, write_field_testbit by lia.
      rewrite (Hv v (or_introl eq_refl)).
      destruct (Z.leb_spec s j), (Z.ltb_spec j (s + w));
        simpl; try reflexivity; lia.
    + destruct H as [H | H].
      * left. rewrite dict_mem_cons in H.
        destruct (String.eqb_spec f g); [contradiction | exact H].
      * right. intros j Hj.
        destruct (dict_get g fs) as [[s' w'] |] eqn:E; [| apply H, Hj].
        pose proof (dict_get_In _ _ _ E) as Hin'.
        destruct (wf_fields_In _ _ _ _ Hwf Hin').
        rewrite write_field_testbit by lia.
        assert (Hgf : g <> f) by congruence.
        destruct (Hdis g s' w' f s w Hin' Hin Hgf);
          destruct (Z.leb_spec s' j), (Z.ltb_spec j (s' + w'));
          simpl; try lia; apply H, Hj.
Qed.

(** What [assemble_value] leaves in the window of a locked field, for a
    varied map that gives the field nothing but the reduced lock. *)
Lemma assemble_value_locked_field (spec : opspec)
    (combo_map : list (string * Z)) (locks : gmap string Z) (f : string)
    (s w raw : Z) :
  wf_fields (fields spec) -> List.NoDup (map fst (fields spec)) ->
  disjoint_fields (fields spec) ->
  In (f, (s, w)) (fields spec) -> locks !! f = Some raw ->
  (forall v, In (f, v) combo_map -> v = Z.land raw (Z.shiftl 1 w - 1)) ->
  field_value (snd (assemble_value spec combo_map locks)) s w
    = raw mod 2 ^ w.
Proof.
  intros Hwf Hnd Hdis Hin Hl Hv.
  destruct (wf_fields_In _ _ _ _ Hwf Hin) as [Hs Hw].
  assert (Hother : forall g s' w', In (g, (s', w')) (fields spec) ->
                     g <> f -> s' + w' <= s \/ s + w <= s').
  { intros g s' w' Hg Hne. apply (Hdis g s' w' f s w Hg Hin Hne). }
  unfold assemble_value.
  destruct (dict_mem f combo_map) eqn:Em.
  - rewrite <- (Z.mod_mod raw (2 ^ w)) by lia.
    rewrite <- (land_field_mask_mod raw w Hw).
    apply field_value_of_bits; [lia | lia |]. intros i Hi.
    rewrite apply_locks_frame; [| lia | exact Hwf |].
    + cbn [snd].
      apply (apply_combo_window (fields spec) combo_map f s w);
        try assumption.
      left. exact Em.
    + intros g s' w' Hg Hm _.
      assert (Hne : g <> f) by (intros ->; congruence).
      destruct (wf_fields_In _ _ _ _ Hwf Hg).
      destruct (Hother g s' w' Hg Hne); lia.
  - apply field_value_of_bits; [lia | lia |]. intros i Hi.
    apply (apply_locks_written (fields spec) combo_map locks _ f s w raw i);
      assumption.
Qed.

Lemma explore_loop_values (spec : opspec) (locks : gmap string Z)
    (combos : list (list (string * Z))) (count limit val : Z) :
  In val (snd (explore_loop spec locks combos count limit)) ->
  exists c, In c combos /\ val = snd (assemble_value spec c locks).
Proof.
  revert count. induction combos as [| c rest IH]; intros count;
    cbn [explore_loop]; [intros [] |].
  destruct (assemble_value spec c locks) as [w v] eqn:Ea.
  destruct (count + 1 >=? limit).
  - intros [<- | []]. exists c. rewrite Ea. split; [left |]; reflexivity.
  - specialize (IH (count + 1)).
    destruct (explore_loop spec locks rest (count + 1) limit) as [ws vals].
    cbn [snd] in *. intros [<- | H].
    + exists c. rewrite Ea. split; [left |]; reflexivity.
    + destruct (IH H) as (c' & Hc & E). exists c'. split; [right |]; assumption.
Qed.

Lemma explore_opcode_locked_fields (opname : string) (spec : opspec)
    (limit step : Z) (vary_fields : list string) (locks : gmap string Z)
    (out : list diag) (vals : list Z) :
  wf_fields (fields spec) -> List.NoDup (map fst (fields spec)) ->
  disjoint_fields (fields spec) ->
  explore_opcode opname spec limit step vary_fields locks = Ret (out, vals) ->
  forall (val : Z) (f : string) (s w raw : Z),
    In val vals -> In (f, (s, w)) (fields spec) -> locks !! f = Some raw ->
    field_value val s w = raw mod 2 ^ w.
Proof.
  intros Hwf Hnd Hdis H val f s w raw Hval Hin Hl.
  pose proof (NoDup_dict_get _ _ _ Hnd Hin) as Hg.
  unfold explore_opcode in H.
  destruct (if is_nil vary_fields then _ else _) as [[out0 vf] lim].
  destruct (is_nil (fields spec)) eqn:Hf.
  { destruct (fields spec); [destruct Hin | discriminate]. }
  destruct (is_nil vf && (lim >? 0)).
  - destruct (assemble_value spec [] locks) as [w0 v0] eqn:Ea.
    injection H as <- <-. destruct Hval as [<- | []].
    change v0 with (snd (w0, v0)). rewrite <- Ea.
    apply (assemble_value_locked_field spec [] locks f); try assumption.
    intros v [].
  - destruct (iterate_field_space (fields spec) vf locks step)
      as [[w0 combos] | e] eqn:Hit; [| discriminate].
    cbn [mbind outcome_bind] in H.
    pose proof (explore_loop_values spec locks combos 0 lim val) as Hv.
    destruct (explore_loop spec locks combos 0 lim) as [ws vs].
    injection H as <- <-. cbn [snd] in Hv.
    destruct (Hv Hval) as (c & Hc & ->).
    apply (assemble_value_locked_field spec c locks f); try assumption.
    intros v Hcv.
    apply (enumerated_locked_value _ _ _ _ _ _ c f s w raw v Hit Hc Hcv Hg Hl).
Qed.

(** X25: a lock holds in every encoding exploration prints.  For a
    descriptor whose fields have distinct names and disjoint windows,
    whatever the cap, the step and the vary list (valid names, invalid
    names, repeated names or none), every value [explore_opcode] prints has
    each locked field [f] of width [w] equal to its lock reduced modulo
    [2^w], whether or not [f] is among the varied fields. *)
Theorem explore_opcode_respects_locks (opname : string) (spec : opspec)
    (limit step : Z) (vary_fields : list string) (locks : gmap string Z)
    (out : list diag) (vals : list Z) :
  wf_fields (fields spec) -> List.NoDup (map fst (fields spec)) ->
  disjoint_fields (fields spec) ->
  explore_opcode opname spec limit step vary_fields locks = Ret (out, vals) ->
  forall (val : Z) (f : string) (s w raw : Z),
    In val vals -> In (f, (s, w)) (fields spec) -> locks !! f = Some raw ->
    field_value val s w = raw mod 2 ^ w.
Proof.
  exact (explore_opcode_locked_fields opname spec limit step vary_fields
           locks out vals).
Qed.

Lemma explore_opcode_respects_locks_witness :
  field_value 0x0B400005 0 5 = 37 mod 2 ^ 5.
Proof.
  eapply (explore_opcode_respects_locks "ADD" spec_ADD 3 4
            ["sf"; "Rd"; "Rd"; "shift"; "bogus"] {["Rd" := 37]}
            _ [0x0B000005; 0x0B400005; 0x0B800005]
            wf_dataproc_reg_fields nodup_dataproc_reg_fields
            disjoint_dataproc_reg_fields).
  - vm_compute. reflexivity.
  - right. left. reflexivity.
  - left. reflexivity.
  - reflexivity.
Defined.

(* ================================================================== *)
(** * Hex to assembly *)
(* ================================================================== *)

Example hex_to_asm_ex :
  hex_to_asm (fun _ => Some ("add", "x0, x1, #0x123")) " 0x91 04 8c 20 "
    = Decoded "add x0, x1, #0x123"
        {| hex := "0x91048C20"; bytes_le := "208C0491";
           bytes_be := "91048C20" |}.
Proof. vm_compute. reflexivity. Qed.

Example hex_to_asm_errors :
  hex_to_asm (fun _ => None) "9104" = HexErr (ErrHexLength 4) /\
  hex_to_asm (fun _ => None) "9104zz20" = HexErr (ErrInvalidHex "9104zz20") /\
  hex_to_asm (fun _ => None) "-1048c20"
    = HexErr (ErrConversionFailed OverflowError) /\
  hex_to_asm (fun _ => None) "00000000" = HexErr (ErrUnknownEncoding 0).
Proof. vm_compute. repeat split; reflexivity. Qed.

(** What the program relies on for one hex digit as [HexString] writes it,
    once upper-cased. *)
Lemma lower_hex_char (c : ascii) :
  is_lower_hex c = true ->
  PyStr.isspace (PyStr.upper_char c) = false /\
  PyStr.is_blank (PyStr.upper_char c) = false /\
  Ascii.eqb (PyStr.upper_char c) " " = false /\
  Ascii.eqb (PyStr.upper_char c) "_" = false /\
  Ascii.eqb (PyStr.upper_char c) "+" = false /\
  Ascii.eqb (PyStr.upper_char c) "-" = false /\
  PyStr.is_one_of "xX" (PyStr.upper_char c) = false /\
  exists d : N,
    HexString.ascii_to_digit c = Some d /\
    PyStr.digit_val (PyStr.upper_char c) = Some (Z.of_N d) /\
    (Z.of_N d <? 16) = true.
Proof.
  destruct c as [[] [] [] [] [] [] [] []]; vm_compute; try discriminate;
    intros _; repeat (split; [reflexivity |]);
    eexists; repeat split; reflexivity.
Qed.

Lemma string_forall_upper (P : ascii -> bool) (t : string) :
  (forall c, is_lower_hex c = true -> P (PyStr.upper_char c) = true) ->
  string_forall is_lower_hex t = true ->
  string_forall P (PyStr.upper t) = true.
Proof.
  intros HP. induction t as [| c t IH]; [reflexivity |].
  cbn [string_forall PyStr.upper]. intros H.
  apply andb_true_iff in H as [Hc Ht].
  rewrite (HP c Hc), (IH Ht). reflexivity.
Qed.

Lemma scan_digits_lower_hex (t : string) :
  string_forall is_lower_hex t = true ->
  forall (a : N) (seen : bool),
    PyStr.scan_digits 16 (PyStr.upper t) false (Z.of_N a) seen
      = Some (Z.of_N (HexString.Raw.to_N t a),
              seen || negb (String.eqb t EmptyString), EmptyString).
Proof.
  induction t as [| c t IH]; intros H a seen.
  - cbn. rewrite orb_false_r. reflexivity.
  - cbn [string_forall] in H. apply andb_true_iff in H as [Hc Ht].
    destruct (lower_hex_char c Hc)
      as (_ & _ & _ & Hu & _ & _ & _ & d & Hd & Hv & Hlt).
    cbn [PyStr.upper PyStr.scan_digits HexString.Raw.to_N].
    rewrite Hu, Hv, Hlt, Hd.
    replace (Z.of_N a * 16 + Z.of_N d) with (Z.of_N (d + 16 * a)) by lia.
    rewrite (IH Ht). cbn [String.eqb negb]. rewrite orb_true_r. reflexivity.
Qed.

Lemma size_nat_bound (p : positive) :
  forall k : nat, Z.pos p < 2 ^ Z.of_nat k -> (Pos.size_nat p <= k)%nat.
Proof.
  induction p as [p IH | p IH |]; intros [| k] H; cbn [Pos.size_nat];
    try (cbn in H; lia).
  - rewrite Nat2Z.inj_succ, Z.pow_succ_r in H by lia.
    specialize (IH k ltac:(lia)). lia.
  - rewrite Nat2Z.inj_succ, Z.pow_succ_r in H by lia.
    specialize (IH k ltac:(lia)). lia.
Qed.

(** [HexString] writes a number of at most [4 k] bits with at most [k]
    characters, all of them hex digits. *)
Lemma of_pos_shape (k : nat) :
  forall (p : positive) (rest : string),
    (Pos.size_nat p <= 4 * k)%nat ->
    (String.length (HexString.Raw.of_pos p rest)
       <= k + String.length rest)%nat /\
    (string_forall is_lower_hex rest = true ->
     string_forall is_lower_hex (HexString.Raw.of_pos p rest) = true).
Proof.
  induction k as [| k IH]; intros p rest Hs.
  - destruct p; cbn [Pos.size_nat] in Hs; lia.
  - do 4 try destruct p as [p | p |]; cbn [Pos.size_nat] in Hs;
      cbn [HexString.Raw.of_pos];
      try (match goal with
           | |- context [HexString.Raw.of_pos ?q (String ?c rest)] =>
               destruct (IH q (String c rest) ltac:(lia)) as [L F];
               split; [cbn [String.length] in L; lia |]; intros Hr; apply F;
               cbn [string_forall]; rewrite Hr; reflexivity
           end);
      (split; [cbn [String.length]; lia |]; intros Hr;
       cbn [string_forall]; rewrite Hr; reflexivity).
Qed.

Lemma length_upper (s : string) :
  String.length (PyStr.upper s) = String.length s.
Proof.
  induction s as [| c s IH]; [reflexivity |].
  cbn [PyStr.upper String.length]. rewrite IH. reflexivity.
Qed.

Lemma upper_app (a b : string) :
  PyStr.upper (a +:+ b) = PyStr.upper a +:+ PyStr.upper b.
Proof.
  induction a as [| c a IH]; [reflexivity |].
  change (String c a +:+ b) with (String c (a +:+ b)).
  cbn [PyStr.upper]. rewrite IH. reflexivity.
Qed.

Lemma length_app (a b : string) :
  String.length (a +:+ b) = (String.length a + String.length b)%nat.
Proof.
  induction a as [| c a IH]; [reflexivity |].
  change (String c a +:+ b) with (String c (a +:+ b)).
  cbn [String.length]. rewrite IH. reflexivity.
Qed.

Lemma zeros_props (k : nat) :
  PyStr.upper (PyStr.zeros k) = PyStr.zeros k /\
  String.length (PyStr.zeros k) = k /\
  (forall u, string_forall is_lower_hex (PyStr.zeros k +:+ u)
             = string_forall is_lower_hex u) /\
  (forall u, HexString.Raw.to_N (PyStr.zeros k +:+ u) 0
             = HexString.Raw.to_N u 0).
Proof.
  induction k as [| k (IH1 & IH2 & IH3 & IH4)];
    [repeat split; reflexivity |].
  cbn [PyStr.zeros]. repeat split.
  - cbn [PyStr.upper]. rewrite IH1. reflexivity.
  - cbn [String.length]. rewrite IH2. reflexivity.
  - intros u. change (String "0" (PyStr.zeros k) +:+ u)
      with (String "0" (PyStr.zeros k +:+ u)).
    cbn [string_forall]. rewrite IH3. reflexivity.
  - intros u. change (String "0" (PyStr.zeros k) +:+ u)
      with (String "0" (PyStr.zeros k +:+ u)).
    cbn [HexString.Raw.to_N]. apply IH4.
Qed.

(** [f"{n:08X}"] of a 32-bit word: eight upper-cased hex digits whose
    value is the word. *)
Lemma fmt_08X_digits (n : Z) :
  0 <= n < 2 ^ 32 ->
  exists t : string,
    PyStr.fmt_08X n = PyStr.upper t /\ String.length t = 8%nat /\
    string_forall is_lower_hex t = true /\
    HexString.Raw.to_N t 0 = Z.to_N n.
Proof.
  intros Hn. destruct n as [| p | p]; [| | lia].
  - exists "00000000". repeat split; reflexivity.
  - assert (Hs : (Pos.size_nat p <= 4 * 8)%nat)
      by (apply size_nat_bound; change (2 ^ Z.of_nat (4 * 8)) with (2 ^ 32);
          lia).
    destruct (of_pos_shape 8 p EmptyString Hs) as [L F].
    cbn [String.length] in L. specialize (F eq_refl).
    destruct (zeros_props (8 - String.length (HexString.Raw.of_pos p "")))
      as (Z1 & Z2 & Z3 & Z4).
    exists (PyStr.zeros (8 - String.length (HexString.Raw.of_pos p ""))
              +:+ HexString.Raw.of_pos p "").
    repeat split.
    + unfold PyStr.fmt_08X, PyStr.hex_digits_upper.
      rewrite upper_app, Z1, length_upper. reflexivity.
    + rewrite length_app, Z2. lia.
    + rewrite Z3. exact F.
    + rewrite Z4, HexString.Raw.to_N_of_pos. reflexivity.
Qed.

Lemma lstrip_nonspace (c : ascii) (r : string) :
  PyStr.isspace c = false -> PyStr.lstrip (String c r) = String c r.
Proof. intros H. cbn [PyStr.lstrip]. rewrite H. reflexivity. Qed.

Lemma rstrip_nonspace (u : string) :
  string_forall (fun c => negb (PyStr.isspace c)) u = true ->
  PyStr.rstrip u = u.
Proof.
  induction u as [| c u IH]; [reflexivity |].
  cbn [string_forall PyStr.rstrip]. intros H.
  apply andb_true_iff in H as [Hc Hu]. rewrite (IH Hu).
  destruct u; [| reflexivity].
  destruct (PyStr.isspace c); [discriminate | reflexivity].
Qed.

Lemma remove_absent (ch : ascii) (u : string) :
  string_forall (fun c => negb (Ascii.eqb c ch)) u = true ->
  PyStr.remove ch u = u.
Proof.
  induction u as [| c u IH]; [reflexivity |].
  cbn [string_forall PyStr.remove]. intros H.
  apply andb_true_iff in H as [Hc Hu]. rewrite (IH Hu).
  destruct (Ascii.eqb c ch); [discriminate | reflexivity].
Qed.

Lemma remove_0x_no_x (u : string) :
  PyStr.contains "x" u = false -> remove_0x u = u.
Proof.
  induction u as [| c u IH]; [reflexivity |].
  cbn [PyStr.contains]. intros H. apply orb_false_iff in H as [Hc Hu].
  cbn [remove_0x]. destruct u as [| c' u']; [reflexivity |].
  cbn [PyStr.contains] in Hu. apply orb_false_iff in Hu as [Hc' Hu'].
  rewrite Hc', andb_false_r. rewrite IH; [reflexivity |].
  cbn [PyStr.contains]. rewrite Hc', Hu'. reflexivity.
Qed.

(** [int(s, 16)] on upper-cased hex digits reads their value. *)
Lemma py_int_base16_digits (t : string) :
  string_forall is_lower_hex t = true -> t <> EmptyString ->
  py_int_base16 (PyStr.upper t) = Some (Z.of_N (HexString.Raw.to_N t 0)).
Proof.
  intros Ht Hne.
  pose proof (scan_digits_lower_hex t Ht 0 false) as Hscan.
  destruct t as [| c t]; [congruence |].
  cbn [string_forall] in Ht. apply andb_true_iff in Ht as [Hc Ht].
  destruct (lower_hex_char c Hc) as (_ & Hsp & _ & Hus & Hpl & Hmi & _).
  cbn [PyStr.upper] in *. cbn [String.eqb negb orb] in Hscan.
  change (Z.of_N 0) with 0 in Hscan.
  unfold py_int_base16. cbn [PyStr.skip_blanks]. rewrite Hsp.
  assert (Hsign :
    match String (PyStr.upper_char c) (PyStr.upper t) with
    | String "+" r => (false, r)
    | String "-" r => (true, r)
    | _ => (false, String (PyStr.upper_char c) (PyStr.upper t))
    end = (false, String (PyStr.upper_char c) (PyStr.upper t))).
  { revert Hpl Hmi. generalize (PyStr.upper_char c).
    intros [[] [] [] [] [] [] [] []] H1 H2;
      first [reflexivity | discriminate H1 | discriminate H2]. }
  rewrite Hsign.
  assert (Hpre :
    match String (PyStr.upper_char c) (PyStr.upper t) with
    | String "0" (String c' r) =>
        if PyStr.is_one_of "xX" c'
        then match r with String "_" r' => r' | _ => r end
        else String (PyStr.upper_char c) (PyStr.upper t)
    | _ => String (PyStr.upper_char c) (PyStr.upper t)
    end = String (PyStr.upper_char c) (PyStr.upper t)).
  { destruct t as [| c' t'];
      [generalize (PyStr.upper_char c);
       intros [[] [] [] [] [] [] [] []]; reflexivity |].
    cbn [string_forall] in Ht. apply andb_true_iff in Ht as [Hc' _].
    destruct (lower_hex_char c' Hc') as (_ & _ & _ & _ & _ & _ & Hx & _).
    cbn [PyStr.upper]. revert Hx.
    generalize (PyStr.upper_char c'), (PyStr.upper_char c).
    intros a [[] [] [] [] [] [] [] []] Hx; rewrite ?Hx; reflexivity. }
  rewrite Hpre.
  assert (Hund :
    forall (A : Type) (x y : A),
      match String (PyStr.upper_char c) (PyStr.upper t) with
      | String "_" _ => x
      | _ => y
      end = y).
  { intros A x y. revert Hus. generalize (PyStr.upper_char c).
    intros [[] [] [] [] [] [] [] []] H1;
      first [reflexivity | discriminate H1]. }
  rewrite Hund, Hscan. reflexivity.
Qed.

Lemma remove_0x_0X (u : string) :
  remove_0x (String "0" (String "X" u)) = String "0" (String "X" (remove_0x u)).
Proof. destruct u; reflexivity. Qed.

(** The cleaning steps of [hex_to_asm] on upper-cased hex digits, bare or
    behind a prefix. *)
Lemma hex_text_clean (t : string) :
  string_forall is_lower_hex t = true ->
  remove_0x (PyStr.remove " " (PyStr.strip (PyStr.upper t))) = PyStr.upper t /\
  remove_0x (PyStr.remove " " (PyStr.strip ("0x" +:+ PyStr.upper t)))
    = PyStr.upper t /\
  remove_0x (PyStr.remove " " (PyStr.strip ("0X" +:+ PyStr.upper t)))
    = "0X" +:+ PyStr.upper t.
Proof.
  intros Ht.
  assert (Hsp : string_forall (fun c => negb (PyStr.isspace c))
                  (PyStr.upper t) = true).
  { apply string_forall_upper; [| exact Ht]. intros c Hc.
    destruct (lower_hex_char c Hc) as (-> & _). reflexivity. }
  assert (Hbl : string_forall (fun c => negb (Ascii.eqb c " "))
                  (PyStr.upper t) = true).
  { apply string_forall_upper; [| exact Ht]. intros c Hc.
    destruct (lower_hex_char c Hc) as (_ & _ & -> & _). reflexivity. }
  pose proof (remove_0x_no_x _ (upper_no_x t)) as Hx.
  assert (Hstrip : forall a b,
            PyStr.isspace a = false -> PyStr.isspace b = false ->
            PyStr.strip (String a (String b (PyStr.upper t)))
              = String a (String b (PyStr.upper t))).
  { intros a b Ha Hb. unfold PyStr.strip.
    rewrite (lstrip_nonspace _ _ Ha). apply rstrip_nonspace.
    cbn [string_forall]. rewrite Ha, Hb, Hsp. reflexivity. }
  split; [| split].
  - unfold PyStr.strip.
    assert (Hl : PyStr.lstrip (PyStr.upper t) = PyStr.upper t).
    { destruct (PyStr.upper t) as [| c r]; [reflexivity |].
      cbn [string_forall] in Hsp. apply andb_true_iff in Hsp as [Hc _].
      apply lstrip_nonspace. destruct (PyStr.isspace c);
        [discriminate | reflexivity]. }
    rewrite Hl, (rstrip_nonspace _ Hsp), (remove_absent _ _ Hbl). exact Hx.
  - change ("0x" +:+ PyStr.upper t) with (String "0" (String "x" (PyStr.upper t))).
    rewrite (Hstrip "0" "x" eq_refl eq_refl)%char.
    rewrite remove_absent by (cbn [string_forall]; rewrite Hbl; reflexivity).
    cbn [remove_0x]. exact Hx.
  - change ("0X" +:+ PyStr.upper t) with (String "0" (String "X" (PyStr.upper t))).
    rewrite (Hstrip "0" "X" eq_refl eq_refl)%char.
    rewrite remove_absent by (cbn [string_forall]; rewrite Hbl; reflexivity).
    rewrite remove_0x_0X, Hx. reflexivity.
Qed.

(** X26: [hex_to_asm] reads back the hex text the tool itself prints.
    For every 32-bit word [n] and whatever the disassembler answers, the
    eight digits [f"{n:08X}"] (the text [_format_result] passes on) and
    the ['hex'] form ["0x" + f"{n:08X}"] are both decoded as the word [n]
    itself: the result is the disassembler's text for [n] with the same
    ['hex'], or the unknown-encoding error for [n], never a length or
    parse error.  The same digits behind an upper-case ["0X"] are refused
    as ten characters long. *)
Theorem hex_to_asm_reads_back_formatted_word
    (cs_disasm : Z -> option (string * string)) (n : Z) :
  0 <= n < 2 ^ 32 ->
  let expected :=
    match cs_disasm n with
    | Some (mnemonic, op_str) =>
        Decoded (mnemonic +:+ " " +:+ op_str)
          {| hex := "0x" +:+ PyStr.fmt_08X n;
             bytes_le := byte_hex n 0 +:+ byte_hex n 1
                         +:+ byte_hex n 2 +:+ byte_hex n 3;
             bytes_be := PyStr.fmt_08X n |}
    | None => HexErr (ErrUnknownEncoding n)
    end in
  hex_to_asm cs_disasm (PyStr.fmt_08X n) = expected /\
  hex_to_asm cs_disasm ("0x" +:+ PyStr.fmt_08X n) = expected /\
  hex_to_asm cs_disasm ("0X" +:+ PyStr.fmt_08X n) = HexErr (ErrHexLength 10).
Proof.
  intros Hn expected.
  destruct (fmt_08X_digits n Hn) as (t & Ef & Hlen & Ht & Hval).
  destruct (hex_text_clean t Ht) as (C1 & C2 & C3).
  assert (Hne : t <> EmptyString) by (intros ->; discriminate Hlen).
  pose proof (py_int_base16_digits t Ht Hne) as Hint.
  rewrite Hval, Z2N.id in Hint by lia.
  assert (Hrange : (0 <=? n) && (n <? 2 ^ 32) = true).
  { apply andb_true_iff. split; [apply Z.leb_le | apply Z.ltb_lt]; lia. }
  assert (Hgood : forall raw,
            remove_0x (PyStr.remove " " (PyStr.strip raw)) = PyStr.upper t ->
            hex_to_asm cs_disasm raw = expected).
  { intros raw Hc. unfold hex_to_asm. rewrite Hc, length_upper, Hlen.
    cbn [Nat.eqb negb]. rewrite Hint, Hrange, upper_idem.
    subst expected. rewrite Ef. reflexivity. }
  rewrite Ef. split; [| split].
  - apply Hgood, C1.
  - apply Hgood, C2.
  - unfold hex_to_asm. rewrite C3.
    change ("0X" +:+ PyStr.upper t) with (String "0" (String "X" (PyStr.upper t))).
    cbn [String.length]. rewrite length_upper, Hlen. reflexivity.
Qed.

Lemma hex_to_asm_reads_back_formatted_word_witness :
  hex_to_asm (fun _ => Some ("add", "x0, x1, #0x123")) "91048C20"
    = Decoded "add x0, x1, #0x123"
        {| hex := "0x91048C20"; bytes_le := "208C0491";
           bytes_be := "91048C20" |}.
Proof.
  apply (proj1 (hex_to_asm_reads_back_formatted_word
                  (fun _ => Some ("add", "x0, x1, #0x123")) 0x91048C20
                  ltac:(lia))).
Defined.

(* ================================================================== *)
(** * The catalog *)
(* ================================================================== *)

Example opcode_map_size :
  length catalog = 49%nat /\ length OPCODE_MAP = 49%nat /\
  map fst OPCODE_MAP = map name catalog.
Proof. vm_compute. repeat split; reflexivity. Qed.

Example opcode_map_movz : dict_get "MOVZ" OPCODE_MAP = Some spec_MOVZ.
Proof. vm_compute. reflexivity. Qed.

Example group_map_lookup :
  dict_get "STZG" GROUP_MAP = Some "ARMv8.5_MTE" /\
  dict_get "ADD" GROUP_MAP = Some "DataProcReg".
Proof. vm_compute. split; reflexivity. Qed.

Lemma fields_okb_sound (fs : list (string * (Z * Z))) :
  fields_okb fs = true ->
  fields_in_word fs /\ List.NoDup (map fst fs) /\ disjoint_fields fs.
Proof.
  induction fs as [| [f [s w]] r IH]; cbn [fields_okb].
  - intros _. split; [constructor |]. split; [constructor |].
    intros f1 s1 w1 f2 s2 w2 [].
  - intros H. apply andb_true_iff in H as [H Hr].
    apply andb_true_iff in H as [Hw Hall].
    destruct (IH Hr) as (IW & IN & ID).
    rewrite forallb_forall in Hall.
    assert (Hhead : forall g s' w', In (g, (s', w')) r ->
              f <> g /\ (s + w <= s' \/ s' + w' <= s)).
    { intros g s' w' Hin. specialize (Hall _ Hin). cbn in Hall.
      apply andb_true_iff in Hall as [Hne Hap].
      split.
      - intros ->. rewrite String.eqb_refl in Hne. discriminate.
      - apply orb_true_iff in Hap as [Hap | Hap]; apply Z.leb_le in Hap;
          [left | right]; exact Hap. }
    split; [| split].
    + constructor; [| exact IW]. unfold window_in_word in Hw.
      apply andb_true_iff in Hw as [Hw H3].
      apply andb_true_iff in Hw as [H1 H2].
      apply Z.leb_le in H1. apply Z.leb_le in H2. apply Z.leb_le in H3.
      repeat split; assumption.
    + cbn [map fst]. constructor; [| exact IN].
      intros Hin. apply in_map_iff in Hin as ([g [s' w']] & Hg & Hin).
      cbn in Hg. subst g. destruct (Hhead f s' w' Hin) as [Hne _].
      apply Hne. reflexivity.
    + intros f1 s1 w1 f2 s2 w2 H1 H2 Hne.
      destruct H1 as [E1 | H1], H2 as [E2 | H2].
      * congruence.
      * injection E1 as <- <- <-. apply (Hhead f2 s2 w2 H2).
      * injection E2 as <- <- <-.
        destruct (Hhead f1 s1 w1 H1) as [_ [H | H]]; [right | left]; exact H.
      * apply (ID f1 s1 w1 f2 s2 w2); assumption.
Qed.

Lemma opcode_map_checked :
  forallb (fun '(_, e) => descriptor_okb e) OPCODE_MAP = true.
Proof. vm_compute. reflexivity. Qed.

(** Every descriptor of the catalog has a 32-bit base and fields with
    distinct names and pairwise disjoint windows inside bits 0..31. *)
Lemma opcode_map_descriptors (opname : string) (spec : opspec) :
  dict_get opname OPCODE_MAP = Some spec ->
  fields_in_word (fields spec) /\ List.NoDup (map fst (fields spec)) /\
  disjoint_fields (fields spec) /\ 0 <= base spec < 2 ^ 32.
Proof.
  intros H. apply dict_get_In in H.
  pose proof opcode_map_checked as T. rewrite forallb_forall in T.
  specialize (T _ H). cbn beta iota in T. unfold descriptor_okb in T.
  apply andb_true_iff in T as [T H3]. apply andb_true_iff in T as [T H2].
  apply Z.leb_le in H2. apply Z.ltb_lt in H3.
  destruct (fields_okb_sound _ T) as (A & B & C).
  repeat split; assumption.
Qed.

Lemma assemble_value_range (spec : opspec) (combo_map : list (string * Z))
    (locks : gmap string Z) :
  fields_in_word (fields spec) -> 0 <= base spec < 2 ^ 32 ->
  0 <= snd (assemble_value spec combo_map locks) < 2 ^ 32.
Proof.
  intros Hw Hb. unfold assemble_value.
  apply apply_locks_range; [exact Hw |]. cbn [snd].
  apply apply_combo_range; assumption.
Qed.

Lemma explore_opcode_values_range (opname : string) (spec : opspec)
    (limit step : Z) (vary_fields : list string) (locks : gmap string Z)
    (out : list diag) (vals : list Z) (val : Z) :
  fields_in_word (fields spec) -> 0 <= base spec < 2 ^ 32 ->
  explore_opcode opname spec limit step vary_fields locks = Ret (out, vals) ->
  In val vals -> 0 <= val < 2 ^ 32.
Proof.
  intros Hw Hb H Hval. unfold explore_opcode in H.
  destruct (if is_nil vary_fields then _ else _) as [[out0 vf] lim].
  destruct (is_nil (fields spec)).
  { injection H as <- <-. destruct Hval as [<- | []]. exact Hb. }
  destruct (is_nil vf && (lim >? 0)).
  - destruct (assemble_value spec [] locks) as [w0 v0] eqn:Ea.
    injection H as <- <-. destruct Hval as [<- | []].
    change v0 with (snd (w0, v0)). rewrite <- Ea.
    apply assemble_value_range; assumption.
  - destruct (iterate_field_space (fields spec) vf locks step)
      as [[w0 combos] | e]; [| discriminate].
    cbn [mbind outcome_bind] in H.
    pose proof (explore_loop_values spec locks combos 0 lim val) as Hv.
    destruct (explore_loop spec locks combos 0 lim) as [ws vs].
    injection H as <- <-. cbn [snd] in Hv.
    destruct (Hv Hval) as (c & _ & ->).
    apply assemble_value_range; assumption.
Qed.

(** X27: exploration of a catalog opcode is well behaved.  For every entry
    of [OPCODE_MAP], whatever the cap, the step, the vary list and the
    locks, every value [explore_opcode] prints is a 32-bit word (so the
    four-byte conversion in front of the disassembler cannot overflow) and
    carries each locked field of the entry as its lock reduced to the
    field's width. *)
Theorem catalog_exploration_prints_words (opname : string) (spec : opspec)
    (limit step : Z) (vary_fields : list string) (locks : gmap string Z)
    (out : list diag) (vals : list Z) (val : Z) :
  dict_get opname OPCODE_MAP = Some spec ->
  explore_opcode opname spec limit step vary_fields locks = Ret (out, vals) ->
  In val vals ->
  0 <= val < 2 ^ 32 /\
  (forall (f : string) (s w raw : Z),
     In (f, (s, w)) (fields spec) -> locks !! f = Some raw ->
     field_value val s w = raw mod 2 ^ w).
Proof.
  intros Hmap H Hval.
  destruct (opcode_map_descriptors opname spec Hmap) as (Hw & Hnd & Hdis & Hb).
  split.
  - apply (explore_opcode_values_range opname spec limit step vary_fields
             locks out vals val Hw Hb H Hval).
  - intros f s w raw Hin Hl.
    apply (explore_opcode_locked_fields opname spec limit step vary_fields
             locks out vals (fields_in_word_wf _ Hw) Hnd Hdis H val f s w raw
             Hval Hin Hl).
Qed.

Lemma catalog_exploration_prints_words_witness :
  0 <= 0xF2A00005 < 2 ^ 32 /\
  (forall (f : string) (s w raw : Z),
     In (f, (s, w)) (fields spec_MOVK) ->
     ({["Rd" := 37; "sf" := 3]} : gmap string Z) !! f = Some raw ->
     field_value 0xF2A00005 s w = raw mod 2 ^ w).
Proof.
  eapply (catalog_exploration_prints_words "MOVK" spec_MOVK 2 1 ["hw"]
            {["Rd" := 37; "sf" := 3]} _ [0xF2800005; 0xF2A00005]).
  - reflexivity.
  - vm_compute. reflexivity.
  - right. left. reflexivity.
Defined.
